(** * A shallow embedding of BuildStream's local CAS cache

    Source: [src/buildstream/_cas/cascache.py] (class [CASCache]).

    The cache lives in a POSIX file system.  The embedding keeps the file
    system explicit: a finite map from path strings to directory entries
    and a table of inodes, so that hard links ([os.link]) alias the inode
    they name, exactly as the kernel does.  Python exceptions are values of
    [exn]; an operation is a state transformer that returns either a value
    or a raised exception, and the state reached at the point of a raise
    is kept (side effects are not rolled back).

    SHA-256 ([hashlib]) and the protobuf wire format are libraries outside
    the repository: they enter as the type classes [Hash] and [Codec]. *)

From Stdlib Require Import ZArith Ascii String List Bool Lia.
From stdpp Require Import base option list gmap strings pretty sorting.

Local Open Scope string_scope.
Local Open Scope Z_scope.

(** ** Exceptions and the state-and-exception monad *)

(** gRPC status codes consulted by the cache. *)
Inductive StatusCode :=
| NOT_FOUND
| RESOURCE_EXHAUSTED
| UNAVAILABLE
| PERMISSION_DENIED
| INTERNAL.

Definition StatusCode_eqb (a b : StatusCode) : bool :=
  match a, b with
  | NOT_FOUND, NOT_FOUND | RESOURCE_EXHAUSTED, RESOURCE_EXHAUSTED
  | UNAVAILABLE, UNAVAILABLE | PERMISSION_DENIED, PERMISSION_DENIED
  | INTERNAL, INTERNAL => true
  | _, _ => false
  end.

(** The Python exceptions the cache raises, lets through or handles.
    [CASCacheError] carries the fixed part of its message and the
    [temporary] flag. *)
Inductive exn :=
| CASCacheError (msg : string) (temporary : bool)
| FileExistsError
| FileNotFoundError
| NotADirectoryError
| IsADirectoryError
| OSError (errno : string)
| DirectoryExistsError
| RpcError (code : StatusCode)
| BlobNotFound
| CASRemoteError (msg : string)
| DecodeError
| AssertionError
| TypeError
| RecursionError.

(** [isinstance(e, OSError)]: the built-in subclasses, and
    [utils.DirectoryExistsError], which derives from [OSError]. *)
Definition is_OSError (e : exn) : bool :=
  match e with
  | FileExistsError | FileNotFoundError | NotADirectoryError
  | IsADirectoryError | OSError _ | DirectoryExistsError => true
  | _ => false
  end.

Inductive result (A : Type) :=
| Ok (a : A)
| Raise (e : exn).
Arguments Ok {A} a.
Arguments Raise {A} e.

(** A computation over a state [S]. *)
Definition M (S A : Type) : Type := S -> S * result A.

Definition ret {S A} (a : A) : M S A := fun s => (s, Ok a).
Definition raise {S A} (e : exn) : M S A := fun s => (s, Raise e).
Definition bind {S A B} (c : M S A) (k : A -> M S B) : M S B :=
  fun s => match c s with
           | (s', Ok a) => k a s'
           | (s', Raise e) => (s', Raise e)
           end.
Definition get {S} : M S S := fun s => (s, Ok s).
Definition put {S} (s : S) : M S unit := fun _ => (s, Ok tt).

Notation "'let*' x ':=' c 'in' k" := (bind c (fun x => k))
  (at level 10, x pattern, c at level 100, k at level 200).
Notation "c ';;;' k" := (bind c (fun _ => k))
  (at level 100, k at level 200, right associativity).

(** [try: body finally: cleanup].  An exception of the cleanup replaces
    the outcome of the body. *)
Definition try_finally {S A} (body : M S A) (cleanup : M S unit) : M S A :=
  fun s => match body s with
           | (s1, r) => match cleanup s1 with
                        | (s2, Ok _) => (s2, r)
                        | (s2, Raise e) => (s2, Raise e)
                        end
           end.

(** [try: body except ...: handler]; the handler sees every exception and
    re-raises those it does not handle. *)
Definition try_except {S A} (body : M S A) (handler : exn -> M S A) : M S A :=
  fun s => match body s with
           | (s1, Ok a) => (s1, Ok a)
           | (s1, Raise e) => handler e s1
           end.

(** [for x in xs: body x], threading an accumulator. *)
Fixpoint for_each {S A B} (xs : list A) (acc : B) (body : B -> A -> M S B) : M S B :=
  match xs with
  | [] => ret acc
  | x :: xs' => let* acc' := body acc x in for_each xs' acc' body
  end.

(** ** Path strings ([posixpath]) *)

Definition sep : ascii := "/"%char.

Definition starts_with_sep (s : string) : bool :=
  match s with
  | String c _ => Ascii.eqb c sep
  | EmptyString => false
  end.

Fixpoint ends_with_sep (s : string) : bool :=
  match s with
  | EmptyString => false
  | String c EmptyString => Ascii.eqb c sep
  | String _ s' => ends_with_sep s'
  end.

(** [os.path.join(a, b)]. *)
Definition path_join (a b : string) : string :=
  if starts_with_sep b then b
  else if (String.eqb a "" || ends_with_sep a)%bool then a ++ b
  else a ++ "/" ++ b.

(** [os.path.join(a, b1, ..., bn)]. *)
Definition path_join_all (a : string) (bs : list string) : string :=
  fold_left path_join bs a.

Definition is_sep (c : ascii) : bool := Ascii.eqb c sep.

Fixpoint drop_while (p : ascii -> bool) (l : list ascii) : list ascii :=
  match l with
  | c :: l' => if p c then drop_while p l' else l
  | [] => []
  end.

Fixpoint take_while (p : ascii -> bool) (l : list ascii) : list ascii :=
  match l with
  | c :: l' => if p c then c :: take_while p l' else []
  | [] => []
  end.

(** [os.path.split(p)]: the part up to the last slash, with trailing
    slashes stripped unless it consists of slashes only, and the part
    after the last slash. *)
Definition path_split (p : string) : string * string :=
  let r := rev (list_ascii_of_string p) in
  let tail_rev := take_while (fun c => negb (is_sep c)) r in
  let head_rev := drop_while (fun c => negb (is_sep c)) r in
  let head_rev' :=
    if forallb is_sep head_rev then head_rev else drop_while is_sep head_rev in
  (string_of_list_ascii (rev head_rev'), string_of_list_ascii (rev tail_rev)).

Definition dirname (p : string) : string := fst (path_split p).
Definition basename (p : string) : string := snd (path_split p).

(** [s[:n]] and [s[n:]]. *)
Definition str_take (n : nat) (s : string) : string := String.substring 0 n s.
Definition str_drop (n : nat) (s : string) : string :=
  String.substring n (String.length s - n) s.

(** [os.path.relpath(p, start)] for a path [p] that [os.walk(start)]
    produced, the only use the cache makes of it: the part of [p] below
    [start]. *)
Definition relpath (p start : string) : string :=
  if String.prefix (start ++ "/") p
  then str_drop (String.length start + 1) p
  else p.

(** ** The file system *)

(** A directory entry.  A regular file names an inode; two names of one
    inode are hard links of each other. *)
Inductive fnode :=
| FDir
| FFile (ino : nat)
| FSymlink (target : string)
| FSocket
| FFifo
| FCharDev
| FBlockDev.

#[global] Instance fnode_eq_dec : EqDecision fnode.
Proof. solve_decision. Defined.

Record inode := Inode {
  i_data : string;   (* the bytes *)
  i_mode : Z;        (* the permission bits *)
  i_nlink : nat      (* the number of names *)
}.

Record fs := Fs {
  nodes : gmap string fnode;
  inodes : gmap nat inode
}.

Definition empty_fs : fs := Fs ∅ ∅.

(** [stat] constants. *)
Definition S_IFMT : Z := 61440.    (* 0o170000 *)
Definition S_IFDIR : Z := 16384.   (* 0o040000 *)
Definition S_IFCHR : Z := 8192.    (* 0o020000 *)
Definition S_IFBLK : Z := 24576.   (* 0o060000 *)
Definition S_IFREG : Z := 32768.   (* 0o100000 *)
Definition S_IFIFO : Z := 4096.    (* 0o010000 *)
Definition S_IFLNK : Z := 40960.   (* 0o120000 *)
Definition S_IFSOCK : Z := 49152.  (* 0o140000 *)
Definition S_IRUSR : Z := 256.
Definition S_IWUSR : Z := 128.
Definition S_IXUSR : Z := 64.
Definition S_IRGRP : Z := 32.
Definition S_IXGRP : Z := 8.
Definition S_IROTH : Z := 4.
Definition S_IXOTH : Z := 1.

Definition S_ISDIR (mode : Z) : bool := Z.land mode S_IFMT =? S_IFDIR.
Definition S_ISREG (mode : Z) : bool := Z.land mode S_IFMT =? S_IFREG.
Definition S_ISLNK (mode : Z) : bool := Z.land mode S_IFMT =? S_IFLNK.
Definition S_ISSOCK (mode : Z) : bool := Z.land mode S_IFMT =? S_IFSOCK.

(** The permission bits kept of a mode, [mode & 0o7777]. *)
Definition perm_bits (mode : Z) : Z := Z.land mode 4095.

Definition exists_ (f : fs) (p : string) : bool :=
  match nodes f !! p with Some _ => true | None => false end.

Definition isdir (f : fs) (p : string) : bool :=
  match nodes f !! p with Some FDir => true | _ => false end.

(** The directory a new name goes into must exist; the empty head is the
    working directory. *)
Definition parent_isdir (f : fs) (p : string) : bool :=
  (String.eqb (dirname p) "" || isdir f (dirname p))%bool.

(** [os.lstat(p).st_mode]: the file type and the permission bits.  Only
    regular files keep permission bits of their own. *)
Definition lstat_mode (p : string) : M fs Z := fun f =>
  match nodes f !! p with
  | None => (f, Raise FileNotFoundError)
  | Some FDir => (f, Ok (Z.lor S_IFDIR 493))
  | Some (FFile i) =>
      match inodes f !! i with
      | Some n => (f, Ok (Z.lor S_IFREG (perm_bits (i_mode n))))
      | None => (f, Raise FileNotFoundError)
      end
  | Some (FSymlink _) => (f, Ok (Z.lor S_IFLNK 511))
  | Some FSocket => (f, Ok (Z.lor S_IFSOCK 493))
  | Some FFifo => (f, Ok (Z.lor S_IFIFO 420))
  | Some FCharDev => (f, Ok (Z.lor S_IFCHR 420))
  | Some FBlockDev => (f, Ok (Z.lor S_IFBLK 420))
  end.

(** The names in directory [p].  The order of [os.listdir] is arbitrary;
    the model lists the names in the order in which the map enumerates
    its keys, which is not the alphabetical one. *)
Definition children (f : fs) (p : string) : list string :=
  omap (fun k => if (String.eqb (dirname k) p && negb (String.eqb (basename k) "")
                     && String.eqb (path_join p (basename k)) k)%bool
                 then Some (basename k) else None)
       (map fst (map_to_list (nodes f))).

Definition listdir (p : string) : M fs (list string) := fun f =>
  match nodes f !! p with
  | Some FDir => (f, Ok (children f p))
  | Some _ => (f, Raise NotADirectoryError)
  | None => (f, Raise FileNotFoundError)
  end.

(** [open(p, 'rb').read()]. *)
Definition read_file (p : string) : M fs string := fun f =>
  match nodes f !! p with
  | Some (FFile i) =>
      match inodes f !! i with
      | Some n => (f, Ok (i_data n))
      | None => (f, Raise FileNotFoundError)
      end
  | Some FDir => (f, Raise IsADirectoryError)
  | Some _ => (f, Raise (OSError "ENXIO"))
  | None => (f, Raise FileNotFoundError)
  end.

(** [os.readlink(p)]. *)
Definition readlink (p : string) : M fs string := fun f =>
  match nodes f !! p with
  | Some (FSymlink t) => (f, Ok t)
  | Some _ => (f, Raise (OSError "EINVAL"))
  | None => (f, Raise FileNotFoundError)
  end.

(** [os.stat(p).st_size] of a regular file. *)
Definition file_size (p : string) : M fs Z :=
  let* data := read_file p in ret (Z.of_nat (String.length data)).

(** [os.mkdir(p)]. *)
Definition mkdir (p : string) : M fs unit := fun f =>
  if exists_ f p then (f, Raise FileExistsError)
  else if parent_isdir f p then (Fs (<[p := FDir]> (nodes f)) (inodes f), Ok tt)
  else (f, Raise FileNotFoundError).

(** Whether [os.makedirs(name)] first has to create the parent: the head
    and tail it splits [name] into are not empty and the head is missing. *)
Definition makedirs_split (name : string) : string * string :=
  if String.eqb (basename name) "" then path_split (dirname name) else path_split name.

Definition makedirs_parent_missing (f : fs) (name : string) : bool :=
  let head := fst (makedirs_split name) in
  let tail := snd (makedirs_split name) in
  (negb (String.eqb head "") && negb (String.eqb tail "") && negb (exists_ f head))%bool.

(** [os.makedirs(name, exist_ok=True)], recursion on the head as in
    [os.py]; the fuel bounds the number of path components. *)
Fixpoint makedirs_fuel (fuel : nat) (name : string) : M fs unit :=
  match fuel with
  | O => raise RecursionError
  | S fuel' =>
      let* f := get in
      let* early :=
        if makedirs_parent_missing f name then
          try_except (makedirs_fuel fuel' (fst (makedirs_split name)))
            (fun e => match e with FileExistsError => ret tt | _ => raise e end) ;;;
          ret (String.eqb (snd (makedirs_split name)) ".")
        else ret false in
      if (early : bool) then ret tt
      else try_except (mkdir name)
             (fun e => if is_OSError e
                       then let* f' := get in
                            if isdir f' name then ret tt else raise e
                       else raise e)
  end.

Definition makedirs (name : string) : M fs unit :=
  makedirs_fuel (S (String.length name)) name.

(** A fresh inode number. *)
Definition fresh_ino (f : fs) : nat := fresh (dom (inodes f)).

(** Create an empty regular file with the given permission bits. *)
Definition create_file (p : string) (mode : Z) : M fs unit := fun f =>
  if exists_ f p then (f, Raise FileExistsError)
  else if parent_isdir f p
  then (Fs (<[p := FFile (fresh_ino f)]> (nodes f))
           (<[fresh_ino f := Inode "" mode 1]> (inodes f)), Ok tt)
  else (f, Raise FileNotFoundError).

(** [file.write(data)] at the end of the file. *)
Definition write_file (p : string) (data : string) : M fs unit := fun f =>
  match nodes f !! p with
  | Some (FFile i) =>
      match inodes f !! i with
      | Some n => (Fs (nodes f) (<[i := Inode (i_data n ++ data) (i_mode n) (i_nlink n)]> (inodes f)), Ok tt)
      | None => (f, Raise FileNotFoundError)
      end
  | Some FDir => (f, Raise IsADirectoryError)
  | Some _ => (f, Raise (OSError "ENXIO"))
  | None => (f, Raise FileNotFoundError)
  end.

(** [os.chmod(p, mode)]: the mode belongs to the inode, so every hard link
    of the file sees the change. *)
Definition chmod (p : string) (mode : Z) : M fs unit := fun f =>
  match nodes f !! p with
  | Some (FFile i) =>
      match inodes f !! i with
      | Some n => (Fs (nodes f) (<[i := Inode (i_data n) mode (i_nlink n)]> (inodes f)), Ok tt)
      | None => (f, Raise FileNotFoundError)
      end
  | Some _ => (f, Ok tt)
  | None => (f, Raise FileNotFoundError)
  end.

(** [os.link(src, dst)]: a second name for the inode of [src]. *)
Definition link (src dst : string) : M fs unit := fun f =>
  match nodes f !! src with
  | Some (FFile i) =>
      match inodes f !! i with
      | Some n =>
          if exists_ f dst then (f, Raise FileExistsError)
          else if parent_isdir f dst
          then (Fs (<[dst := FFile i]> (nodes f))
                   (<[i := Inode (i_data n) (i_mode n) (S (i_nlink n))]> (inodes f)), Ok tt)
          else (f, Raise FileNotFoundError)
      | None => (f, Raise FileNotFoundError)
      end
  | Some FDir => (f, Raise (OSError "EPERM"))
  | Some _ => (f, Raise (OSError "EPERM"))
  | None => (f, Raise FileNotFoundError)
  end.

(** Drop one name of inode [i]; the inode goes with its last name. *)
Definition drop_link (i : nat) (ino : gmap nat inode) : gmap nat inode :=
  match ino !! i with
  | Some n =>
      match i_nlink n with
      | S (S k) => <[i := Inode (i_data n) (i_mode n) (S k)]> ino
      | _ => delete i ino
      end
  | None => ino
  end.

(** [os.unlink(p)]. *)
Definition unlink (p : string) : M fs unit := fun f =>
  match nodes f !! p with
  | Some FDir => (f, Raise IsADirectoryError)
  | Some (FFile i) => (Fs (delete p (nodes f)) (drop_link i (inodes f)), Ok tt)
  | Some _ => (Fs (delete p (nodes f)) (inodes f), Ok tt)
  | None => (f, Raise FileNotFoundError)
  end.

(** [os.symlink(target, p)]. *)
Definition symlink (target p : string) : M fs unit := fun f =>
  if exists_ f p then (f, Raise FileExistsError)
  else if parent_isdir f p then (Fs (<[p := FSymlink target]> (nodes f)) (inodes f), Ok tt)
  else (f, Raise FileNotFoundError).

(** The first of the candidate names [dir/tmp0], [dir/tmp1], ... that is
    free ([tempfile] draws random candidates and keeps the first free
    one; it raises [FileExistsError] when it finds none). *)
Definition tmp_candidates (f : fs) (dir : string) : list string :=
  map (fun n => path_join dir ("tmp" ++ pretty (N.of_nat n))) (seq 0 (S (size (nodes f)))).

Definition tmp_name (f : fs) (dir : string) : option string :=
  List.find (fun p => negb (exists_ f p)) (tmp_candidates f dir).

(** [tempfile.NamedTemporaryFile(dir=dir)]: a new file, mode 0600; its
    name is returned. *)
Definition NamedTemporaryFile (dir : string) : M fs string := fun f =>
  match tmp_name f dir with
  | Some p => match create_file p 384 f with
              | (f', Ok _) => (f', Ok p)
              | (f', Raise e) => (f', Raise e)
              end
  | None => (f, Raise FileExistsError)
  end.

(** [tempfile.mkdtemp(prefix='tmp', dir=dir)]. *)
Definition mkdtemp (dir : string) : M fs string := fun f =>
  match tmp_name f dir with
  | Some p => match mkdir p f with
              | (f', Ok _) => (f', Ok p)
              | (f', Raise e) => (f', Raise e)
              end
  | None => (f, Raise FileExistsError)
  end.

(** Whether [k] is [p] or lies below it. *)
Definition below (p k : string) : bool :=
  (String.eqb k p || String.prefix (p ++ "/") k)%bool.

(** [shutil.rmtree(p)]: every name at or below [p] goes. *)
Definition rmtree (p : string) : M fs unit := fun f =>
  let doomed := filter (fun kv => below p (fst kv) = true) (map_to_list (nodes f)) in
  (Fs (filter (fun kv => below p (fst kv) = false) (nodes f))
      (foldr (fun kv ino => match snd kv with FFile i => drop_link i ino | _ => ino end)
             (inodes f) doomed), Ok tt).

(** [os.rename(src, dst)].  A directory moves with its subtree and
    replaces only an empty directory; a file replaces an existing file,
    whose inode loses that name, and renaming one hard link of a file to
    another does nothing. *)
Definition rename (src dst : string) : M fs unit := fun f =>
  match nodes f !! src with
  | None => (f, Raise FileNotFoundError)
  | Some FDir =>
      let blocked :=
        match nodes f !! dst with
        | None => None
        | Some FDir => match children f dst with [] => None | _ => Some (OSError "ENOTEMPTY") end
        | Some _ => Some NotADirectoryError
        end in
      match blocked with
      | Some e => (f, Raise e)
      | None =>
          if parent_isdir f dst then
            let moved := filter (fun kv => below src (fst kv) = true) (map_to_list (nodes f)) in
            let rest := filter (fun kv => below src (fst kv) = false) (nodes f) in
            (Fs (foldr (fun kv m => <[dst ++ str_drop (String.length src) (fst kv) := snd kv]> m)
                       rest moved)
                (inodes f), Ok tt)
          else (f, Raise FileNotFoundError)
      end
  | Some x =>
      match nodes f !! dst with
      | Some FDir => (f, Raise IsADirectoryError)
      | Some (FFile j) =>
          (* two names of one inode: nothing to do *)
          if bool_decide (x = FFile j) then (f, Ok tt)
          else (Fs (<[dst := x]> (delete src (nodes f))) (drop_link j (inodes f)), Ok tt)
      | Some _ => (Fs (<[dst := x]> (delete src (nodes f))) (inodes f), Ok tt)
      | None => if parent_isdir f dst
                then (Fs (<[dst := x]> (delete src (nodes f))) (inodes f), Ok tt)
                else (f, Raise FileNotFoundError)
      end
  end.

(** ** The data model: REv2 messages *)

Module Digest.
Record t := Build { hash : string; size_bytes : Z }.
(** [remote_execution_pb2.Digest()]: every field at its default. *)
Definition empty : t := Build "" 0.
End Digest.

Module FileNode.
Record t := Build { name : string; digest : Digest.t; is_executable : bool }.
End FileNode.

Module DirectoryNode.
Record t := Build { name : string; digest : Digest.t }.
End DirectoryNode.

Module SymlinkNode.
Record t := Build { name : string; target : string }.
End SymlinkNode.

Module Directory.
Record t := Build {
  files : list FileNode.t;
  directories : list DirectoryNode.t;
  symlinks : list SymlinkNode.t
}.
(** [remote_execution_pb2.Directory()]. *)
Definition empty : t := Build [] [] [].
Definition add_file (d : t) (n : FileNode.t) : t :=
  Build (files d ++ [n]) (directories d) (symlinks d).
Definition add_directory (d : t) (n : DirectoryNode.t) : t :=
  Build (files d) (directories d ++ [n]) (symlinks d).
Definition add_symlink (d : t) (n : SymlinkNode.t) : t :=
  Build (files d) (directories d) (symlinks d ++ [n]).
End Directory.

(** [hashlib.sha256(bytes).hexdigest()]. *)
Class Hash := sha256_hexdigest : string -> string.

(** The protobuf wire format of the two messages the cache stores:
    [SerializeToString] and [ParseFromString], which raises [DecodeError]
    on bytes that are no message. *)
Class Codec := {
  serialize_directory : Directory.t -> string;
  parse_directory : string -> option Directory.t;
  serialize_digest : Digest.t -> string;
  parse_digest : string -> option Digest.t
}.

(** A streaming hasher: [h.update(chunk)] extends the hashed bytes. *)
Definition hasher := string.
Definition hasher_new : hasher := "".
Definition hasher_update (h : hasher) (chunk : string) : hasher := h ++ chunk.
Definition hasher_hexdigest `{Hash} (h : hasher) : string := sha256_hexdigest h.

(** [iter(lambda: f.read(n), b"")]: the chunks of at most [n] bytes read
    until the file is exhausted. *)
Fixpoint chunks_fuel (fuel n : nat) (data : string) : list string :=
  match fuel with
  | O => []
  | S fuel' =>
      if String.eqb data "" then []
      else str_take n data :: chunks_fuel fuel' n (str_drop n data)
  end.

Definition read_chunks (n : nat) (data : string) : list string :=
  chunks_fuel (String.length data) n data.

(** ** The cache *)

(** [CASCache]: the two directories fixed by [__init__]. *)
Record CASCache := { casdir : string; tmpdir : string }.

(** What [add_object] is given: [path=...] or [buffer=...]; the source's
    assertion that exactly one of the two is passed is the type. *)
Inductive source :=
| Path (path : string)
| Buffer (buffer : string).

(** A computation on one component of a pair of states. *)
Definition lift_fst {S X A} (c : M S A) : M (S * X) A := fun s =>
  match c (fst s) with (s', r) => ((s', snd s), r) end.
Definition lift_snd {S X A} (c : M X A) : M (S * X) A := fun s =>
  match c (snd s) with (x', r) => ((fst s, x'), r) end.

(** A Python object that a block mutates in place is the second
    component of the state. *)
Definition set_obj {S X} (x : X) : M (S * X) unit := fun s => ((fst s, x), Ok tt).
Definition get_obj {S X} : M (S * X) X := fun s => (s, Ok (snd s)).

(** Run a block that mutates a local object; the object is returned with
    the outcome, whether the block returned or raised. *)
Definition with_obj {S X A} (x : X) (c : M (S * X) A) : S -> S * (X * result A) :=
  fun s => match c (s, x) with ((s', x'), r) => (s', (x', r)) end.

Section Cache.
Context `{Hash} `{Codec}.

(** [CASCache.__init__(path)]. *)
Definition CASCache_init (path : string) : M fs CASCache :=
  let self := {| casdir := path_join path "cas"; tmpdir := path_join path "tmp" |} in
  makedirs (path_join_all (casdir self) ["refs"; "heads"]) ;;;
  makedirs (path_join_all (casdir self) ["objects"]) ;;;
  makedirs (tmpdir self) ;;;
  ret self.

Definition objpath (self : CASCache) (digest : Digest.t) : string :=
  path_join_all (casdir self)
    ["objects"; str_take 2 (Digest.hash digest); str_drop 2 (Digest.hash digest)].

Definition _refpath (self : CASCache) (ref : string) : string :=
  path_join_all (casdir self) ["refs"; "heads"; ref].

(** [contains(ref)]. *)
Definition contains (self : CASCache) (ref : string) : M fs bool :=
  let* f := get in ret (exists_ f (_refpath self ref)).

(** The part of [add_object] after the digest is known: place the file
    at its final location. *)
Definition add_object_place (self : CASCache) (tmp_name : string) (h : hasher)
  : M (fs * Digest.t) unit :=
  let* digest := get_obj in
  set_obj (Digest.Build (hasher_hexdigest h) (Digest.size_bytes digest)) ;;;
  let* size := lift_fst (file_size tmp_name) in
  let digest := Digest.Build (hasher_hexdigest h) size in
  set_obj digest ;;;
  let objpath := objpath self digest in
  lift_fst (makedirs (dirname objpath)) ;;;
  lift_fst (link tmp_name objpath).

(** The [with contextlib.ExitStack()] block of [add_object]; the state
    holds the [Digest] object that the block populates in place. *)
Definition add_object_with (self : CASCache) (src : source) (link_directly : bool)
  : M (fs * Digest.t) unit :=
  match src, link_directly with
  | Path path, true =>
      (* tmp = open(path, 'rb') *)
      let* data := lift_fst (read_file path) in
      let h := fold_left hasher_update (read_chunks 4096 data) hasher_new in
      add_object_place self path h
  | _, _ =>
      let* tmp := lift_fst (NamedTemporaryFile (tmpdir self)) in
      try_finally
        (lift_fst (chmod tmp (S_IRUSR + S_IWUSR + S_IRGRP + S_IROTH)) ;;;
         let* h :=
           match src with
           | Path path =>
               if String.eqb path "" then raise TypeError  (* h.update(None) *)
               else
                 let* data := lift_fst (read_file path) in
                 for_each (read_chunks 4096 data) hasher_new
                   (fun h chunk => lift_fst (write_file tmp chunk) ;;;
                                   ret (hasher_update h chunk))
           | Buffer buffer =>
               lift_fst (write_file tmp buffer) ;;;
               ret (hasher_update hasher_new buffer)
           end in
         add_object_place self tmp h)
        (* leaving the block closes, and so deletes, the temporary file *)
        (lift_fst (unlink tmp))
  end.

(** The two [except] clauses of [add_object]. *)
Definition add_object_except {S} (e : exn) : M S unit :=
  match e with
  | FileExistsError => ret tt
  | _ => if is_OSError e then raise (CASCacheError "Failed to hash object" false)
         else raise e
  end.

(** [add_object(digest=, path=, buffer=, link_directly=)]. *)
Definition add_object (self : CASCache) (digest : option Digest.t) (src : source)
    (link_directly : bool) : M fs Digest.t := fun f =>
  let digest0 := match digest with Some d => d | None => Digest.empty end in
  match with_obj digest0
          (try_except (add_object_with self src link_directly) add_object_except) f with
  | (f', (d, Ok _)) => (f', Ok d)
  | (f', (_, Raise e)) => (f', Raise e)
  end.

(** Modelled from the spec: [utils.save_file_atomic], which is not in
    the sources.  "writes it atomically (temp file in tmp/, fsync,
    rename into refs/heads/<key>)"; a failure removes the temp file. *)
Definition save_file_atomic (filename data tempdir : string) : M fs unit :=
  let* tmp := NamedTemporaryFile tempdir in
  try_except (write_file tmp data ;;; rename tmp filename)
    (fun e => unlink tmp ;;; raise e).

(** [set_ref(ref, tree)]. *)
Definition set_ref (self : CASCache) (ref : string) (tree : Digest.t) : M fs unit :=
  let refpath := _refpath self ref in
  makedirs (dirname refpath) ;;;
  save_file_atomic refpath (serialize_digest tree) (tmpdir self).

(** [resolve_ref(ref, update_mtime=)].  Modification times are not part
    of the model, so [os.utime] leaves no trace. *)
Definition resolve_ref (self : CASCache) (ref : string) : M fs Digest.t :=
  let refpath := _refpath self ref in
  try_except
    (let* data := read_file refpath in
     match parse_digest data with
     | Some digest => ret digest
     | None => raise DecodeError
     end)
    (fun e => match e with
              | FileNotFoundError =>
                  raise (CASCacheError "Attempt to access unavailable ref" false)
              | _ => raise e
              end).

(** [directory.ParseFromString(open(objpath(tree), 'rb').read())]. *)
Definition read_directory (self : CASCache) (tree : Digest.t) : M fs Directory.t :=
  let* data := read_file (objpath self tree) in
  match parse_directory data with
  | Some directory => ret directory
  | None => raise DecodeError
  end.

(** [sorted(names)]. *)
Definition sorted (names : list string) : list string := merge_sort String.le names.

(** One iteration of the loop of [_commit_directory]; [rec] is the
    recursive call. *)
Definition commit_entry (self : CASCache) (rec : string -> option Digest.t -> M fs Digest.t)
    (path : string) (directory : Directory.t) (name : string) : M fs Directory.t :=
  let full_path := path_join path name in
  let* mode := lstat_mode full_path in
  if S_ISDIR mode then
    let* d := rec full_path (Some Digest.empty) in
    ret (Directory.add_directory directory (DirectoryNode.Build name d))
  else if S_ISREG mode then
    let* d := add_object self (Some Digest.empty) (Path full_path) false in
    ret (Directory.add_file directory
           (FileNode.Build name d (Z.land mode S_IXUSR =? S_IXUSR)))
  else if S_ISLNK mode then
    let* target := readlink full_path in
    ret (Directory.add_symlink directory (SymlinkNode.Build name target))
  else if S_ISSOCK mode then
    (* The process serving the socket can't be cached anyway *)
    ret directory
  else
    raise (CASCacheError "Unsupported file type" false).

(** [_commit_directory(path, dir_digest=)]; the fuel bounds the depth of
    the directory tree. *)
Fixpoint _commit_directory (fuel : nat) (self : CASCache) (path : string)
    (dir_digest : option Digest.t) : M fs Digest.t :=
  match fuel with
  | O => raise RecursionError
  | S fuel' =>
      let* names := listdir path in
      let* directory :=
        for_each (sorted names) Directory.empty
          (commit_entry self (_commit_directory fuel' self) path) in
      add_object self dir_digest (Buffer (serialize_directory directory)) false
  end.

(** [commit(refs, path)]. *)
Definition commit (fuel : nat) (self : CASCache) (refs : list string) (path : string)
  : M fs unit :=
  let* tree := _commit_directory fuel self path None in
  for_each refs tt (fun _ ref => set_ref self ref tree).

End Cache.

(** ** Checkout and extraction *)

Section Checkout.
Context `{Codec}.

(** The loop of [_checkout] over [directory.files]: a hard link to the
    blob, made executable when the node says so. *)
Definition checkout_file (self : CASCache) (dest : string) (filenode : FileNode.t)
  : M fs unit :=
  let fullpath := path_join dest (FileNode.name filenode) in
  link (objpath self (FileNode.digest filenode)) fullpath ;;;
  if FileNode.is_executable filenode
  then chmod fullpath (S_IRUSR + S_IWUSR + S_IXUSR + S_IRGRP + S_IXGRP + S_IROTH + S_IXOTH)
  else ret tt.

(** The loop over [directory.directories]; [rec] is the recursive call. *)
Definition checkout_dirnode (self : CASCache) (rec : string -> Digest.t -> M fs unit)
    (dest : string) (dirnode : DirectoryNode.t) : M fs unit :=
  let* f := get in
  (* Don't try to checkout a dangling ref *)
  if exists_ f (objpath self (DirectoryNode.digest dirnode))
  then rec (path_join dest (DirectoryNode.name dirnode)) (DirectoryNode.digest dirnode)
  else ret tt.

(** The loop over [directory.symlinks]. *)
Definition checkout_symlink (dest : string) (symlinknode : SymlinkNode.t) : M fs unit :=
  symlink (SymlinkNode.target symlinknode) (path_join dest (SymlinkNode.name symlinknode)).

(** The three loops of [_checkout] on a decoded directory. *)
Definition checkout_directory (self : CASCache) (rec : string -> Digest.t -> M fs unit)
    (dest : string) (directory : Directory.t) : M fs unit :=
  for_each (Directory.files directory) tt (fun _ => checkout_file self dest) ;;;
  for_each (Directory.directories directory) tt (fun _ => checkout_dirnode self rec dest) ;;;
  for_each (Directory.symlinks directory) tt (fun _ => checkout_symlink dest).

(** [_checkout(dest, tree)]; the fuel bounds the depth of the tree. *)
Fixpoint _checkout (fuel : nat) (self : CASCache) (dest : string) (tree : Digest.t)
  : M fs unit :=
  match fuel with
  | O => raise RecursionError
  | S fuel' =>
      makedirs dest ;;;
      let* directory := read_directory self tree in
      checkout_directory self (_checkout fuel' self) dest directory
  end.

(** [_get_subdir(tree, subdir)]; the fuel bounds the number of path
    components. *)
Fixpoint _get_subdir_fuel (fuel : nat) (self : CASCache) (tree : Digest.t) (subdir : string)
  : M fs Digest.t :=
  match fuel with
  | O => raise RecursionError
  | S fuel' =>
      let head := dirname subdir in
      let name := basename subdir in
      let* tree :=
        if String.eqb head "" then ret tree
        else _get_subdir_fuel fuel' self tree head in
      let* directory := read_directory self tree in
      match List.find (fun dirnode => String.eqb (DirectoryNode.name dirnode) name)
              (Directory.directories directory) with
      | Some dirnode => ret (DirectoryNode.digest dirnode)
      | None => raise (CASCacheError "Subdirectory not found" false)
      end
  end.

Definition _get_subdir (self : CASCache) (tree : Digest.t) (subdir : string)
  : M fs Digest.t :=
  _get_subdir_fuel (S (String.length subdir)) self tree subdir.

(** Modelled from the spec: [utils.move_atomic], which is not in the
    sources.  "atomically rename into place"; a destination that is
    already there is reported as [DirectoryExistsError], the "losing
    rename race" that [extract] tolerates. *)
Definition move_atomic (source destination : string) : M fs unit :=
  makedirs (dirname destination) ;;;
  try_except (rename source destination)
    (fun e => match e with
              | FileExistsError | OSError "ENOTEMPTY" | OSError "EEXIST" =>
                  raise DirectoryExistsError
              | _ => raise e
              end).

(** Python's truth value of an optional string argument. *)
Definition truthy (s : option string) : bool :=
  match s with
  | Some s => negb (String.eqb s "")
  | None => false
  end.

(** The part of [extract] below the early returns: check out into a
    temporary directory and rename into place. *)
Definition extract_checkout (fuel : nat) (self : CASCache) (ref dest : string)
    (tree : Digest.t) : M fs unit :=
  let* tmpdir := mkdtemp (tmpdir self) in
  try_finally
    (let checkoutdir := path_join tmpdir ref in
     _checkout fuel self checkoutdir tree ;;;
     try_except (move_atomic checkoutdir dest)
       (fun e => match e with
                 | DirectoryExistsError => ret tt  (* Another process beat us to rename *)
                 | _ => if is_OSError e
                        then raise (CASCacheError "Failed to extract directory for ref" false)
                        else raise e
                 end))
    (rmtree tmpdir).

(** [extract(ref, path, subdir=None)]: the path of the extracted
    directory. *)
Definition extract (fuel : nat) (self : CASCache) (ref path : string)
    (subdir : option string) : M fs string :=
  let* tree := resolve_ref self ref in
  let originaldest := path_join path (Digest.hash tree) in
  let dest := originaldest in
  let* f := get in
  if isdir f dest then
    if truthy subdir then
      let subdir := match subdir with Some s => s | None => "" end in
      if negb (isdir f (path_join dest subdir)) then
        let dest := path_join dest subdir in
        let* tree := _get_subdir self tree subdir in
        extract_checkout fuel self ref dest tree ;;;
        ret originaldest
      else ret dest
    else ret dest
  else
    extract_checkout fuel self ref dest tree ;;;
    ret originaldest.

End Checkout.

(** ** Diff *)

(** The three lists that [diff] fills. *)
Record difflists := Diff {
  added : list string;
  removed : list string;
  modified : list string
}.

Definition add_added (p : string) (l : difflists) : difflists :=
  Diff (added l ++ [p]) (removed l) (modified l).
Definition add_removed (p : string) (l : difflists) : difflists :=
  Diff (added l) (removed l ++ [p]) (modified l).
Definition add_modified (p : string) (l : difflists) : difflists :=
  Diff (added l) (removed l) (modified l ++ [p]).

(** [s1 > s2] on [str]. *)
Definition str_gt (s1 s2 : string) : bool := String.ltb s2 s1.

(** The first [while] loop of [_diff_trees], on the files from index [a]
    of [dir_a] and from index [b] of [dir_b]. *)
Fixpoint diff_files (path : string) (fa : list FileNode.t)
  : list FileNode.t -> difflists -> difflists :=
  fix inner (fb : list FileNode.t) (l : difflists) {struct fb} : difflists :=
    match fa, fb with
    | [], [] => l
    | [], y :: fb' => inner fb' (add_added (path_join path (FileNode.name y)) l)
    | x :: fa', [] => diff_files path fa' [] (add_removed (path_join path (FileNode.name x)) l)
    | x :: fa', y :: fb' =>
        if str_gt (FileNode.name x) (FileNode.name y)
        then inner fb' (add_added (path_join path (FileNode.name y)) l)
        else if str_gt (FileNode.name y) (FileNode.name x)
        then diff_files path fa' fb (add_removed (path_join path (FileNode.name x)) l)
        else
          (* File exists in both directories *)
          diff_files path fa' fb'
            (if negb (String.eqb (Digest.hash (FileNode.digest x)) (Digest.hash (FileNode.digest y)))
             then add_modified (path_join path (FileNode.name x)) l else l)
    end.

Section DiffDirs.
(** The recursive call [_diff_trees(tree_a, tree_b, ..., path=)]. *)
Variable rec : option Digest.t -> option Digest.t -> string -> difflists -> M fs difflists.

(** The second [while] loop, on the subdirectories. *)
Fixpoint diff_dirs (path : string) (da : list DirectoryNode.t)
  : list DirectoryNode.t -> difflists -> M fs difflists :=
  fix inner (db : list DirectoryNode.t) (l : difflists) {struct db} : M fs difflists :=
    match da, db with
    | [], [] => ret l
    | [], y :: db' =>
        let* l' := rec None (Some (DirectoryNode.digest y))
                     (path_join path (DirectoryNode.name y)) l in
        inner db' l'
    | x :: da', [] =>
        let* l' := rec (Some (DirectoryNode.digest x)) None
                     (path_join path (DirectoryNode.name x)) l in
        diff_dirs path da' [] l'
    | x :: da', y :: db' =>
        if str_gt (DirectoryNode.name x) (DirectoryNode.name y)
        then let* l' := rec None (Some (DirectoryNode.digest y))
                          (path_join path (DirectoryNode.name y)) l in
             inner db' l'
        else if str_gt (DirectoryNode.name y) (DirectoryNode.name x)
    then let* l' := rec (Some (DirectoryNode.digest x)) None
                          (path_join path (DirectoryNode.name x)) l in
             diff_dirs path da' db l'
        else
          (* Subdirectory exists in both directories *)
          let* l' :=
        if negb (String.eqb (Digest.hash (DirectoryNode.digest x))
                            (Digest.hash (DirectoryNode.digest y)))
        then rec (Some (DirectoryNode.digest x)) (Some (DirectoryNode.digest y))
               (path_join path (DirectoryNode.name x)) l
            else ret l in
          diff_dirs path da' db' l'
    end.
End DiffDirs.

Section Diff.
Context `{Codec}.

(** [dir = Directory(); if tree: dir.ParseFromString(...)]. *)
Definition read_optional_directory (self : CASCache) (tree : option Digest.t)
  : M fs Directory.t :=
  match tree with
  | Some t => read_directory self t
  | None => ret Directory.empty
  end.

(** [_diff_trees(tree_a, tree_b, added=, removed=, modified=, path=)];
    the three lists are passed through. *)
Fixpoint _diff_trees (fuel : nat) (self : CASCache) (tree_a tree_b : option Digest.t)
    (path : string) (l : difflists) : M fs difflists :=
  match fuel with
  | O => raise RecursionError
  | S fuel' =>
      let* dir_a := read_optional_directory self tree_a in
      let* dir_b := read_optional_directory self tree_b in
      let l := diff_files path (Directory.files dir_a) (Directory.files dir_b) l in
      diff_dirs (_diff_trees fuel' self) path
        (Directory.directories dir_a) (Directory.directories dir_b) l
  end.

(** [diff(ref_a, ref_b, subdir=None)]: [(modified, removed, added)]. *)
Definition diff (fuel : nat) (self : CASCache) (ref_a ref_b : string) (subdir : option string)
  : M fs (list string * list string * list string) :=
  let* tree_a := resolve_ref self ref_a in
  let* tree_b := resolve_ref self ref_b in
  let* tree_a := if truthy subdir
                 then _get_subdir self tree_a (match subdir with Some s => s | None => "" end)
                 else ret tree_a in
  let* tree_b := if truthy subdir
                 then _get_subdir self tree_b (match subdir with Some s => s | None => "" end)
                 else ret tree_b in
  let* l := _diff_trees fuel self (Some tree_a) (Some tree_b) "" (Diff [] [] []) in
  ret (modified l, removed l, added l).

End Diff.

(** ** Reachability and pruning *)

(** [os.walk(top)], top-down: each directory with the names in it that
    are not directories.  A missing or unreadable [top] yields nothing.
    The fuel bounds the depth. *)
Fixpoint walk (fuel : nat) (f : fs) (top : string) : list (string * list string) :=
  match fuel with
  | O => []
  | S fuel' =>
      if isdir f top then
        let names := children f top in
        let dirs := filter (fun n => isdir f (path_join top n) = true) names in
        let files := filter (fun n => isdir f (path_join top n) = false) names in
        (top, files) :: flat_map (fun d => walk fuel' f (path_join top d)) dirs
      else []
  end.

(** [os.utime(p)]: modification times are not part of the model; the
    call still fails on a missing file. *)
Definition utime (p : string) : M fs unit := fun f =>
  if exists_ f p then (f, Ok tt) else (f, Raise FileNotFoundError).

Section Prune.
Context `{Codec}.

(** [_reachable_refs_dir(reachable, tree, update_mtime=False)]; the set
    [reachable] is passed through. *)
Fixpoint _reachable_refs_dir (fuel : nat) (self : CASCache) (reachable : gset string)
    (tree : Digest.t) (update_mtime : bool) : M fs (gset string) :=
  match fuel with
  | O => raise RecursionError
  | S fuel' =>
      if bool_decide (Digest.hash tree ∈ reachable) then ret reachable
      else
        (if update_mtime then utime (objpath self tree) else ret tt) ;;;
        let reachable := reachable ∪ {[ Digest.hash tree ]} in
        let* directory := read_directory self tree in
        let* reachable :=
          for_each (Directory.files directory) reachable
            (fun reachable filenode =>
               (if update_mtime then utime (objpath self (FileNode.digest filenode))
                else ret tt) ;;;
               ret (reachable ∪ {[ Digest.hash (FileNode.digest filenode) ]})) in
        for_each (Directory.directories directory) reachable
          (fun reachable dirnode =>
             _reachable_refs_dir fuel' self reachable (DirectoryNode.digest dirnode) update_mtime)
  end.

(** The files that a walk visits, as (root, filename) pairs in order. *)
Definition walk_files (fuel : nat) (f : fs) (top : string) : list (string * string) :=
  flat_map (fun rf => map (fun filename => (fst rf, filename)) (snd rf)) (walk fuel f top).

(** The first loop of [prune]: the objects reachable from the refs. *)
Definition prune_mark (fuel : nat) (self : CASCache) : M fs (gset string) :=
  let ref_heads := path_join_all (casdir self) ["refs"; "heads"] in
  let* f := get in
  for_each (walk_files fuel f ref_heads) (∅ : gset string)
    (fun reachable rf =>
       let ref_path := path_join (fst rf) (snd rf) in
       let ref := relpath ref_path ref_heads in
       let* tree := resolve_ref self ref in
       _reachable_refs_dir fuel self reachable tree false).

(** The second loop of [prune]: unlink what is not reachable, adding up
    the sizes. *)
Definition prune_sweep (fuel : nat) (self : CASCache) (reachable : gset string) : M fs Z :=
  let* f := get in
  for_each (walk_files fuel f (path_join_all (casdir self) ["objects"])) 0
    (fun pruned rf =>
       let objhash := basename (fst rf) ++ snd rf in
       if bool_decide (objhash ∈ reachable) then ret pruned
       else
         let obj_path := path_join (fst rf) (snd rf) in
         let* size := file_size obj_path in
         unlink obj_path ;;;
         ret (pruned + size)).

(** [prune()]: the number of bytes pruned. *)
Definition prune (fuel : nat) (self : CASCache) : M fs Z :=
  let* reachable := prune_mark fuel self in
  prune_sweep fuel self reachable.

(** [remove(ref, defer_prune=False)]. *)
Definition remove (fuel : nat) (self : CASCache) (ref : string) (defer_prune : bool)
  : M fs (option Z) :=
  let refpath := _refpath self ref in
  let* f := get in
  if negb (exists_ f refpath) then raise (CASCacheError "Could not find ref" false)
  else
    unlink refpath ;;;
    if negb defer_prune then
      let* pruned := prune fuel self in ret (Some pruned)
    else ret None.

(** [update_tree_mtime(tree)]. *)
Definition update_tree_mtime (fuel : nat) (self : CASCache) (tree : Digest.t) : M fs unit :=
  _reachable_refs_dir fuel self ∅ tree true ;;; ret tt.

(** [_required_blobs(directory_digest)]: the digests the generator
    yields, in order, and the exception that ends it early, if any. *)
Fixpoint _required_blobs (fuel : nat) (self : CASCache) (f : fs)
    (directory_digest : Digest.t) : list Digest.t * option exn :=
  match fuel with
  | O => ([], Some RecursionError)
  | S fuel' =>
      let d := Digest.Build (Digest.hash directory_digest)
                            (Digest.size_bytes directory_digest) in
      match read_directory self directory_digest f with
      | (_, Raise e) => ([d], Some e)
      | (_, Ok directory) =>
          let files :=
            map (fun filenode =>
                   Digest.Build (Digest.hash (FileNode.digest filenode))
                                (Digest.size_bytes (FileNode.digest filenode)))
                (Directory.files directory) in
          let sub :=
            fold_left
              (fun (acc : list Digest.t * option exn) dirnode =>
                 match acc with
                 | (ds, Some e) => (ds, Some e)
                 | (ds, None) =>
                     let '(ds', e) :=
                       _required_blobs fuel' self f (DirectoryNode.digest dirnode) in
                     ((ds ++ ds')%list, e)
                 end)
              (Directory.directories directory) (@nil Digest.t, @None exn) in
          (d :: (files ++ fst sub)%list, snd sub)
      end
  end.

End Prune.

(** ** Remote synchronisation *)

(** The status of one blob in a batch response ([code_pb2]); [None] is
    [OK]. *)
Definition blob_status := option StatusCode.

(** [CASRemote], whose class is not in the sources: the RPC surface that
    the cache consumes.  A server is any state [R] with one transformer
    per call; a call returns its response or raises [RpcError]. *)
Class Remote (R : Type) := {
  remote_init : M R unit;
  GetReference : string -> M R Digest.t;
  UpdateReference : list string -> Digest.t -> M R unit;
  FindMissingBlobs : list Digest.t -> M R (list Digest.t);
  BatchReadBlobs : list Digest.t -> M R (list (Digest.t * string * blob_status));
  BatchUpdateBlobs : list (Digest.t * string) -> M R (list (Digest.t * blob_status));
  bytestream_Read : Digest.t -> M R string;
  bytestream_Write : Digest.t -> string -> M R unit;
  max_batch_total_size_bytes : R -> Z;
  batch_read_supported : R -> bool;
  batch_update_supported : R -> bool
}.


(** Modelled from the spec: [casremote._CASBatchUpdate], "an accumulator
    of ... (digest, bytes) pairs (for write)". *)
Record _CASBatchUpdate := BatchUpdate {
  bu_max_total_size_bytes : Z;
  bu_requests : list (Digest.t * string);
  bu_size : Z
}.


Definition batch_update_add (batch : _CASBatchUpdate) (digest : Digest.t) (data : string)
  : _CASBatchUpdate * bool :=
  let new_batch_size := bu_size batch + Digest.size_bytes digest in
  if new_batch_size >? bu_max_total_size_bytes batch then (batch, false)
  else (BatchUpdate (bu_max_total_size_bytes batch) (bu_requests batch ++ [(digest, data)])
          new_batch_size, true).

(** [dict[key] = value] on an insertion-ordered [dict]. *)
Fixpoint dict_set {V} (key : string) (value : V) (d : list (string * V)) : list (string * V) :=
  match d with
  | [] => [(key, value)]
  | (k, v) :: d' => if String.eqb k key then (k, value) :: d' else (k, v) :: dict_set key value d'
  end.

(** The groups that [_grouper(iterable, n)] yields when each is consumed
    before the next is asked for. *)
Fixpoint grouper_fuel {A} (fuel n : nat) (l : list A) : list (list A) :=
  match fuel, l with
  | _, [] => []
  | O, _ => []
  | S fuel', _ => firstn n l :: grouper_fuel fuel' n (skipn n l)
  end.

Definition _grouper {A} (l : list A) (n : nat) : list (list A) :=
  grouper_fuel (length l) n l.


Section RemoteSync.
Context `{Hash} `{Codec} {R : Type} `{Remote R}.

Definition on_fs {A} (c : M fs A) : M (fs * R) A := lift_fst c.
Definition rpc {A} (c : M R A) : M (fs * R) A := lift_snd c.


Definition new_batch_update : M (fs * R) _CASBatchUpdate :=
  let* s := get in ret (BatchUpdate (max_batch_total_size_bytes (snd s)) [] 0).

(** Modelled from the spec: [CASRemote._fetch_blob(digest, stream)],
    the "single-blob streamed read" into an open file. *)
Definition _fetch_blob (digest : Digest.t) (stream : string) : M (fs * R) unit :=
  let* data := rpc (bytestream_Read digest) in
  on_fs (write_file stream data) ;;;
  let* size := on_fs (file_size stream) in
  if Digest.size_bytes digest =? size then ret tt else raise AssertionError.

(** Modelled from the spec: [CASRemote._send_blob(digest, stream)], the
    "single-blob streamed ... write". *)
Definition _send_blob (digest : Digest.t) (data : string) : M (fs * R) unit :=
  rpc (bytestream_Write digest data).

(** [with tempfile.NamedTemporaryFile(dir=self.tmpdir) as f: body f]. *)
Definition with_temporary_file {A} (self : CASCache) (body : string -> M (fs * R) A)
  : M (fs * R) A :=
  let* f := on_fs (NamedTemporaryFile (tmpdir self)) in
  try_finally (body f) (on_fs (unlink f)).

(** [_ensure_blob(remote, digest)]. *)
Definition _ensure_blob (self : CASCache) (digest : Digest.t) : M (fs * R) string :=
  let objpath := objpath self digest in
  let* s := get in
  if exists_ (fst s) objpath then ret objpath
  else
    with_temporary_file self (fun f =>
      _fetch_blob digest f ;;;
      let* added_digest := on_fs (add_object self None (Path f) true) in
      if String.eqb (Digest.hash added_digest) (Digest.hash digest)
      then ret tt else raise AssertionError) ;;;
    ret objpath.













(** [batch.send()] of a [_CASBatchUpdate]. *)
Definition batch_update_send (batch : _CASBatchUpdate) : M (fs * R) unit :=
  match bu_requests batch with
  | [] => ret tt
  | requests =>
      let* responses := rpc (BatchUpdateBlobs requests) in
      for_each responses tt (fun _ response =>
        match snd response with
        | None => ret tt
        | Some _ => raise (CASRemoteError "Failed to upload blob")
        end)
  end.

(** [_send_blobs(remote, digests)]. *)
Definition _send_blobs (self : CASCache) (digests : list Digest.t) : M (fs * R) unit :=
  let* batch := new_batch_update in
  let* batch :=
    for_each digests batch (fun batch digest =>
      let* data := on_fs (read_file (objpath self digest)) in
      if negb (Z.of_nat (String.length data) =? Digest.size_bytes digest)
      then raise AssertionError
      else
        let* s := get in
        if ((Digest.size_bytes digest >=? max_batch_total_size_bytes (snd s))
            || negb (batch_update_supported (snd s)))%bool then
          (* Too large for batch request, upload in independent request. *)
          _send_blob digest data ;;; ret batch
        else
          match batch_update_add batch digest data with
          | (b, true) => ret b
          | (_, false) =>
              (* Not enough space left in batch request.
                 Complete pending batch first. *)
              batch_update_send batch ;;;
              let* batch := new_batch_update in
              ret (fst (batch_update_add batch digest data))
          end) in
  (* Send final batch *)
  batch_update_send batch.

(** [_send_directory(remote, digest)].  The generator of required blobs
    is consumed group by group: a group that it cannot complete is never
    sent, and its exception surfaces there. *)
Definition _send_directory (fuel : nat) (self : CASCache) (digest : Digest.t)
  : M (fs * R) unit :=
  let* s := get in
  let '(required_blobs, failure) := _required_blobs fuel self (fst s) digest in
  let* missing_blobs :=
    for_each (_grouper required_blobs 512) [] (fun missing_blobs required_blobs_group =>
      match failure with
      | Some e => if (length required_blobs_group <? 512)%nat then raise e else ret tt
      | None => ret tt
      end ;;;
      let* response := rpc (FindMissingBlobs required_blobs_group) in
      ret (fold_left (fun d missing_digest =>
                        dict_set (Digest.hash missing_digest)
                          (Digest.Build (Digest.hash missing_digest)
                                        (Digest.size_bytes missing_digest)) d)
                     response missing_blobs)) in
  match failure with Some e => raise e | None => ret tt end ;;;
  (* Upload any blobs missing on the server *)
  _send_blobs self (map snd missing_blobs).

(** The body of the loop of [push]; the state holds the local variable
    [skipped_remote]. *)
Definition push_ref (fuel : nat) (self : CASCache) (ref : string) : M (fs * R * bool) unit :=
  let* tree := lift_fst (on_fs (resolve_ref self ref)) in
  (* Check whether ref is already on the server in which case
     there is no need to push the ref *)
  let* up_to_date :=
    try_except
      (let* response := lift_fst (rpc (GetReference ref)) in
       ret (String.eqb (Digest.hash response) (Digest.hash tree)
            && (Digest.size_bytes response =? Digest.size_bytes tree))%bool)
      (fun e => match e with
                | RpcError code =>
                    if negb (StatusCode_eqb code NOT_FOUND)
                    then raise e  (* Intentionally re-raise RpcError for outer except block. *)
                    else ret false
                | _ => raise e
                end) in
  if (up_to_date : bool) then ret tt  (* continue *)
  else
    lift_fst (_send_directory fuel self tree) ;;;
    lift_fst (rpc (UpdateReference [ref] tree)) ;;;
    set_obj false.

(** The outer [except] clause of [push]. *)
Definition push_except {S} (e : exn) : M S unit :=
  match e with
  | RpcError code =>
      if negb (StatusCode_eqb code RESOURCE_EXHAUSTED)
      then raise (CASCacheError "Failed to push ref" true)
      else ret tt
  | _ => raise e
  end.

(** [push(refs, remote)]. *)
Definition push (fuel : nat) (self : CASCache) (refs : list string) : M (fs * R) bool :=
  fun s =>
    match with_obj true
            (try_except (for_each refs tt (fun _ ref => push_ref fuel self ref)) push_except) s with
    | (s', (skipped_remote, Ok _)) => (s', Ok (negb skipped_remote))
    | (s', (_, Raise e)) => (s', Raise e)
    end.

End RemoteSync.

(** ** A reference instance of the two libraries

    Concrete scenarios are run with these: a collision-free stand-in for
    SHA-256 and a length-delimited wire format. *)

Definition hex_digit (n : N) : ascii :=
  match n with
  | 0 => "0" | 1 => "1" | 2 => "2" | 3 => "3" | 4 => "4" | 5 => "5" | 6 => "6"
  | 7 => "7" | 8 => "8" | 9 => "9" | 10 => "a" | 11 => "b" | 12 => "c"
  | 13 => "d" | 14 => "e" | _ => "f"
  end%N%char.

(** The hex dump of the bytes and a closing [00]: an injective stand-in
    for SHA-256 whose digests, like the real ones, are longer than the two
    characters that name the shard directory. *)
Fixpoint hex_of_bytes (s : string) : string :=
  match s with
  | EmptyString => "00"
  | String c s' =>
      let n := N_of_ascii c in
      String (hex_digit (n / 16)) (String (hex_digit (n mod 16)) (hex_of_bytes s'))
  end.

#[local] Instance ref_hash : Hash := hex_of_bytes.

(** A length-delimited wire format: a number is its decimal digits and a
    semicolon; a string is its length and its bytes; a list is its length
    and its items. *)
Definition put_num (n : N) : string := pretty n ++ ";".
Definition put_str (s : string) : string := put_num (N.of_nat (String.length s)) ++ s.
Definition put_bool (b : bool) : string := if b then "1" else "0".
Definition put_list {A} (put : A -> string) (l : list A) : string :=
  put_num (N.of_nat (length l)) ++ String.concat "" (map put l).
Definition put_digest (d : Digest.t) : string :=
  put_str (Digest.hash d) ++ put_num (Z.to_N (Digest.size_bytes d)).
Definition put_file (n : FileNode.t) : string :=
  put_str (FileNode.name n) ++ put_digest (FileNode.digest n) ++ put_bool (FileNode.is_executable n).
Definition put_dirnode (n : DirectoryNode.t) : string :=
  put_str (DirectoryNode.name n) ++ put_digest (DirectoryNode.digest n).
Definition put_symlink (n : SymlinkNode.t) : string :=
  put_str (SymlinkNode.name n) ++ put_str (SymlinkNode.target n).
Definition put_directory (d : Directory.t) : string :=
  put_list put_file (Directory.files d) ++ put_list put_dirnode (Directory.directories d)
  ++ put_list put_symlink (Directory.symlinks d).

Definition parser (A : Type) : Type := string -> option (A * string).

Definition digit_val (c : ascii) : option N :=
  let n := N_of_ascii c in
  if ((48 <=? n) && (n <=? 57))%N then Some (n - 48)%N else None.

Fixpoint get_num_go (acc : N) (seen : bool) (s : string) : option (N * string) :=
  match s with
  | EmptyString => None
  | String c s' =>
      if Ascii.eqb c ";" then (if seen then Some (acc, s') else None)
      else match digit_val c with
           | Some d => get_num_go (acc * 10 + d)%N true s'
           | None => None
           end
  end.
Definition get_num : parser N := get_num_go 0%N false.

Definition get_str : parser string := fun s =>
  match get_num s with
  | Some (n, s') =>
      let k := N.to_nat n in
      if (k <=? String.length s')%nat
      then Some (str_take k s', str_drop k s') else None
  | None => None
  end.

Definition get_bool : parser bool := fun s =>
  match s with
  | String "0" s' => Some (false, s')
  | String "1" s' => Some (true, s')
  | _ => None
  end.

Fixpoint get_items {A} (get : parser A) (n : nat) : parser (list A) := fun s =>
  match n with
  | O => Some ([], s)
  | S n' => match get s with
            | Some (x, s') => match get_items get n' s' with
                              | Some (xs, s'') => Some (x :: xs, s'')
                              | None => None
                              end
            | None => None
            end
  end.

Definition get_list {A} (get : parser A) : parser (list A) := fun s =>
  match get_num s with
  | Some (n, s') => get_items get (N.to_nat n) s'
  | None => None
  end.

Definition get_digest : parser Digest.t := fun s =>
  match get_str s with
  | Some (h, s1) => match get_num s1 with
                    | Some (n, s2) => Some (Digest.Build h (Z.of_N n), s2)
                    | None => None
                    end
  | None => None
  end.

Definition get_file : parser FileNode.t := fun s =>
  match get_str s with
  | Some (n, s1) =>
      match get_digest s1 with
      | Some (d, s2) => match get_bool s2 with
                        | Some (b, s3) => Some (FileNode.Build n d b, s3)
                        | None => None
                        end
      | None => None
      end
  | None => None
  end.

Definition get_dirnode : parser DirectoryNode.t := fun s =>
  match get_str s with
  | Some (n, s1) => match get_digest s1 with
                    | Some (d, s2) => Some (DirectoryNode.Build n d, s2)
                    | None => None
                    end
  | None => None
  end.

Definition get_symlink : parser SymlinkNode.t := fun s =>
  match get_str s with
  | Some (n, s1) => match get_str s1 with
                    | Some (t, s2) => Some (SymlinkNode.Build n t, s2)
                    | None => None
                    end
  | None => None
  end.

Definition get_directory : parser Directory.t := fun s =>
  match get_list get_file s with
  | Some (fs, s1) =>
      match get_list get_dirnode s1 with
      | Some (ds, s2) => match get_list get_symlink s2 with
                         | Some (ls, s3) => Some (Directory.Build fs ds ls, s3)
                         | None => None
                         end
      | None => None
      end
  | None => None
  end.

(** A message is the whole input. *)
Definition whole {A} (p : parser A) (s : string) : option A :=
  match p s with
  | Some (a, EmptyString) => Some a
  | _ => None
  end.

#[local] Instance ref_codec : Codec := {|
  serialize_directory := put_directory;
  parse_directory := whole get_directory;
  serialize_digest := put_digest;
  parse_digest := whole get_digest
|}.


(** A reference server: refs and blobs in memory.  It is reachable while
    [srv_up]; it accepts [srv_budget] more writes and answers
    [RESOURCE_EXHAUSTED] after that. *)
Record server := Server {
  srv_refs : gmap string Digest.t;
  srv_blobs : gmap string string;
  srv_budget : nat;
  srv_up : bool;
  srv_max_batch : Z
}.

Definition srv_read {A} (c : server -> result A) : M server A := fun r =>
  if srv_up r then (r, c r) else (r, Raise (RpcError UNAVAILABLE)).

Definition srv_write (c : server -> server) : M server unit := fun r =>
  if srv_up r then
    match srv_budget r with
    | O => (r, Raise (RpcError RESOURCE_EXHAUSTED))
    | S n => let r' := c r in
             (Server (srv_refs r') (srv_blobs r') n (srv_up r') (srv_max_batch r'), Ok tt)
    end
  else (r, Raise (RpcError UNAVAILABLE)).

Definition srv_store (digest : Digest.t) (data : string) (r : server) : server :=
  Server (srv_refs r) (<[Digest.hash digest := data]> (srv_blobs r))
         (srv_budget r) (srv_up r) (srv_max_batch r).

#[local] Instance ref_remote : Remote server := {|
  remote_init := srv_read (fun _ => Ok tt);
  GetReference key := srv_read (fun r =>
    match srv_refs r !! key with
    | Some d => Ok d
    | None => Raise (RpcError NOT_FOUND)
    end);
  UpdateReference keys digest := srv_write (fun r =>
    Server (foldr (fun k m => <[k := digest]> m) (srv_refs r) keys) (srv_blobs r)
           (srv_budget r) (srv_up r) (srv_max_batch r));
  FindMissingBlobs digests := srv_read (fun r =>
    Ok (filter (fun d => srv_blobs r !! Digest.hash d = None) digests));
  BatchReadBlobs digests := srv_read (fun r =>
    Ok (map (fun d => match srv_blobs r !! Digest.hash d with
                      | Some data => (d, data, None)
                      | None => (d, "", Some NOT_FOUND)
                      end) digests));
  BatchUpdateBlobs requests := fun r =>
    match srv_write (fun r => foldr (fun q r => srv_store (fst q) (snd q) r) r requests) r with
    | (r', Ok _) => (r', Ok (map (fun q => (fst q, None)) requests))
    | (r', Raise e) => (r', Raise e)
    end;
  bytestream_Read digest := srv_read (fun r =>
    match srv_blobs r !! Digest.hash digest with
    | Some data => Ok data
    | None => Raise (RpcError NOT_FOUND)
    end);
  bytestream_Write digest data := srv_write (srv_store digest data);
  max_batch_total_size_bytes := srv_max_batch;
  batch_read_supported := fun _ => true;
  batch_update_supported := fun _ => true
|}.

Definition empty_server : server := Server ∅ ∅ 100 true 4096.

(** * More of the cache

    The queries, the listings by age and the remaining remote calls of
    [CASCache]. *)

Section Queries.
Context `{Hash} `{Codec}.

(** [preflight()]. *)
Definition preflight (self : CASCache) : M fs unit :=
  let headdir := path_join_all (casdir self) ["refs"; "heads"] in
  let objdir := path_join_all (casdir self) ["objects"] in
  let* f := get in
  if negb (isdir f headdir && isdir f objdir)
  then raise (CASCacheError "CAS repository check failed" false)
  else ret tt.

(** [contains_subdir_artifact(ref, subdir)]. *)
Definition contains_subdir_artifact (self : CASCache) (ref subdir : string) : M fs bool :=
  let* tree := resolve_ref self ref in
  (* This assumes that the subdir digest is present in the element tree *)
  let* subdirdigest := _get_subdir self tree subdir in
  let objpath := objpath self subdirdigest in
  (* True if subdir content is cached or if empty as expected *)
  let* f := get in
  ret (exists_ f objpath).

(** [link_ref(oldref, newref)]. *)
Definition link_ref (self : CASCache) (oldref newref : string) : M fs unit :=
  let* tree := resolve_ref self oldref in
  set_ref self newref tree.

(** [update_mtime(ref)]. *)
Definition update_mtime (self : CASCache) (ref : string) : M fs unit :=
  try_except (utime (_refpath self ref))
    (fun e => match e with
              | FileNotFoundError =>
                  raise (CASCacheError "Attempt to access unavailable ref" false)
              | _ => raise e
              end).

End Queries.

(** ** Listings by modification time

    Modification times are not part of [fs].  The listings read them
    through [os.path.getmtime]; here they come from a table, the time
    stamp of each path at the moment of the call.  The cache only
    compares time stamps, so a stamp is an integer: the float that
    [getmtime] returns, in units of its least step.  As for [utime], a
    name that is in the file system has a time stamp, and a name that is
    not raises [FileNotFoundError]. *)

Definition getmtime (mtime : string -> Z) (p : string) : M fs Z := fun f =>
  if exists_ f p then (f, Ok (mtime p)) else (f, Raise FileNotFoundError).

(** The order of Python on pairs [(mtime, name)]: by time stamp, then by
    name. *)
Definition stamped_le (a b : Z * string) : Prop :=
  fst a < fst b \/ (fst a = fst b /\ String.le (snd a) (snd b)).

#[global] Instance stamped_le_dec : RelDecision stamped_le.
Proof. intros a b. unfold stamped_le. apply _. Defined.

(** [sorted(zip(mtimes, names))]. *)
Definition sorted_stamped (mtimes : list Z) (names : list string) : list (Z * string) :=
  merge_sort stamped_le (zip mtimes names).

Section Listings.
Context `{Codec}.

(** [list_refs()]: the refs, least recently modified first; the fuel
    bounds the depth of the walk. *)
Definition list_refs (fuel : nat) (mtime : string -> Z) (self : CASCache)
  : M fs (list string) :=
  (* string of: /path/to/repo/refs/heads *)
  let ref_heads := path_join_all (casdir self) ["refs"; "heads"] in
  let* f := get in
  let* (refs, mtimes) :=
    for_each (walk_files fuel f ref_heads) ([], [])
      (fun (acc : list string * list Z) rf =>
         let ref_path := path_join (fst rf) (snd rf) in
         let refs := (fst acc ++ [relpath ref_path ref_heads])%list in
         (* Obtain the mtime (the time a file was last modified) *)
         let* m := getmtime mtime ref_path in
         ret (refs, (snd acc ++ [m])%list)) in
  (* NOTE: Sorted will sort from earliest to latest, thus the
     first ref of this list will be the file modified earliest. *)
  ret (map snd (sorted_stamped mtimes refs)).

(** [list_objects()]: the object files with their time stamps, least
    recently modified first. *)
Definition list_objects (fuel : nat) (mtime : string -> Z) (self : CASCache)
  : M fs (list (Z * string)) :=
  let* f := get in
  let* (objs, mtimes) :=
    for_each (walk_files fuel f (path_join_all (casdir self) ["objects"])) ([], [])
      (fun (acc : list string * list Z) rf =>
         let obj_path := path_join (fst rf) (snd rf) in
         try_except
           (let* m := getmtime mtime obj_path in
            ret (fst acc ++ [obj_path], snd acc ++ [m])%list)
           (fun e => match e with
                     | FileNotFoundError => ret acc
                     | _ => raise e
                     end)) in
  ret (sorted_stamped mtimes objs).

(** [clean_up_refs_until(time)]. *)
Definition clean_up_refs_until (fuel : nat) (mtime : string -> Z) (self : CASCache)
    (time : Z) : M fs unit :=
  let ref_heads := path_join_all (casdir self) ["refs"; "heads"] in
  let* f := get in
  for_each (walk_files fuel f ref_heads) tt
    (fun _ rf =>
       let ref_path := path_join (fst rf) (snd rf) in
       (* Obtain the mtime (the time a file was last modified) *)
       let* m := getmtime mtime ref_path in
       if m <? time then unlink ref_path else ret tt).

End Listings.

(** ** Trees from a remote *)

(** [remote_execution_pb2.Tree]: a root Directory and the Directories
    below it. *)
Module Tree.
Record t := Build {
  root : Directory.t;
  children : list Directory.t
}.
End Tree.

(** [Tree.ParseFromString], of the protobuf library. *)
Class TreeCodec := parse_tree : string -> option Tree.t.

Section RemoteTrees.
Context `{Hash} `{Codec} `{TreeCodec} {R : Type} `{Remote R}.

(** The body of the loop of [_fetch_tree] over
    [tree.children + [tree.root]]: fetch the files of the Directory, then
    place the Directory itself. *)
Definition fetch_tree_directory (self : CASCache) (directory : Directory.t)
  : M (fs * R) Digest.t :=
  for_each (Directory.files directory) tt
    (fun _ filenode => _ensure_blob self (FileNode.digest filenode) ;;; ret tt) ;;;
  (* place directory blob only in final location when we've downloaded
     all referenced blobs to avoid dangling references in the repository *)
  let dirbuffer := serialize_directory directory in
  let* dirdigest := on_fs (add_object self None (Buffer dirbuffer) false) in
  if Digest.size_bytes dirdigest =? Z.of_nat (String.length dirbuffer)
  then ret dirdigest else raise AssertionError.

(** [_fetch_tree(remote, digest)].  The loop runs over the children and
    then the root, and the digest of the last Directory placed, the
    root's, is returned. *)
Definition _fetch_tree (self : CASCache) (digest : Digest.t) : M (fs * R) Digest.t :=
  (* download but do not store the Tree object *)
  with_temporary_file self (fun out =>
    _fetch_blob digest out ;;;
    let* data := on_fs (read_file out) in
    let* tree := match parse_tree data with
                 | Some tree => ret tree
                 | None => raise DecodeError
                 end in
    for_each (Tree.children tree) tt
      (fun _ directory => fetch_tree_directory self directory ;;; ret tt) ;;;
    fetch_tree_directory self (Tree.root tree)).

(** [pull_tree(remote, digest)]: the digest of the root Directory, or
    [None]. *)
Definition pull_tree (self : CASCache) (digest : Digest.t) : M (fs * R) (option Digest.t) :=
  try_except
    (rpc remote_init ;;;
     let* digest := _fetch_tree self digest in
     ret (Some digest))
    (fun e => match e with
              | RpcError code =>
                  if negb (StatusCode_eqb code NOT_FOUND) then raise e else ret None
              | _ => raise e
              end).

(** [push_directory(remote, directory)]; [ref] is [directory.ref], the
    digest of the virtual directory. *)
Definition push_directory (fuel : nat) (self : CASCache) (ref : Digest.t) : M (fs * R) unit :=
  rpc remote_init ;;;
  _send_directory fuel self ref.

End RemoteTrees.

(** A reference instance of the Tree decoder, in the wire format of the
    reference codec: the root Directory, then the list of children. *)
Definition put_tree (t : Tree.t) : string :=
  put_directory (Tree.root t) ++ put_list put_directory (Tree.children t).

Definition get_tree : parser Tree.t := fun s =>
  match get_directory s with
  | Some (root, s1) =>
      match get_list get_directory s1 with
      | Some (children, s2) => Some (Tree.Build root children, s2)
      | None => None
      end
  | None => None
  end.

#[local] Instance ref_tree_codec : TreeCodec := whole get_tree.

(** ** Scenarios

    Concrete file systems and servers for the reference instances. *)

Definition mkfile (p data : string) (mode : Z) : M fs unit :=
  create_file p mode ;;; write_file p data.

(** The handle that [CASCache("cache")] returns. *)
Definition cache : CASCache := {| casdir := "cache/cas"; tmpdir := "cache/tmp" |}.

(** Run a script in the empty file system and keep the final state. *)
Definition run_script (script : M fs unit) : fs := fst (script empty_fs).

(** S3 of the specification: two trees, committed as refs [A] and [B]. *)
Definition s3_fs : fs := run_script (
  CASCache_init "cache" ;;;
  makedirs "A" ;;; makedirs "B" ;;;
  mkfile "A/a.txt" "1" 420 ;;; mkfile "A/b.txt" "2" 420 ;;;
  mkfile "B/a.txt" "1" 420 ;;; mkfile "B/b.txt" "modified" 420 ;;;
  mkfile "B/c.txt" "3" 420 ;;;
  commit 5 cache ["A"] "A" ;;; commit 5 cache ["B"] "B").

(** S1 of the specification, committed as ref [r1] and extracted below
    [out]. *)
Definition s1_tree : M fs unit :=
  makedirs "src/bin" ;;;
  mkfile "src/a.txt" "hello" 420 ;;;
  mkfile "src/bin/run" "#!/bin/sh" 493 ;;;
  symlink "a.txt" "src/link".

Definition s1_fs : fs := run_script (
  CASCache_init "cache" ;;; s1_tree ;;; commit 5 cache ["r1"] "src" ;;; makedirs "out").

(** The root digest that the commit of S1 stores under [r1]. *)
Definition s1_root : Digest.t :=
  Eval vm_compute in
    match snd (resolve_ref cache "r1" s1_fs) with
    | Ok digest => digest
    | Raise _ => Digest.empty
    end.

Definition s1_extracted_fs : fs :=
  fst ((extract 5 cache "r1" "out" None ;;; ret tt) s1_fs).

(** The extracted tree of S1 with its [bin] directory removed again, as
    after a checkout that omitted it. *)
Definition s1_partial_fs : fs :=
  fst ((let* dest := extract 5 cache "r1" "out" None in
        rmtree (path_join dest "bin")) s1_fs).

(** Two small trees committed as refs [r1] and [r2]. *)
Definition two_refs_fs : fs := run_script (
  CASCache_init "cache" ;;; s1_tree ;;;
  makedirs "src2" ;;; mkfile "src2/b.txt" "world" 420 ;;;
  commit 5 cache ["r1"] "src" ;;; commit 5 cache ["r2"] "src2").

(** A server that accepts [n] more writes. *)
Definition server_with_budget (n : nat) : server := Server ∅ ∅ n true 4096.


Definition cache2 : CASCache := {| casdir := "c2/cas"; tmpdir := "c2/tmp" |}.

Definition cache2_fs : fs := run_script (CASCache_init "c2" ;;; ret tt).


(** The decoded root Directory of S1. *)
Definition s1_root_directory : Directory.t :=
  Eval vm_compute in
    match snd (read_directory cache s1_root s1_fs) with
    | Ok directory => directory
    | Raise _ => Directory.empty
    end.


(** S1 with a socket next to its files and a FIFO in its [bin]
    directory. *)
Definition s7_fs : fs :=
  Fs (<["src/sock" := FSocket]> (<["src/bin/zpipe" := FFifo]> (nodes s1_fs))) (inodes s1_fs).

(** S1 with its ref removed again, before any pruning. *)
Definition unreferenced_fs : fs :=
  fst ((remove 5 cache "r1" true ;;; ret tt) s1_fs).

(** ** Notions used to state the properties *)

(** The lists of a diff taken in the other direction. *)
Definition swap (l : difflists) : difflists := Diff (removed l) (added l) (modified l).

Section PushNotions.
Context `{Hash} `{Codec} {R : Type} `{Remote R}.

(** Whether the server already holds [ref] with the local digest: the
    test that makes [push] skip a ref. *)
Definition already_on_server (self : CASCache) (ref : string) (s : fs * R) : bool :=
  match resolve_ref self ref (fst s) with
  | (_, Ok tree) =>
      match GetReference ref (snd s) with
      | (_, Ok response) =>
          (String.eqb (Digest.hash response) (Digest.hash tree)
           && (Digest.size_bytes response =? Digest.size_bytes tree))%bool
      | (_, Raise _) => false
      end
  | (_, Raise _) => false
  end.

(** The loop of [push] over its refs. *)
Definition push_loop (fuel : nat) (self : CASCache) (refs : list string)
  : M (fs * R * bool) unit :=
  for_each refs tt (fun _ ref => push_ref fuel self ref).

End PushNotions.

(** The bytes that [add_object] is given: the buffer, or the content of
    the file at the path. *)
Definition source_bytes (src : source) (f : fs) : option string :=
  match src with
  | Buffer buffer => Some buffer
  | Path path =>
      match read_file path f with
      | (_, Ok data) => Some data
      | (_, Raise _) => None
      end
  end.

(** The digest of a blob: the hash of its bytes and their number. *)
Definition digest_of `{Hash} (data : string) : Digest.t :=
  Digest.Build (sha256_hexdigest data) (Z.of_nat (String.length data)).

(** The file system with a new file of one name. *)
Definition with_file (f : fs) (p : string) (data : string) (mode : Z) (nlink : nat) : fs :=
  Fs (<[p := FFile (fresh_ino f)]> (nodes f))
     (<[fresh_ino f := Inode data mode nlink]> (inodes f)).

(** A computation keeps the entry at [p] of the file system that [view]
    finds in its state. *)
Definition keeps_node {S A} (view : S -> fs) (p : string) (c : M S A) : Prop :=
  forall s s' r x, c s = (s', r) ->
    nodes (view s) !! p = Some x -> nodes (view s') !! p = Some x.

(** Whether [add_object] hashes into a temporary file of its own: always,
    except for a path that it is told to link directly. *)
Definition uses_tmp (src : source) (link_directly : bool) : bool :=
  match src, link_directly with
  | Path _, true => false
  | _, _ => true
  end.

(** ** The diff of two trees, in the words of the specification

    A tree is a Directory with its subdirectories loaded: the file nodes,
    and each directory node with the tree below it. *)
#[warnings="-register-all"]
Inductive tree := Tree (files : list FileNode.t) (dirs : list (DirectoryNode.t * tree)).

Definition tree_files (t : tree) : list FileNode.t :=
  match t with Tree files _ => files end.
Definition tree_dirs (t : tree) : list (DirectoryNode.t * tree) :=
  match t with Tree _ dirs => dirs end.

(** The tree of no digest. *)
Definition empty_tree : tree := Tree [] [].

(** The names of a list come in strictly ascending order. *)
Fixpoint ascending (names : list string) : bool :=
  match names with
  | a :: (b :: _) as rest => str_gt b a && ascending rest
  | _ => true
  end.

(** A tree as a commit stores it: at every level the files and the
    subdirectories are sorted by name, without a name twice. *)
Fixpoint sorted_tree (t : tree) : bool :=
  match t with
  | Tree files dirs =>
      ascending (map FileNode.name files)
      && ascending (map (fun d => DirectoryNode.name (fst d)) dirs)
      && forallb (fun d => match d with (_, sub) => sorted_tree sub end) dirs
  end.

Definition file_named (name : string) (files : list FileNode.t) : option FileNode.t :=
  List.find (fun x => String.eqb (FileNode.name x) name) files.

Definition dir_named (name : string) (dirs : list (DirectoryNode.t * tree))
  : option (DirectoryNode.t * tree) :=
  List.find (fun d => String.eqb (DirectoryNode.name (fst d)) name) dirs.

(** The files of [files] whose name is not in [others]. *)
Definition files_only_in (path : string) (files others : list FileNode.t) : list string :=
  flat_map (fun x => match file_named (FileNode.name x) others with
                     | None => [path_join path (FileNode.name x)]
                     | Some _ => []
                     end) files.

(** The files of both lists, by name, whose hashes differ. *)
Definition files_changed (path : string) (files others : list FileNode.t) : list string :=
  flat_map (fun x => match file_named (FileNode.name x) others with
                     | Some y =>
                         if String.eqb (Digest.hash (FileNode.digest x))
                                       (Digest.hash (FileNode.digest y))
                         then [] else [path_join path (FileNode.name x)]
                     | None => []
                     end) files.

(** All files of a tree, the files of a level before those below it. *)
Fixpoint all_files (path : string) (t : tree) : list string :=
  match t with
  | Tree files dirs =>
      (map (fun x => path_join path (FileNode.name x)) files
       ++ flat_map (fun d => match d with
                             | (x, sub) => all_files (path_join path (DirectoryNode.name x)) sub
                             end) dirs)%list
  end.

(** The files that only [t] has: those of a name that [other] has not at
    that level, all files of a subtree that [other] has not, and below a
    subdirectory of both what only [t] has there, unless the two digests
    have one hash. *)
Fixpoint only_in (path : string) (t other : tree) {struct t} : list string :=
  match t with
  | Tree files dirs =>
      (files_only_in path files (tree_files other)
       ++ flat_map (fun d => match d with
                             | (x, sub) =>
                                 let p := path_join path (DirectoryNode.name x) in
                                 match dir_named (DirectoryNode.name x) (tree_dirs other) with
                                 | None => all_files p sub
                                 | Some (y, sub') =>
                                     if String.eqb (Digest.hash (DirectoryNode.digest x))
                                                   (Digest.hash (DirectoryNode.digest y))
                                     then [] else only_in p sub sub'
                                 end
                             end) dirs)%list
  end.

(** The files of one name in both trees whose hashes differ, below the
    subdirectories of both whose digests differ in their hash. *)
Fixpoint changed (path : string) (t other : tree) {struct t} : list string :=
  match t with
  | Tree files dirs =>
      (files_changed path files (tree_files other)
       ++ flat_map (fun d => match d with
                             | (x, sub) =>
                                 match dir_named (DirectoryNode.name x) (tree_dirs other) with
                                 | None => []
                                 | Some (y, sub') =>
                                     if String.eqb (Digest.hash (DirectoryNode.digest x))
                                                   (Digest.hash (DirectoryNode.digest y))
                                     then []
                                     else changed (path_join path (DirectoryNode.name x)) sub sub'
                                 end
                             end) dirs)%list
  end.

(** What the specification has [diff(A, B)] return, as
    [(modified, removed, added)]. *)
Definition diff_spec (ta tb : tree) : list string * list string * list string :=
  (changed "" ta tb, only_in "" ta tb, only_in "" tb ta).

Section LoadTree.
Context `{Codec}.

(** The tree below a digest, read from the Directory blobs of the
    cache; the fuel bounds its depth. *)
Fixpoint load_tree (fuel : nat) (self : CASCache) (f : fs) (digest : Digest.t) : option tree :=
  match fuel with
  | O => None
  | S fuel' =>
      match read_directory self digest f with
      | (_, Ok directory) =>
          match mapM (fun d => match load_tree fuel' self f (DirectoryNode.digest d) with
                               | Some sub => Some (d, sub)
                               | None => None
                               end) (Directory.directories directory) with
          | Some dirs => Some (Tree (Directory.files directory) dirs)
          | None => None
          end
      | (_, Raise _) => None
      end
  end.

(** The tree of an optional digest: none is the empty tree. *)
Definition load_optional_tree (fuel : nat) (self : CASCache) (f : fs)
    (digest : option Digest.t) : option tree :=
  match digest with
  | Some d => load_tree fuel self f d
  | None => Some empty_tree
  end.
End LoadTree.

(** The part of [only_in] and of [changed] below the subdirectories of
    one level. *)
Definition dirs_only_in (path : string) (dirs others : list (DirectoryNode.t * tree))
  : list string :=
  flat_map (fun d => match d with
                     | (x, sub) =>
                         let p := path_join path (DirectoryNode.name x) in
                         match dir_named (DirectoryNode.name x) others with
                         | None => all_files p sub
                         | Some (y, sub') =>
                             if String.eqb (Digest.hash (DirectoryNode.digest x))
                                           (Digest.hash (DirectoryNode.digest y))
                             then [] else only_in p sub sub'
                         end
                     end) dirs.

Definition dirs_changed (path : string) (dirs others : list (DirectoryNode.t * tree))
  : list string :=
  flat_map (fun d => match d with
                     | (x, sub) =>
                         match dir_named (DirectoryNode.name x) others with
                         | None => []
                         | Some (y, sub') =>
                             if String.eqb (Digest.hash (DirectoryNode.digest x))
                                           (Digest.hash (DirectoryNode.digest y))
                             then []
                             else changed (path_join path (DirectoryNode.name x)) sub sub'
                         end
                     end) dirs.

(** The three lists with more paths appended. *)
Definition extend (l : difflists) (a r m : list string) : difflists :=
  Diff (added l ++ a) (removed l ++ r) (modified l ++ m).

(** A directory node with the sorted tree that its digest loads. *)
Definition loaded_dir `{Codec} (fuel : nat) (self : CASCache) (f : fs)
    (d : DirectoryNode.t * tree) : Prop :=
  load_tree fuel self f (DirectoryNode.digest (fst d)) = Some (snd d)
  /\ sorted_tree (snd d) = true.

(** The digest that [diff] compares for a ref: of the root, or of the
    subdirectory asked for. *)
Definition diff_root `{Codec} (self : CASCache) (tree : Digest.t) (subdir : option string)
  : M fs Digest.t :=
  if truthy subdir
  then _get_subdir self tree (match subdir with Some s => s | None => "" end)
  else ret tree.

(** The root digests and the loaded trees of S3. *)
Definition s3_root_a : Digest.t :=
  Eval vm_compute in
    match snd (resolve_ref cache "A" s3_fs) with Ok digest => digest | Raise _ => Digest.empty end.

Definition s3_root_b : Digest.t :=
  Eval vm_compute in
    match snd (resolve_ref cache "B" s3_fs) with Ok digest => digest | Raise _ => Digest.empty end.

Definition s3_tree_a : tree :=
  Eval vm_compute in
    match load_tree 4 cache s3_fs s3_root_a with Some t => t | None => empty_tree end.

Definition s3_tree_b : tree :=
  Eval vm_compute in
    match load_tree 4 cache s3_fs s3_root_b with Some t => t | None => empty_tree end.

(** Two files of the same bytes, one of them executable, committed as
    ref [r]. *)
Definition twins_fs : fs := run_script (
  CASCache_init "cache" ;;;
  makedirs "t" ;;;
  mkfile "t/a" "x" 493 ;;; mkfile "t/b" "x" 420 ;;;
  commit 5 cache ["r"] "t" ;;; makedirs "out").

(** The Directory of a subdirectory [d] with one file [x] of bytes
    [hello]. *)
Definition d_directory : Directory.t :=
  Directory.add_file Directory.empty (FileNode.Build "x" (digest_of "hello") false).

(** A tree with that subdirectory and, next to it, a file [f] whose bytes
    are the serialised Directory of [d]; committed as ref [r]. *)
Definition shadow_fs : fs := run_script (
  CASCache_init "cache" ;;;
  makedirs "t/d" ;;;
  mkfile "t/d/x" "hello" 420 ;;;
  mkfile "t/f" (serialize_directory d_directory) 420 ;;;
  commit 5 cache ["r"] "t" ;;; makedirs "out").

(** Every name of [names] comes before [x]. *)
Definition all_below (names : list string) (x : string) : Prop :=
  Forall (fun n => str_gt x n = true) names.

(** The names of a list of entries are in order, and before every name
    still to come. *)
Definition in_order (names rest : list string) : Prop :=
  ascending names = true /\ Forall (all_below names) rest.

(** The loop invariant of [_commit_directory]: the three lists of the
    Directory are in order, before the names still to be walked. *)
Definition directory_in_order (directory : Directory.t) (rest : list string) : Prop :=
  in_order (map FileNode.name (Directory.files directory)) rest
  /\ in_order (map DirectoryNode.name (Directory.directories directory)) rest
  /\ in_order (map SymlinkNode.name (Directory.symlinks directory)) rest.


(** ** Relations between the state before and after a call *)

(** Every run of [c] takes a state to one that [P] relates to it,
    whether [c] returns or raises. *)
Definition preserves {S A} (P : S -> S -> Prop) (c : M S A) : Prop :=
  forall s s' r, c s = (s', r) -> P s s'.

(** A relation on the first component of a pair of states. *)
Definition on_fst {S X} (P : S -> S -> Prop) : S * X -> S * X -> Prop :=
  fun s s' => P (fst s) (fst s').

(** ** The files under a directory, with their time stamps *)

(** The files that the walk of [refs/heads] finds, each as the pair of
    its time stamp and its ref name. *)
Definition ref_stamps (fuel : nat) (mtime : string -> Z) (self : CASCache) (f : fs)
  : list (Z * string) :=
  let ref_heads := path_join_all (casdir self) ["refs"; "heads"] in
  map (fun rf => (mtime (path_join (fst rf) (snd rf)),
                  relpath (path_join (fst rf) (snd rf)) ref_heads))
      (walk_files fuel f ref_heads).

(** The files that the walk of [objects] finds, each as the pair of its
    time stamp and its path. *)
Definition object_stamps (fuel : nat) (mtime : string -> Z) (self : CASCache) (f : fs)
  : list (Z * string) :=
  map (fun rf => (mtime (path_join (fst rf) (snd rf)), path_join (fst rf) (snd rf)))
      (walk_files fuel f (path_join_all (casdir self) ["objects"])).

(** Time stamps never decrease along the list. *)
Definition oldest_first (stamped : list (Z * string)) : Prop :=
  forall i j a b, (i < j)%nat -> stamped !! i = Some a -> stamped !! j = Some b ->
                  fst a <= fst b.

(** The paths of the ref files that the walk finds. *)
Definition ref_paths (fuel : nat) (self : CASCache) (f : fs) : list string :=
  map (fun rf => path_join (fst rf) (snd rf))
      (walk_files fuel f (path_join_all (casdir self) ["refs"; "heads"])).

(** Time stamps for the scenario of two refs: [r1] was modified at time
    1, everything else at time 3. *)
Definition r1_older (p : string) : Z :=
  if String.eqb p (_refpath cache "r1") then 1 else 3.

(** A plain name: not empty, no slash in it. *)
Definition plain_name (b : string) : Prop :=
  b <> "" /\ forallb (fun c => negb (is_sep c)) (list_ascii_of_string b) = true.

(** ** What a checkout leaves behind *)

(** The file system [f'] has everything that [f] has: each entry of [f],
    and each inode of [f] with the bytes it had and with the mode it had
    or mode 0755. *)
Definition grows (f f' : fs) : Prop :=
  (forall p x, nodes f !! p = Some x -> nodes f' !! p = Some x)
  /\ (forall i n, inodes f !! i = Some n ->
        exists n', inodes f' !! i = Some n'
                   /\ i_data n' = i_data n
                   /\ (i_mode n' = i_mode n \/ i_mode n' = 493)).

(** The file of [filenode] in [dest] is a hard link to its blob: one
    inode under both names, executable when the node says so. *)
Definition linked (self : CASCache) (f : fs) (dest : string) (filenode : FileNode.t) : Prop :=
  exists i n,
    nodes f !! path_join dest (FileNode.name filenode) = Some (FFile i)
    /\ nodes f !! objpath self (FileNode.digest filenode) = Some (FFile i)
    /\ inodes f !! i = Some n
    /\ (FileNode.is_executable filenode = true -> i_mode n = 493).

(** [dest] in [f'] mirrors the Directory [tree]: every file is linked,
    every symbolic link is there with its target, and every
    subdirectory whose Directory was among the objects of [f] is
    mirrored in turn; [dest] itself is a directory, unless its last
    component is [.]. *)
Fixpoint mirrors `{Codec} (fuel : nat) (self : CASCache) (f f' : fs) (dest : string)
    (tree : Digest.t) : Prop :=
  match fuel with
  | O => False
  | S fuel' =>
      exists directory,
        read_directory self tree f' = (f', Ok directory)
        /\ (snd (makedirs_split dest) <> "." -> isdir f' dest = true)
        /\ Forall (linked self f' dest) (Directory.files directory)
        /\ Forall (fun dirnode =>
                     exists_ f (objpath self (DirectoryNode.digest dirnode)) = true ->
                     mirrors fuel' self f f' (path_join dest (DirectoryNode.name dirnode))
                       (DirectoryNode.digest dirnode))
                  (Directory.directories directory)
        /\ Forall (fun symlinknode =>
                     nodes f' !! path_join dest (SymlinkNode.name symlinknode)
                     = Some (FSymlink (SymlinkNode.target symlinknode)))
                  (Directory.symlinks directory)
  end.

(** ** What a download leaves in place *)

(** Every entry of [f] is an entry of [f'], under its name and of its
    kind: nothing was removed or replaced. *)
Definition keeps_entries (f f' : fs) : Prop :=
  forall p x, nodes f !! p = Some x -> nodes f' !! p = Some x.

(** A Tree of one Directory, with the file [a.txt] of S1, and a server
    that holds the Tree and the blob of the file. *)
Definition one_file_tree : Tree.t :=
  Tree.Build (Directory.add_file Directory.empty
                (FileNode.Build "a.txt" (digest_of "hello") false)) [].

Definition tree_server : server :=
  srv_store (digest_of (put_tree one_file_tree)) (put_tree one_file_tree)
    (srv_store (digest_of "hello") "hello" empty_server).

(** The error of the queries on a ref that is not in the cache. *)
Definition unavailable_ref : exn := CASCacheError "Attempt to access unavailable ref" false.

(** ** What pruning keeps *)

(** The names of the refs that the walk of [refs/heads] finds, the ones
    that [list_refs] lists. *)
Definition ref_names (fuel : nat) (self : CASCache) (f : fs) : list string :=
  let ref_heads := path_join_all (casdir self) ["refs"; "heads"] in
  map (fun rf => relpath (path_join (fst rf) (snd rf)) ref_heads)
      (walk_files fuel f ref_heads).


(** Every entry of [f] is an entry of [f'], except that the entry at [q]
    may have been replaced by another. *)
Definition keeps_but (q : string) (f f' : fs) : Prop :=
  forall p x, nodes f !! p = Some x ->
    nodes f' !! p = Some x \/ (p = q /\ is_Some (nodes f' !! q)).

(** Every name of [f] is a name of [f']. *)
Definition keeps_names (f f' : fs) : Prop :=
  forall p, exists_ f p = true -> exists_ f' p = true.


(** * Properties *)

Arguments path_split : simpl never.
Arguments path_join : simpl never.
Arguments dirname : simpl never.
Arguments basename : simpl never.
Arguments str_gt : simpl never.

(** ** The monad *)

Lemma bind_ok {S A B} (c : M S A) (k : A -> M S B) s s' a :
  c s = (s', Ok a) -> bind c k s = k a s'.
Proof. unfold bind. intros ->. reflexivity. Qed.

Lemma bind_raise {S A B} (c : M S A) (k : A -> M S B) s s' e :
  c s = (s', Raise e) -> bind c k s = (s', Raise e).
Proof. unfold bind. intros ->. reflexivity. Qed.

Lemma bind_get {S B} (k : S -> M S B) s : bind get k s = k s s.
Proof. reflexivity. Qed.

Lemma bind_ret {S A B} (a : A) (k : A -> M S B) s : bind (ret a) k s = k a s.
Proof. reflexivity. Qed.


(** A run is determined by its outcome and the state it ends in. *)
Lemma run_eq {S A} (c : M S A) s r : snd (c s) = r -> c s = (fst (c s), r).
Proof. destruct (c s); simpl; intros ->; reflexivity. Qed.

Lemma try_except_ok {S A} (body : M S A) (handler : exn -> M S A) s s' a :
  body s = (s', Ok a) -> try_except body handler s = (s', Ok a).
Proof. unfold try_except. intros ->. reflexivity. Qed.

Lemma try_except_raise {S A} (body : M S A) (handler : exn -> M S A) s s' e :
  body s = (s', Raise e) -> try_except body handler s = handler e s'.
Proof. unfold try_except. intros ->. reflexivity. Qed.

Lemma lift_fst_eq {S X A} (c : M S A) s (x : X) s' r :
  c s = (s', r) -> lift_fst c (s, x) = ((s', x), r).
Proof. unfold lift_fst. simpl. intros ->. reflexivity. Qed.

Lemma lift_snd_eq {S X A} (c : M X A) (s : S) x x' r :
  c x = (x', r) -> lift_snd c (s, x) = ((s, x'), r).
Proof. unfold lift_snd. simpl. intros ->. reflexivity. Qed.

(** A successful [bind] went through a successful first step. *)
Lemma bind_inv_ok {S A B} (c : M S A) (k : A -> M S B) s s2 b :
  bind c k s = (s2, Ok b) ->
  exists s1 a, c s = (s1, Ok a) /\ k a s1 = (s2, Ok b).
Proof.
  unfold bind. destruct (c s) as [s1 [a|e]]; intros Hk.
  - exists s1, a. split; [reflexivity | exact Hk].
  - discriminate Hk.
Qed.

(** ** Reading leaves the file system as it is *)

Lemma read_file_state p f f' r : read_file p f = (f', r) -> f' = f.
Proof.
  unfold read_file. intros Hr.
  destruct (nodes f !! p) as [[| i | | | | |]|]; try (inversion Hr; reflexivity).
  destruct (inodes f !! i); inversion Hr; reflexivity.
Qed.

Section ReadOnly.
Context `{Codec}.

Lemma read_directory_state self tree f f' r :
  read_directory self tree f = (f', r) -> f' = f.
Proof.
  unfold read_directory, bind. intros Hr.
  destruct (read_file (objpath self tree) f) as [f1 [data|e]] eqn:Hread.
  - apply read_file_state in Hread as ->.
    destruct (parse_directory data); inversion Hr; reflexivity.
  - apply read_file_state in Hread as ->. inversion Hr; reflexivity.
Qed.

Lemma read_optional_directory_state self tree f f' r :
  read_optional_directory self tree f = (f', r) -> f' = f.
Proof.
  destruct tree as [t|]; simpl.
  - apply read_directory_state.
  - intros Hr; inversion Hr; reflexivity.
Qed.

Lemma resolve_ref_state self ref f f' r :
  resolve_ref self ref f = (f', r) -> f' = f.
Proof.
  unfold resolve_ref, try_except, bind. intros Hr.
  destruct (read_file (_refpath self ref) f) as [f1 [data|e]] eqn:Hread;
    apply read_file_state in Hread as ->.
  - destruct (parse_digest data); inversion Hr; reflexivity.
  - destruct e; inversion Hr; reflexivity.
Qed.

Lemma resolve_ref_run self ref f r :
  snd (resolve_ref self ref f) = r -> resolve_ref self ref f = (f, r).
Proof.
  intros Hr. rewrite (run_eq _ _ _ Hr). f_equal.
  eapply resolve_ref_state, run_eq, Hr.
Qed.

Lemma _get_subdir_fuel_state fuel self : forall tree subdir f f' r,
  _get_subdir_fuel fuel self tree subdir f = (f', r) -> f' = f.
Proof.
  induction fuel as [|fuel IH]; intros tree subdir f f' r; simpl.
  - intros Hr; inversion Hr; reflexivity.
  - unfold bind.
    destruct (String.eqb (dirname subdir) "").
    + simpl. destruct (read_directory self tree f) as [f1 [d|e]] eqn:Hd;
        apply read_directory_state in Hd as ->.
      * intros Hr; case_match; inversion Hr; reflexivity.
      * intros Hr; inversion Hr; reflexivity.
    + destruct (_get_subdir_fuel fuel self tree (dirname subdir) f) as [f1 [t|e]] eqn:Hs;
        apply IH in Hs as ->.
      * destruct (read_directory self t f) as [f1 [d|e]] eqn:Hd;
          apply read_directory_state in Hd as ->.
        -- intros Hr; case_match; inversion Hr; reflexivity.
        -- intros Hr; inversion Hr; reflexivity.
      * intros Hr; inversion Hr; reflexivity.
Qed.

Lemma _get_subdir_state self tree subdir f f' r :
  _get_subdir self tree subdir f = (f', r) -> f' = f.
Proof. apply _get_subdir_fuel_state. Qed.
End ReadOnly.

(** ** The order on names *)

Lemma str_gt_asym a b : str_gt a b = true -> str_gt b a = false.
Proof.
  unfold str_gt, String.ltb. rewrite (String.compare_antisym a b).
  destruct (String.compare b a); simpl; congruence.
Qed.

Lemma str_gt_total a b : str_gt a b = false -> str_gt b a = false -> a = b.
Proof.
  unfold str_gt, String.ltb. rewrite (String.compare_antisym a b).
  destruct (String.compare b a) eqn:Hc; simpl; try congruence.
  intros _ _. symmetry. apply String.compare_eq_iff. exact Hc.
Qed.

(** ** Diff symmetry *)


Lemma diff_files_nil_cons path y fb l :
  diff_files path [] (y :: fb) l
  = diff_files path [] fb (add_added (path_join path (FileNode.name y)) l).
Proof. reflexivity. Qed.

Lemma diff_files_cons_nil path x fa l :
  diff_files path (x :: fa) [] l
  = diff_files path fa [] (add_removed (path_join path (FileNode.name x)) l).
Proof. reflexivity. Qed.

Lemma diff_files_cons_cons path x fa y fb l :
  diff_files path (x :: fa) (y :: fb) l
  = if str_gt (FileNode.name x) (FileNode.name y)
    then diff_files path (x :: fa) fb (add_added (path_join path (FileNode.name y)) l)
    else if str_gt (FileNode.name y) (FileNode.name x)
    then diff_files path fa (y :: fb) (add_removed (path_join path (FileNode.name x)) l)
    else diff_files path fa fb
           (if negb (String.eqb (Digest.hash (FileNode.digest x)) (Digest.hash (FileNode.digest y)))
            then add_modified (path_join path (FileNode.name x)) l else l).
Proof. reflexivity. Qed.

Lemma diff_files_swap path : forall fa fb l,
  diff_files path fb fa (swap l) = swap (diff_files path fa fb l).
Proof.
  induction fa as [|x fa IHa].
  - induction fb as [|y fb IHb]; intros l.
    + reflexivity.
    + rewrite diff_files_cons_nil, diff_files_nil_cons. rewrite <- IHb. reflexivity.
  - induction fb as [|y fb IHb]; intros l.
    + rewrite diff_files_cons_nil, diff_files_nil_cons. rewrite <- IHa. reflexivity.
    + rewrite !diff_files_cons_cons.
      destruct (str_gt (FileNode.name x) (FileNode.name y)) eqn:Hxy.
      * rewrite (str_gt_asym _ _ Hxy). rewrite <- IHb. reflexivity.
      * destruct (str_gt (FileNode.name y) (FileNode.name x)) eqn:Hyx.
        -- rewrite <- IHa. reflexivity.
        -- rewrite <- IHa. f_equal.
           rewrite (str_gt_total _ _ Hxy Hyx), (String.eqb_sym (Digest.hash (FileNode.digest y))).
           destruct (negb _); reflexivity.
Qed.

Section DiffDirsEquations.
Variable rec : option Digest.t -> option Digest.t -> string -> difflists -> M fs difflists.

Lemma diff_dirs_nil_nil path l : diff_dirs rec path [] [] l = ret l.
Proof. reflexivity. Qed.

Lemma diff_dirs_nil_cons path y db l :
  diff_dirs rec path [] (y :: db) l
  = (let* l' := rec None (Some (DirectoryNode.digest y))
                  (path_join path (DirectoryNode.name y)) l in
     diff_dirs rec path [] db l').
Proof. reflexivity. Qed.

Lemma diff_dirs_cons_nil path x da l :
  diff_dirs rec path (x :: da) [] l
  = (let* l' := rec (Some (DirectoryNode.digest x)) None
                  (path_join path (DirectoryNode.name x)) l in
     diff_dirs rec path da [] l').
Proof. reflexivity. Qed.

Lemma diff_dirs_cons_cons path x da y db l :
  diff_dirs rec path (x :: da) (y :: db) l
  = if str_gt (DirectoryNode.name x) (DirectoryNode.name y)
    then let* l' := rec None (Some (DirectoryNode.digest y))
                      (path_join path (DirectoryNode.name y)) l in
         diff_dirs rec path (x :: da) db l'
    else if str_gt (DirectoryNode.name y) (DirectoryNode.name x)
    then let* l' := rec (Some (DirectoryNode.digest x)) None
                      (path_join path (DirectoryNode.name x)) l in
         diff_dirs rec path da (y :: db) l'
    else
      let* l' :=
        if negb (String.eqb (Digest.hash (DirectoryNode.digest x))
                            (Digest.hash (DirectoryNode.digest y)))
        then rec (Some (DirectoryNode.digest x)) (Some (DirectoryNode.digest y))
               (path_join path (DirectoryNode.name x)) l
        else ret l in
      diff_dirs rec path da db l'.
Proof. reflexivity. Qed.

Hypothesis rec_state : forall ta tb path l f f' r, rec ta tb path l f = (f', r) -> f' = f.

Lemma diff_dirs_state path : forall da db l f f' r,
  diff_dirs rec path da db l f = (f', r) -> f' = f.
Proof.
  assert (Hstep : forall (c : M fs difflists) (k : difflists -> M fs difflists) f f' r,
             (forall f1 r1, c f = (f1, r1) -> f1 = f) ->
             (forall l1 f2 r2, k l1 f = (f2, r2) -> f2 = f) ->
             bind c k f = (f', r) -> f' = f).
  { intros c k f f' r Hc Hk. unfold bind.
    destruct (c f) as [f1 [l1|e]] eqn:Hcf; specialize (Hc _ _ eq_refl); subst f1.
    - apply Hk.
    - intros Hr; inversion Hr; reflexivity. }
  induction da as [|x da IHa].
  - induction db as [|y db IHb]; intros l f f' r.
    + rewrite diff_dirs_nil_nil. intros Hr; inversion Hr; reflexivity.
    + rewrite diff_dirs_nil_cons. apply Hstep; [apply rec_state | intros; eapply IHb; eassumption].
  - induction db as [|y db IHb]; intros l f f' r.
    + rewrite diff_dirs_cons_nil. apply Hstep; [apply rec_state | intros; eapply IHa; eassumption].
    + rewrite diff_dirs_cons_cons.
      destruct (str_gt _ _); [|destruct (str_gt _ _)].
      * apply Hstep; [apply rec_state | intros; eapply IHb; eassumption].
      * apply Hstep; [apply rec_state | intros; eapply IHa; eassumption].
      * apply Hstep; [|intros; eapply IHa; eassumption].
        destruct (negb _); [apply rec_state | intros f1 r1 Hr; inversion Hr; reflexivity].
Qed.

Hypothesis rec_swap : forall ta tb path l f l',
  rec ta tb path l f = (f, Ok l') -> rec tb ta path (swap l) f = (f, Ok (swap l')).

Lemma diff_dirs_swap path : forall da db l f l',
  diff_dirs rec path da db l f = (f, Ok l') ->
  diff_dirs rec path db da (swap l) f = (f, Ok (swap l')).
Proof.
  assert (Hstep : forall ta tb p l (k k' : difflists -> M fs difflists) f l',
             (forall l1, k l1 f = (f, Ok l') -> k' (swap l1) f = (f, Ok (swap l'))) ->
             bind (rec ta tb p l) k f = (f, Ok l') ->
             bind (rec tb ta p (swap l)) k' f = (f, Ok (swap l'))).
  { intros ta tb p l k k' f l' Hk Hb.
    apply bind_inv_ok in Hb as (f1 & l1 & Hrec & Hk1).
    pose proof (rec_state _ _ _ _ _ _ _ Hrec); subst f1.
    rewrite (bind_ok _ _ _ _ _ (rec_swap _ _ _ _ _ _ Hrec)). apply Hk, Hk1. }
  induction da as [|x da IHa].
  - induction db as [|y db IHb]; intros l f l'.
    + rewrite !diff_dirs_nil_nil. intros Hr; inversion Hr; reflexivity.
    + rewrite diff_dirs_nil_cons, diff_dirs_cons_nil. apply Hstep. intros l1; apply IHb.
  - induction db as [|y db IHb]; intros l f l'.
    + rewrite diff_dirs_nil_cons, diff_dirs_cons_nil. apply Hstep. intros l1; apply IHa.
    + rewrite !diff_dirs_cons_cons.
      destruct (str_gt (DirectoryNode.name x) (DirectoryNode.name y)) eqn:Hxy.
      * rewrite (str_gt_asym _ _ Hxy). apply Hstep. intros l1; apply IHb.
      * destruct (str_gt (DirectoryNode.name y) (DirectoryNode.name x)) eqn:Hyx.
        -- apply Hstep. intros l1; apply IHa.
        -- rewrite (str_gt_total _ _ Hxy Hyx),
             (String.eqb_sym (Digest.hash (DirectoryNode.digest y))).
           destruct (negb _).
           ++ apply Hstep. intros l1; apply IHa.
           ++ unfold bind, ret. apply IHa.
Qed.
End DiffDirsEquations.

Section DiffSymmetry.
Context `{Codec}.

Lemma _diff_trees_state fuel self : forall ta tb path l f f' r,
  _diff_trees fuel self ta tb path l f = (f', r) -> f' = f.
Proof.
  induction fuel as [|fuel IH]; intros ta tb path l f f' r; simpl.
  - intros Hr; inversion Hr; reflexivity.
  - unfold bind.
    destruct (read_optional_directory self ta f) as [f1 [da|e]] eqn:Ha;
      apply read_optional_directory_state in Ha as ->;
      [|intros Hr; inversion Hr; reflexivity].
    destruct (read_optional_directory self tb f) as [f1 [db|e]] eqn:Hb;
      apply read_optional_directory_state in Hb as ->;
      [|intros Hr; inversion Hr; reflexivity].
    apply diff_dirs_state. exact IH.
Qed.

Lemma _diff_trees_swap fuel self : forall ta tb path l f l',
  _diff_trees fuel self ta tb path l f = (f, Ok l') ->
  _diff_trees fuel self tb ta path (swap l) f = (f, Ok (swap l')).
Proof.
  induction fuel as [|fuel IH]; intros ta tb path l f l'; simpl.
  - intros Hr; inversion Hr.
  - intros Hd.
    apply bind_inv_ok in Hd as (f1 & da & Ha & Hd).
    pose proof (read_optional_directory_state _ _ _ _ _ Ha); subst f1.
    apply bind_inv_ok in Hd as (f1 & db & Hb & Hd).
    pose proof (read_optional_directory_state _ _ _ _ _ Hb); subst f1.
    rewrite (bind_ok _ _ _ _ _ Hb), (bind_ok _ _ _ _ _ Ha).
    rewrite diff_files_swap.
    apply diff_dirs_swap; [apply _diff_trees_state | exact IH | exact Hd].
Qed.

(** C9.  Diff symmetry: when [diff(A, B)] returns [(m, r, a)], then
    [diff(B, A)] returns [(m, a, r)]: the modified list is the same in
    both directions, and the added and removed lists swap. *)
Theorem diff_symmetry fuel self ref_a ref_b subdir f f' m r a :
  diff fuel self ref_a ref_b subdir f = (f', Ok (m, r, a)) ->
  diff fuel self ref_b ref_a subdir f = (f', Ok (m, a, r)).
Proof.
  unfold diff. intros Hd.
  apply bind_inv_ok in Hd as (f1 & ta & Ha & Hd).
  pose proof (resolve_ref_state _ _ _ _ _ Ha); subst f1.
  apply bind_inv_ok in Hd as (f1 & tb & Hb & Hd).
  pose proof (resolve_ref_state _ _ _ _ _ Hb); subst f1.
  apply bind_inv_ok in Hd as (f1 & ta' & Ha' & Hd).
  assert (f1 = f) as ->.
  { destruct (truthy subdir); [apply _get_subdir_state in Ha' | inversion Ha']; congruence. }
  apply bind_inv_ok in Hd as (f1 & tb' & Hb' & Hd).
  assert (f1 = f) as ->.
  { destruct (truthy subdir); [apply _get_subdir_state in Hb' | inversion Hb']; congruence. }
  apply bind_inv_ok in Hd as (f1 & l & Hl & Hd).
  pose proof (_diff_trees_state _ _ _ _ _ _ _ _ _ Hl); subst f1.
  inversion Hd; subst.
  rewrite (bind_ok _ _ _ _ _ Hb), (bind_ok _ _ _ _ _ Ha).
  rewrite (bind_ok _ _ _ _ _ Hb'), (bind_ok _ _ _ _ _ Ha').
  apply _diff_trees_swap in Hl. rewrite (bind_ok _ _ _ _ _ Hl). reflexivity.
Qed.
End DiffSymmetry.

(** The symmetry on S3 of the specification. *)
Lemma diff_symmetry_witness :
  snd (diff 5 cache "A" "B" None s3_fs) = Ok (["b.txt"], [], ["c.txt"])
  /\ snd (diff 5 cache "B" "A" None s3_fs) = Ok (["b.txt"], ["c.txt"], []).
Proof.
  assert (Hab : snd (diff 5 cache "A" "B" None s3_fs) = Ok (["b.txt"], [], ["c.txt"]))
    by (vm_compute; reflexivity).
  split; [exact Hab|].
  rewrite (diff_symmetry _ _ _ _ _ _ _ _ _ _ (run_eq _ _ _ Hab)). reflexivity.
Defined.

(** ** Extraction *)

Section ExtractPath.
Context `{Codec}.

(** C10, as amended.  For a ref that resolves to [tree]: whenever
    [extract(ref, path, subdir)] returns, it returns
    [path/<tree.hash>], also when a subdir was requested and the
    checkout went into the subdir location below it; and it does return
    that path, at once, when the directory is already there and no
    subdir is requested or the subdir is there too. *)
Theorem extract_returns_root_dest fuel self ref path subdir f tree :
  resolve_ref self ref f = (f, Ok tree) ->
  (forall f' p, extract fuel self ref path subdir f = (f', Ok p) ->
                p = path_join path (Digest.hash tree))
  /\ (isdir f (path_join path (Digest.hash tree)) = true ->
      truthy subdir = false
      \/ isdir f (path_join (path_join path (Digest.hash tree))
                            (match subdir with Some s => s | None => "" end)) = true ->
      extract fuel self ref path subdir f = (f, Ok (path_join path (Digest.hash tree)))).
Proof.
  intros Href. unfold extract. rewrite (bind_ok _ _ _ _ _ Href).
  rewrite bind_get. split.
  - intros f' p.
    destruct (isdir f (path_join path (Digest.hash tree))).
    + destruct (truthy subdir).
      * destruct (negb _).
        -- intros Hx. apply bind_inv_ok in Hx as (f1 & t1 & _ & Hx).
           apply bind_inv_ok in Hx as (f2 & [] & _ & Hx). inversion Hx; reflexivity.
        -- intros Hx; inversion Hx; reflexivity.
      * intros Hx; inversion Hx; reflexivity.
    + intros Hx. apply bind_inv_ok in Hx as (f2 & [] & _ & Hx). inversion Hx; reflexivity.
  - intros -> [-> | ->]; [reflexivity|].
    destruct (truthy subdir); reflexivity.
Qed.
End ExtractPath.

(** The theorem on the partial checkout of S1: the [bin] subtree is
    checked out into [out/<hash>/bin], and [out/<hash>] is returned. *)
Lemma extract_returns_root_dest_witness :
  snd (resolve_ref cache "r1" s1_partial_fs) = Ok s1_root
  /\ isdir s1_partial_fs (path_join (path_join "out" (Digest.hash s1_root)) "bin") = false
  /\ snd (extract 5 cache "r1" "out" (Some "bin") s1_partial_fs)
     = Ok (path_join "out" (Digest.hash s1_root))
  /\ isdir (fst (extract 5 cache "r1" "out" (Some "bin") s1_partial_fs))
           (path_join (path_join "out" (Digest.hash s1_root)) "bin") = true.
Proof.
  assert (Href : snd (resolve_ref cache "r1" s1_partial_fs) = Ok s1_root)
    by (vm_compute; reflexivity).
  split; [exact Href|]. split; [vm_compute; reflexivity|]. split; [|vm_compute; reflexivity].
  destruct (snd (extract 5 cache "r1" "out" (Some "bin") s1_partial_fs)) as [p|e] eqn:Hx;
    [|vm_compute in Hx; discriminate Hx].
  f_equal.
  exact (proj1 (extract_returns_root_dest 5 cache "r1" "out" (Some "bin") s1_partial_fs
                  s1_root (resolve_ref_run _ _ _ _ Href)) _ p (run_eq _ _ _ Hx)).
Defined.

(** C10 as stated fails: the ref resolves, yet [extract] raises instead
    of returning a path, here for a subdir that the tree does not have. *)
Lemma extract_raises_counterexample :
  snd (resolve_ref cache "r1" s1_extracted_fs) = Ok s1_root
  /\ forall fuel,
       snd (extract fuel cache "r1" "out" (Some "nope") s1_extracted_fs)
       = Raise (CASCacheError "Subdirectory not found" false).
Proof.
  split; [vm_compute; reflexivity|].
  intros fuel. vm_compute. reflexivity.
Qed.

(** ** Push *)

Lemma for_each_app {S A B} (xs ys : list A) (acc : B) (body : B -> A -> M S B) s :
  for_each (xs ++ ys) acc body s
  = bind (for_each xs acc body) (fun acc' => for_each ys acc' body) s.
Proof.
  revert acc s. induction xs as [|x xs IH]; intros acc s; simpl.
  - reflexivity.
  - unfold bind. destruct (body acc x s) as [s1 [a|e]]; [|reflexivity].
    rewrite IH. reflexivity.
Qed.

Section PushProtocol.
Context `{Hash} `{Codec} {R : Type} `{Remote R}.

Lemma push_unfold fuel self refs s :
  push fuel self refs s
  = match try_except (push_loop fuel self refs) push_except (s, true) with
    | ((s', skipped_remote), Ok _) => (s', Ok (negb skipped_remote))
    | ((s', _), Raise e) => (s', Raise e)
    end.
Proof.
  unfold push, with_obj, push_loop.
  destruct (try_except _ _ (s, true)) as [[s' b] [[]|e]]; reflexivity.
Qed.

(** [skipped_remote] is cleared only at the end of the loop body, after
    [UpdateReference] has returned: by a ref that was not yet on the
    server and went through.  A raise leaves it as it was. *)
Lemma push_ref_flag fuel self ref s b s' b' r :
  push_ref fuel self ref (s, b) = ((s', b'), r) ->
  b' = match r with
       | Ok _ => (b && already_on_server self ref s)%bool
       | Raise _ => b
       end.
Proof.
  destruct s as [f0 r0]. unfold push_ref, already_on_server, on_fs, rpc. simpl fst; simpl snd.
  destruct (resolve_ref self ref f0) as [f1 [tree|e]] eqn:Href.
  2:{ rewrite (bind_raise _ _ _ _ _ (lift_fst_eq _ _ b _ _ (lift_fst_eq _ _ r0 _ _ Href))).
      intros Hr; inversion Hr; reflexivity. }
  pose proof (resolve_ref_state _ _ _ _ _ Href); subst f1.
  rewrite (bind_ok _ _ _ _ _ (lift_fst_eq _ _ b _ _ (lift_fst_eq _ _ r0 _ _ Href))).
  pose (tail := (lift_fst (_send_directory fuel self tree) ;;;
                 lift_fst (lift_snd (UpdateReference [ref] tree)) ;;;
                 set_obj false) : M (fs * R * bool) unit).
  assert (Htail : forall s1 s2 b2 r2, tail (s1, b) = ((s2, b2), r2) ->
                    b2 = match r2 with Ok _ => false | Raise _ => b end).
  { intros s1 s2 b2 r2. unfold tail.
    destruct (_send_directory fuel self tree s1) as [s3 [[]|e]] eqn:Hsend.
    2:{ rewrite (bind_raise _ _ _ _ _ (lift_fst_eq _ _ b _ _ Hsend)).
        intros Hr; inversion Hr; reflexivity. }
    rewrite (bind_ok _ _ _ _ _ (lift_fst_eq _ _ b _ _ Hsend)).
    destruct s3 as [f3 r3].
    destruct (UpdateReference [ref] tree r3) as [r4 [[]|e]] eqn:Hupd.
    2:{ rewrite (bind_raise _ _ _ _ _ (lift_fst_eq _ _ b _ _ (lift_snd_eq _ f3 _ _ _ Hupd))).
        intros Hr; inversion Hr; reflexivity. }
    rewrite (bind_ok _ _ _ _ _ (lift_fst_eq _ _ b _ _ (lift_snd_eq _ f3 _ _ _ Hupd))).
    intros Hr; inversion Hr; reflexivity. }
  fold tail.
  destruct (GetReference ref r0) as [r1 [response|e]] eqn:Hget.
  - erewrite bind_ok.
    2:{ apply try_except_ok. erewrite bind_ok; [reflexivity|].
        apply lift_fst_eq, lift_snd_eq, Hget. }
    destruct (String.eqb _ _ && (_ =? _))%bool.
    + intros Hr; inversion Hr; subst. rewrite andb_true_r. reflexivity.
    + intros Hr. apply Htail in Hr. rewrite andb_false_r. exact Hr.
  - assert (Hbody : (let* response := lift_fst (lift_snd (GetReference ref)) in
                     ret ((Digest.hash response =? Digest.hash tree)%string
                          && (Digest.size_bytes response =? Digest.size_bytes tree))%bool)
                      (f0, r0, b) = ((f0, r1, b), Raise e)).
    { erewrite bind_raise; [reflexivity|]. apply lift_fst_eq, lift_snd_eq, Hget. }
    destruct e as [| | | | | | |code| | | | | |];
      try (erewrite bind_raise; [|erewrite try_except_raise by exact Hbody; reflexivity];
           intros Hr; inversion Hr; reflexivity).
    destruct (negb (StatusCode_eqb code NOT_FOUND)) eqn:Hcode.
    + erewrite bind_raise;
        [|erewrite try_except_raise by exact Hbody; cbv beta iota; rewrite Hcode; reflexivity].
      intros Hr; inversion Hr; reflexivity.
    + erewrite bind_ok;
        [|erewrite try_except_raise by exact Hbody; cbv beta iota; rewrite Hcode; reflexivity].
      intros Hr. apply Htail in Hr. rewrite andb_false_r. exact Hr.
Qed.

(** C4, as amended.  [RESOURCE_EXHAUSTED] from the server is never
    raised by [push]: the call returns whether a ref had been pushed
    before the error, which is [False] when the error hits the first
    ref that needs pushing (always so for a single ref) and [True] when
    an earlier ref of the call went through.  That [False] is the value
    returned when every ref is up to date.  Every other RPC error that
    leaves the loop raises [CASCacheError] with [temporary=True]; a
    [NOT_FOUND] answer to the [GetReference] lookup does not leave the
    loop, it only means that the ref has to be pushed. *)
Theorem push_throttled fuel self :
  (* swallowed; the value is the flag *)
  (forall pre ref post s s1 b s2 b2,
      push_loop fuel self pre (s, true) = ((s1, b), Ok tt) ->
      push_ref fuel self ref (s1, b) = ((s2, b2), Raise (RpcError RESOURCE_EXHAUSTED)) ->
      push fuel self (pre ++ ref :: post) s = (s2, Ok (negb b)))
  (* the flag is cleared by a ref that was not on the server and went through *)
  /\ (forall ref s b s' b' r,
        push_ref fuel self ref (s, b) = ((s', b'), r) ->
        b' = match r with
             | Ok _ => (b && already_on_server self ref s)%bool
             | Raise _ => b
             end)
  (* a single ref *)
  /\ (forall ref s s' b',
        push_ref fuel self ref (s, true) = ((s', b'), Raise (RpcError RESOURCE_EXHAUSTED)) ->
        push fuel self [ref] s = (s', Ok false))
  (* nothing had to be pushed *)
  /\ (forall refs s s',
        push_loop fuel self refs (s, true) = ((s', true), Ok tt) ->
        push fuel self refs s = (s', Ok false))
  (* any other code *)
  /\ (forall refs s s' b code,
        push_loop fuel self refs (s, true) = ((s', b), Raise (RpcError code)) ->
        code <> RESOURCE_EXHAUSTED ->
        push fuel self refs s = (s', Raise (CASCacheError "Failed to push ref" true)))
  (* NOT_FOUND from the lookup *)
  /\ (forall ref s b tree r1,
        resolve_ref self ref (fst s) = (fst s, Ok tree) ->
        GetReference ref (snd s) = (r1, Raise (RpcError NOT_FOUND)) ->
        push_ref fuel self ref (s, b)
        = (lift_fst (_send_directory fuel self tree) ;;;
           lift_fst (rpc (UpdateReference [ref] tree)) ;;;
           set_obj false) ((fst s, r1), b)).
Proof.
  assert (Hswallow : forall pre ref post s s1 b s2 b2,
      push_loop fuel self pre (s, true) = ((s1, b), Ok tt) ->
      push_ref fuel self ref (s1, b) = ((s2, b2), Raise (RpcError RESOURCE_EXHAUSTED)) ->
      push fuel self (pre ++ ref :: post) s = (s2, Ok (negb b))).
  { intros pre ref post s s1 b s2 b2 Hpre Href.
    pose proof (push_ref_flag _ _ _ _ _ _ _ _ Href) as Hb; simpl in Hb; subst b2.
    rewrite push_unfold. unfold try_except, push_loop.
    rewrite for_each_app. unfold push_loop in Hpre. rewrite (bind_ok _ _ _ _ _ Hpre).
    simpl. rewrite (bind_raise _ _ _ _ _ Href). reflexivity. }
  split; [exact Hswallow|]. split; [apply push_ref_flag|]. split; [|split; [|split]].
  - intros ref s s' b' Href. apply (Hswallow [] ref [] s s true s' b'); [reflexivity | exact Href].
  - intros refs s s' Hloop. rewrite push_unfold. unfold try_except. rewrite Hloop. reflexivity.
  - intros refs s s' b code Hloop Hcode. rewrite push_unfold. unfold try_except.
    rewrite Hloop. destruct code; try reflexivity. congruence.
  - intros ref [f0 r0] b tree r1 Href Hget. simpl in Href, Hget.
    unfold push_ref, on_fs, rpc.
    rewrite (bind_ok _ _ _ _ _ (lift_fst_eq _ _ b _ _ (lift_fst_eq _ _ r0 _ _ Href))).
    assert (Hbody : (let* response := lift_fst (lift_snd (GetReference ref)) in
                     ret ((Digest.hash response =? Digest.hash tree)%string
                          && (Digest.size_bytes response =? Digest.size_bytes tree))%bool)
                      (f0, r0, b) = ((f0, r1, b), Raise (RpcError NOT_FOUND))).
    { erewrite bind_raise; [reflexivity|]. apply lift_fst_eq, lift_snd_eq, Hget. }
    rewrite (bind_ok _ _ _ (f0, r1, b) false).
    2:{ rewrite (try_except_raise _ _ _ _ _ Hbody). reflexivity. }
    reflexivity.
Qed.
End PushProtocol.

(** The theorem on a server that takes two writes: ref [r1] goes through,
    the upload for [r2] is refused, and [push] returns [True]. *)
Lemma push_throttled_witness :
  snd (push_loop 9 cache ["r1"] (two_refs_fs, server_with_budget 2, true)) = Ok tt
  /\ snd (push 9 cache ["r1"; "r2"] (two_refs_fs, server_with_budget 2)) = Ok true.
Proof.
  destruct (push_loop 9 cache ["r1"] (two_refs_fs, server_with_budget 2, true))
    as [[s1 b] r] eqn:Hpre.
  assert (Hr : r = Ok tt) by (apply (f_equal snd) in Hpre; vm_compute in Hpre; congruence).
  assert (Hb : b = false)
    by (apply (f_equal (fun x => snd (fst x))) in Hpre; vm_compute in Hpre; congruence).
  subst r b. split; [reflexivity|].
  destruct (push_ref 9 cache "r2" (s1, false)) as [[s2 b2] r2] eqn:Hr2.
  assert (Hraise : r2 = Raise (RpcError RESOURCE_EXHAUSTED)).
  { apply (f_equal fst) in Hpre. simpl in Hpre. rewrite <- Hpre in Hr2.
    apply (f_equal snd) in Hr2. vm_compute in Hr2. congruence. }
  subst r2.
  pose proof (proj1 (push_throttled 9 cache) ["r1"] "r2" [] _ _ _ _ _ Hpre Hr2) as Hpush.
  change (["r1"] ++ ["r2"])%list with ["r1"; "r2"] in Hpush.
  rewrite Hpush. reflexivity.
Defined.

(** C4 as stated fails: the server answers [RESOURCE_EXHAUSTED] during the
    push, and [push] returns [True], not [False]. *)
Lemma push_throttled_counterexample :
  snd (push_loop 9 cache ["r1"; "r2"] (two_refs_fs, server_with_budget 2, true))
  = Raise (RpcError RESOURCE_EXHAUSTED)
  /\ snd (push 9 cache ["r1"; "r2"] (two_refs_fs, server_with_budget 2)) = Ok true.
Proof. split; vm_compute; reflexivity. Qed.

(** ** Refs *)

Lemma drop_link_other j k (m : gmap nat inode) : k <> j -> drop_link j m !! k = m !! k.
Proof.
  intros Hne. unfold drop_link. destruct (m !! j) as [n|]; [|reflexivity].
  destruct (i_nlink n) as [|[|c]].
  - apply lookup_delete_ne; congruence.
  - apply lookup_delete_ne; congruence.
  - apply lookup_insert_ne; congruence.
Qed.

Lemma tmp_name_fresh f dir p : tmp_name f dir = Some p -> exists_ f p = false.
Proof.
  unfold tmp_name. intros Hfind. apply find_some in Hfind as [_ Hp].
  destruct (exists_ f p); [discriminate Hp | reflexivity].
Qed.

(** A file created by [NamedTemporaryFile] and then written once. *)
Lemma tmp_written f dir data f1 tmp f2 :
  NamedTemporaryFile dir f = (f1, Ok tmp) ->
  write_file tmp data f1 = (f2, Ok tt) ->
  nodes f !! tmp = None
  /\ nodes f2 = <[tmp := FFile (fresh_ino f)]> (nodes f)
  /\ inodes f2 = <[fresh_ino f := Inode data 384 1]> (inodes f1)
  /\ inodes f1 = <[fresh_ino f := Inode "" 384 1]> (inodes f).
Proof.
  unfold NamedTemporaryFile. destruct (tmp_name f dir) as [p|] eqn:Hname; [|discriminate].
  pose proof (tmp_name_fresh _ _ _ Hname) as Hfresh.
  unfold create_file. rewrite Hfresh.
  destruct (parent_isdir f p); [|discriminate].
  intros Hc; inversion Hc; subst; clear Hc.
  unfold write_file; simpl. rewrite lookup_insert_eq, lookup_insert_eq. simpl.
  intros Hw; inversion Hw; subst; clear Hw. simpl.
  unfold exists_ in Hfresh. destruct (nodes f !! tmp); [discriminate|].
  repeat split; reflexivity.
Qed.

Section Refs.
Context `{Codec}.

(** What [set_ref] wrote is what the ref file holds. *)
Lemma set_ref_read self ref tree f f' :
  set_ref self ref tree f = (f', Ok tt) ->
  read_file (_refpath self ref) f' = (f', Ok (serialize_digest tree)).
Proof.
  unfold set_ref. intros Hset.
  apply bind_inv_ok in Hset as (f1 & [] & _ & Hsave).
  unfold save_file_atomic in Hsave.
  apply bind_inv_ok in Hsave as (f2 & tmp & Htmp & Hbody).
  unfold try_except in Hbody.
  destruct ((write_file tmp (serialize_digest tree);;; rename tmp (_refpath self ref)) f2)
    as [f3 [[]|e]] eqn:Hwr.
  2:{ unfold bind in Hbody. destruct (unlink tmp f3) as [f4 [[]|e']]; discriminate Hbody. }
  inversion Hbody; subst f3; clear Hbody.
  apply bind_inv_ok in Hwr as (f3 & [] & Hw & Hren).
  destruct (tmp_written _ _ _ _ _ _ Htmp Hw) as (Hnone & Hnodes & Hino & _).
  set (i := fresh_ino f1) in *. set (refpath := _refpath self ref) in *.
  assert (Hi : inodes f3 !! i = Some (Inode (serialize_digest tree) 384 1))
    by (rewrite Hino; apply lookup_insert_eq).
  assert (Hsrc : nodes f3 !! tmp = Some (FFile i)) by (rewrite Hnodes; apply lookup_insert_eq).
  unfold rename in Hren. rewrite Hsrc in Hren.
  destruct (nodes f3 !! refpath) as [[| j | t | | | |]|] eqn:Hdst;
    try discriminate Hren;
    try (inversion Hren; subst f'; clear Hren; unfold read_file; simpl;
         rewrite lookup_insert_eq, Hi; reflexivity).
  - destruct (bool_decide (FFile i = FFile j)) eqn:Hsame.
    + apply bool_decide_eq_true in Hsame. inversion Hsame; subst j.
      inversion Hren; subst f'. unfold read_file. rewrite Hdst, Hi. reflexivity.
    + apply bool_decide_eq_false in Hsame.
      inversion Hren; subst f'; clear Hren. unfold read_file; simpl.
      rewrite lookup_insert_eq, drop_link_other by congruence. rewrite Hi. reflexivity.
  - destruct (parent_isdir f3 refpath); [|discriminate Hren].
    inversion Hren; subst f'; clear Hren. unfold read_file; simpl.
    rewrite lookup_insert_eq, Hi. reflexivity.
Qed.

(** A ref that was set resolves to the digest it was set to, provided
    the wire format gives that digest back. *)
Lemma set_ref_resolve self ref tree f f' :
  set_ref self ref tree f = (f', Ok tt) ->
  parse_digest (serialize_digest tree) = Some tree ->
  resolve_ref self ref f' = (f', Ok tree).
Proof.
  intros Hset Hparse. unfold resolve_ref.
  apply try_except_ok. rewrite (bind_ok _ _ _ _ _ (set_ref_read _ _ _ _ _ Hset)).
  rewrite Hparse. reflexivity.
Qed.
End Refs.

(** ** Pull *)

Section PullProtocol.
Context `{Hash} `{Codec} {R : Type} `{Remote R}.


End PullProtocol.


(** ** Checkout *)

Section CheckoutDangling.
Context `{Codec}.

End CheckoutDangling.


(** ** Bytes and chunks *)

Lemma append_cons c (s t : string) : String c s ++ t = String c (s ++ t).
Proof. reflexivity. Qed.

Lemma append_nil_r (s : string) : s ++ "" = s.
Proof.
  induction s as [|c s IH]; [reflexivity | rewrite append_cons, IH; reflexivity].
Qed.

Lemma append_assoc (s1 s2 s3 : string) : (s1 ++ s2) ++ s3 = s1 ++ (s2 ++ s3).
Proof.
  induction s1 as [|c s1 IH]; [reflexivity | rewrite !append_cons, IH; reflexivity].
Qed.

Lemma substring_whole (s : string) : String.substring 0 (String.length s) s = s.
Proof. induction s as [|c s IH]; simpl; [reflexivity | rewrite IH; reflexivity]. Qed.

Lemma str_take_drop n : forall s, str_take n s ++ str_drop n s = s.
Proof.
  unfold str_take, str_drop. induction n as [|n IH]; intros s.
  - rewrite Nat.sub_0_r, substring_whole. destruct s; reflexivity.
  - destruct s as [|c s]; simpl; [reflexivity|].
    change (String c (String.substring 0 n s) ++ String.substring n (String.length s - n) s
            = String c s).
    rewrite append_cons, IH. reflexivity.
Qed.

Lemma str_drop_length n : forall s,
  String.length (str_drop n s) = (String.length s - n)%nat.
Proof.
  unfold str_drop. induction n as [|n IH]; intros s.
  - rewrite Nat.sub_0_r, substring_whole. reflexivity.
  - destruct s as [|c s]; simpl; [reflexivity | apply IH].
Qed.

(** Hashing chunk by chunk hashes the bytes. *)
Lemma chunks_fuel_concat n : (0 < n)%nat -> forall fuel data acc,
  (String.length data <= fuel)%nat ->
  fold_left hasher_update (chunks_fuel fuel n data) acc = acc ++ data.
Proof.
  intros Hn. induction fuel as [|fuel IH]; intros data acc Hlen.
  - destruct data; [|simpl in Hlen; lia]. simpl. rewrite append_nil_r. reflexivity.
  - simpl. destruct (String.eqb_spec data "") as [->|Hne].
    + simpl. rewrite append_nil_r. reflexivity.
    + simpl. rewrite IH.
      * unfold hasher_update. rewrite append_assoc, str_take_drop. reflexivity.
      * rewrite str_drop_length. destruct data; [congruence|]. simpl in *. lia.
Qed.

Lemma read_chunks_concat data acc :
  fold_left hasher_update (read_chunks 4096 data) acc = acc ++ data.
Proof. apply chunks_fuel_concat; [lia | reflexivity]. Qed.

(** ** The file system: what the operations keep *)

Lemma fresh_ino_None f : inodes f !! fresh_ino f = None.
Proof. apply not_elem_of_dom. unfold fresh_ino. apply is_fresh. Qed.

Lemma exists_true f p : exists_ f p = true <-> is_Some (nodes f !! p).
Proof.
  unfold exists_. destruct (nodes f !! p); split; intros Hx; try discriminate;
    eauto; destruct Hx as [? Hx]; discriminate.
Qed.



Section Keeps.
Context {S : Type} (view : S -> fs) (p : string).

Lemma keeps_bind {A B} (c : M S A) (k : A -> M S B) :
  keeps_node view p c -> (forall a, keeps_node view p (k a)) ->
  keeps_node view p (bind c k).
Proof.
  intros Hc Hk s s' r x. unfold bind.
  destruct (c s) as [s1 [a|e]] eqn:Hcs; intros Hr Hp.
  - eapply Hk; [exact Hr | eapply Hc; eassumption].
  - inversion Hr; subst. eapply Hc; eassumption.
Qed.

Lemma keeps_ret {A} (a : A) : keeps_node view p (ret a).
Proof. intros s s' r x Hr Hp. inversion Hr; subst; exact Hp. Qed.

Lemma keeps_raise {A} e : keeps_node view p (@raise S A e).
Proof. intros s s' r x Hr Hp. inversion Hr; subst; exact Hp. Qed.

Lemma keeps_get : keeps_node view p get.
Proof. intros s s' r x Hr Hp. inversion Hr; subst; exact Hp. Qed.

Lemma keeps_try_except {A} (body : M S A) handler :
  keeps_node view p body -> (forall e, keeps_node view p (handler e)) ->
  keeps_node view p (try_except body handler).
Proof.
  intros Hb Hh s s' r x. unfold try_except.
  destruct (body s) as [s1 [a|e]] eqn:Hbs; intros Hr Hp.
  - inversion Hr; subst. eapply Hb; eassumption.
  - eapply Hh; [exact Hr | eapply Hb; eassumption].
Qed.

Lemma keeps_for_each {A B} (xs : list A) (body : B -> A -> M S B) :
  (forall acc x, keeps_node view p (body acc x)) ->
  forall acc, keeps_node view p (for_each xs acc body).
Proof.
  intros Hbody. induction xs as [|x xs IH]; intros acc; simpl.
  - apply keeps_ret.
  - apply keeps_bind; [apply Hbody | exact IH].
Qed.

Lemma keeps_lift_fst {X A} (c : M S A) :
  keeps_node view p c -> keeps_node (fun s : S * X => view (fst s)) p (lift_fst c).
Proof.
  intros Hc [s x0] s' r x. unfold lift_fst. simpl.
  destruct (c s) as [s1 r1] eqn:Hcs. intros Hr Hp. inversion Hr; subst. simpl.
  eapply Hc; eassumption.
Qed.

Lemma keeps_set_obj {X} (x0 : X) :
  keeps_node (fun s : S * X => view (fst s)) p (set_obj x0).
Proof. intros s s' r x Hr Hp. inversion Hr; subst; exact Hp. Qed.

Lemma keeps_get_obj {X} : keeps_node (fun s : S * X => view (fst s)) p (@get_obj S X).
Proof. intros s s' r x Hr Hp. inversion Hr; subst; exact Hp. Qed.
End Keeps.

Section KeepsFs.
Variable p : string.
Local Abbreviation keeps := (keeps_node (fun f : fs => f) p).

Lemma keeps_read_file q : keeps (read_file q).
Proof. intros f f' r x Hr Hp. apply read_file_state in Hr as ->. exact Hp. Qed.

Lemma keeps_file_size q : keeps (file_size q).
Proof. apply keeps_bind; [apply keeps_read_file | intros; apply keeps_ret]. Qed.

Lemma keeps_mkdir q : keeps (mkdir q).
Proof.
  intros f f' r x. unfold mkdir, exists_.
  destruct (nodes f !! q) eqn:Hq; [intros Hr; inversion Hr; subst; auto|].
  destruct (parent_isdir f q); intros Hr Hp; inversion Hr; subst; simpl; [|exact Hp].
  rewrite lookup_insert_ne; [exact Hp | congruence].
Qed.

Lemma keeps_makedirs_fuel fuel : forall q, keeps (makedirs_fuel fuel q).
Proof.
  induction fuel as [|fuel IH]; intros q; simpl.
  - apply keeps_raise.
  - apply keeps_bind; [apply keeps_get|]. intros f0.
    apply keeps_bind.
    + destruct (makedirs_parent_missing f0 q); [|apply keeps_ret].
      apply keeps_bind; [|intros; apply keeps_ret].
      apply keeps_try_except; [apply IH|].
      intros []; try apply keeps_raise. apply keeps_ret.
    + intros [|]; [apply keeps_ret|].
      apply keeps_try_except; [apply keeps_mkdir|].
      intros e. destruct (is_OSError e); [|apply keeps_raise].
      apply keeps_bind; [apply keeps_get|]. intros f1.
      destruct (isdir f1 q); [apply keeps_ret | apply keeps_raise].
Qed.

Lemma keeps_makedirs q : keeps (makedirs q).
Proof. apply keeps_makedirs_fuel. Qed.

Lemma keeps_link src dst : keeps (link src dst).
Proof.
  intros f f' r x. unfold link, exists_.
  destruct (nodes f !! src) as [[| i | | | | |]|];
    try solve [intros Hr; inversion Hr; subst; auto].
  destruct (inodes f !! i); [|intros Hr; inversion Hr; subst; auto].
  destruct (nodes f !! dst) eqn:Hd; [intros Hr; inversion Hr; subst; auto|].
  destruct (parent_isdir f dst); intros Hr Hp; inversion Hr; subst; simpl; [|exact Hp].
  rewrite lookup_insert_ne; [exact Hp | congruence].
Qed.

Lemma keeps_write_file q data : keeps (write_file q data).
Proof.
  intros f f' r x. unfold write_file.
  destruct (nodes f !! q) as [[| i | | | | |]|];
    try solve [intros Hr; inversion Hr; subst; auto].
  destruct (inodes f !! i); intros Hr; inversion Hr; subst; auto.
Qed.

Lemma keeps_chmod q mode : keeps (chmod q mode).
Proof.
  intros f f' r x. unfold chmod.
  destruct (nodes f !! q) as [[| i | | | | |]|];
    try solve [intros Hr; inversion Hr; subst; auto].
  destruct (inodes f !! i); intros Hr; inversion Hr; subst; auto.
Qed.
End KeepsFs.

(** ** add_object *)

Lemma with_file_node f p data mode nlink :
  nodes (with_file f p data mode nlink) !! p = Some (FFile (fresh_ino f)).
Proof. apply lookup_insert_eq. Qed.

Lemma with_file_inode f p data mode nlink :
  inodes (with_file f p data mode nlink) !! fresh_ino f = Some (Inode data mode nlink).
Proof. apply lookup_insert_eq. Qed.



Lemma with_file_read f p data mode nlink q d :
  nodes f !! p = None ->
  read_file q f = (f, Ok d) ->
  read_file q (with_file f p data mode nlink) = (with_file f p data mode nlink, Ok d).
Proof.
  intros Hp. unfold read_file. simpl.
  destruct (nodes f !! q) as [[| i | | | | |]|] eqn:Hq; try discriminate.
  destruct (inodes f !! i) as [n|] eqn:Hi; [|discriminate].
  intros Hr; inversion Hr; subst.
  rewrite lookup_insert_ne, Hq by congruence.
  rewrite lookup_insert_ne, Hi; [reflexivity|].
  intros Heq. rewrite <- Heq, fresh_ino_None in Hi. discriminate.
Qed.

(** The temporary file of [add_object], created and set to mode 0644. *)
Lemma tmp_created f dir tmp :
  tmp_name f dir = Some tmp ->
  parent_isdir f tmp = true ->
  nodes f !! tmp = None
  /\ NamedTemporaryFile dir f = (with_file f tmp "" 384 1, Ok tmp)
  /\ chmod tmp 420 (with_file f tmp "" 384 1) = (with_file f tmp "" 420 1, Ok tt).
Proof.
  intros Hname Hparent. pose proof (tmp_name_fresh _ _ _ Hname) as Hfresh.
  assert (Hnone : nodes f !! tmp = None)
    by (unfold exists_ in Hfresh; destruct (nodes f !! tmp); [discriminate | reflexivity]).
  split; [exact Hnone|]. split.
  - unfold NamedTemporaryFile, create_file. rewrite Hname, Hfresh, Hparent. reflexivity.
  - unfold chmod. rewrite with_file_node, with_file_inode. unfold with_file. simpl.
    rewrite insert_insert_eq. reflexivity.
Qed.

Lemma write_tmp f tmp cur mode nlink data :
  write_file tmp data (with_file f tmp cur mode nlink)
  = (with_file f tmp (cur ++ data) mode nlink, Ok tt).
Proof.
  unfold write_file. rewrite with_file_node, with_file_inode. unfold with_file. simpl.
  rewrite insert_insert_eq. reflexivity.
Qed.

(** Writing the chunks while hashing them: the file then holds, and the
    hasher has seen, the bytes appended in order. *)
Lemma write_chunks {X} f tmp mode nlink (x : X) : forall chunks cur h,
  for_each chunks h
    (fun h chunk => lift_fst (write_file tmp chunk) ;;; ret (hasher_update h chunk))
    (with_file f tmp cur mode nlink, x)
  = ((with_file f tmp (fold_left hasher_update chunks cur) mode nlink, x),
     Ok (fold_left hasher_update chunks h)).
Proof.
  induction chunks as [|chunk chunks IH]; intros cur h; simpl; [reflexivity|].
  rewrite (bind_ok _ _ _ (with_file f tmp (cur ++ chunk) mode nlink, x) (hasher_update h chunk)).
  - apply IH.
  - rewrite (bind_ok _ _ _ _ _ (lift_fst_eq _ _ x _ _ (write_tmp f tmp cur mode nlink chunk))).
    reflexivity.
Qed.

Lemma lift_fst_run {S X A} (c : M S A) (s : S) (x : X) :
  lift_fst c (s, x) = ((fst (c s), x), snd (c s)).
Proof. unfold lift_fst. simpl. destruct (c s). reflexivity. Qed.

Lemma lift_fst_seq {S X A B} (c : M S A) (c' : M S B) (s : S) (x : X) :
  (lift_fst c ;;; lift_fst c') (s, x) = lift_fst (c ;;; c') (s, x).
Proof.
  unfold bind, lift_fst. simpl. destruct (c s) as [s1 [a|e]]; simpl; reflexivity.
Qed.

Lemma source_bytes_read path f data :
  source_bytes (Path path) f = Some data -> read_file path f = (f, Ok data).
Proof.
  unfold source_bytes. destruct (read_file path f) as [f1 [d|e]] eqn:Hr; [|discriminate].
  intros Hd; inversion Hd; subst. apply read_file_state in Hr as Hs. subst f1. reflexivity.
Qed.

Section AddObject.
Context `{Hash}.

Lemma file_size_tmp f tmp data mode nlink :
  file_size tmp (with_file f tmp data mode nlink)
  = (with_file f tmp data mode nlink, Ok (Z.of_nat (String.length data))).
Proof.
  unfold file_size. erewrite bind_ok; [reflexivity|].
  unfold read_file. rewrite with_file_node, with_file_inode. reflexivity.
Qed.

(** Placing the temporary file once it holds the bytes. *)
Lemma add_object_place_tmp self f tmp data d0 :
  add_object_place self tmp data (with_file f tmp data 420 1, d0)
  = lift_fst (makedirs (dirname (objpath self (digest_of data))) ;;;
              link tmp (objpath self (digest_of data)))
      (with_file f tmp data 420 1, digest_of data).
Proof.
  unfold add_object_place.
  rewrite (bind_ok _ _ _ (with_file f tmp data 420 1, d0) d0) by reflexivity.
  rewrite (bind_ok _ _ _ (with_file f tmp data 420 1,
                          Digest.Build (hasher_hexdigest data) (Digest.size_bytes d0)) tt)
    by reflexivity.
  rewrite (bind_ok _ _ _ _ _ (lift_fst_eq _ _ _ _ _ (file_size_tmp f tmp data 420 1))).
  rewrite (bind_ok _ _ _ (with_file f tmp data 420 1, digest_of data) tt) by reflexivity.
  apply lift_fst_seq.
Qed.

(** The [with] block of [add_object] when it hashes into a temporary
    file: the file is created with the bytes, placed, and unlinked. *)
Lemma add_object_with_tmp self src link_directly f d0 data tmp :
  uses_tmp src link_directly = true ->
  source_bytes src f = Some data ->
  src <> Path "" ->
  tmp_name f (tmpdir self) = Some tmp ->
  parent_isdir f tmp = true ->
  add_object_with self src link_directly (f, d0)
  = try_finally
      (lift_fst (makedirs (dirname (objpath self (digest_of data))) ;;;
                 link tmp (objpath self (digest_of data))))
      (lift_fst (unlink tmp))
      (with_file f tmp data 420 1, digest_of data).
Proof.
  intros Huses Hsrc Hnz Hname Hparent.
  destruct (tmp_created _ _ _ Hname Hparent) as (Hnone & Htmp & Hchmod).
  assert (Hbody :
    (lift_fst (chmod tmp (S_IRUSR + S_IWUSR + S_IRGRP + S_IROTH)) ;;;
     let* h :=
       match src with
       | Path path =>
           if String.eqb path "" then raise TypeError
           else
             let* data := lift_fst (read_file path) in
             for_each (read_chunks 4096 data) hasher_new
               (fun h chunk => lift_fst (write_file tmp chunk) ;;;
                               ret (hasher_update h chunk))
       | Buffer buffer =>
           lift_fst (write_file tmp buffer) ;;;
           ret (hasher_update hasher_new buffer)
       end in
     add_object_place self tmp h) (with_file f tmp "" 384 1, d0)
    = lift_fst (makedirs (dirname (objpath self (digest_of data))) ;;;
                link tmp (objpath self (digest_of data)))
        (with_file f tmp data 420 1, digest_of data)).
  { change (S_IRUSR + S_IWUSR + S_IRGRP + S_IROTH) with 420.
    rewrite (bind_ok _ _ _ _ _ (lift_fst_eq _ _ d0 _ _ Hchmod)).
    rewrite <- add_object_place_tmp with (d0 := d0).
    destruct src as [path|buffer].
    - apply source_bytes_read in Hsrc.
      destruct (String.eqb_spec path "") as [->|_]; [congruence|].
      erewrite bind_ok; [reflexivity|].
      rewrite (bind_ok _ _ _ _ _
                 (lift_fst_eq _ _ d0 _ _ (with_file_read f tmp "" 420 1 path data Hnone Hsrc))).
      rewrite write_chunks. unfold hasher_new. rewrite !read_chunks_concat. reflexivity.
    - simpl in Hsrc. inversion Hsrc; subst buffer.
      erewrite bind_ok; [reflexivity|].
      rewrite (bind_ok _ _ _ _ _ (lift_fst_eq _ _ d0 _ _ (write_tmp f tmp "" 420 1 data))).
      reflexivity. }
  unfold add_object_with.
  destruct src as [path|buffer]; [destruct link_directly; [discriminate Huses|]|];
    rewrite (bind_ok _ _ _ _ _ (lift_fst_eq _ _ d0 _ _ Htmp));
    unfold try_finally; rewrite Hbody; reflexivity.
Qed.
End AddObject.

Lemma unlink_tmp f tmp data mode :
  nodes f !! tmp = None ->
  unlink tmp (with_file f tmp data mode 1) = (f, Ok tt).
Proof.
  intros Hnone. unfold unlink. rewrite with_file_node. unfold drop_link.
  rewrite with_file_inode. unfold with_file. simpl.
  rewrite delete_insert_id by exact Hnone.
  rewrite delete_insert_id by apply fresh_ino_None.
  destruct f; reflexivity.
Qed.




Section AddObjectTheorem.
Context `{Hash}.

Lemma add_object_unfold self digest src link_directly f :
  add_object self digest src link_directly f
  = match add_object_with self src link_directly
            (f, match digest with Some d => d | None => Digest.empty end) with
    | ((f', d), Ok _) => (f', Ok d)
    | ((f', d), Raise FileExistsError) => (f', Ok d)
    | ((f', d), Raise e) =>
        if is_OSError e then (f', Raise (CASCacheError "Failed to hash object" false))
        else (f', Raise e)
    end.
Proof.
  unfold add_object, with_obj, try_except.
  destruct (add_object_with self src link_directly _) as [[f' d] [[]|e]]; [reflexivity|].
  destruct e; reflexivity.
Qed.

(** The body of the [with] block keeps the temporary file's name. *)
Lemma add_object_place_keeps self p tmp h :
  keeps_node (fun s : fs * Digest.t => fst s) p (add_object_place self tmp h).
Proof.
  unfold add_object_place.
  apply keeps_bind; [apply (keeps_get_obj (fun f : fs => f))|]. intros d.
  apply keeps_bind; [apply (keeps_set_obj (fun f : fs => f))|]. intros _.
  apply keeps_bind; [apply (keeps_lift_fst (fun f : fs => f)), keeps_file_size|]. intros n.
  apply keeps_bind; [apply (keeps_set_obj (fun f : fs => f))|]. intros _.
  apply keeps_bind; [apply (keeps_lift_fst (fun f : fs => f)), keeps_makedirs|]. intros _.
  apply (keeps_lift_fst (fun f : fs => f)), keeps_link.
Qed.


End AddObjectTheorem.


(** ** The walk of [_commit_directory] *)

Lemma regular_mode_type perm : Z.land (Z.lor S_IFREG (perm_bits perm)) S_IFMT = S_IFREG.
Proof.
  unfold perm_bits. rewrite Z.land_lor_distr_l, <- Z.land_assoc.
  change (Z.land 4095 S_IFMT) with 0. rewrite Z.land_0_r. reflexivity.
Qed.

(** Testing one bit: equal to the mask, or different from zero. *)
Lemma ixusr_bit mode : (Z.land mode S_IXUSR =? S_IXUSR) = negb (Z.land mode S_IXUSR =? 0).
Proof.
  assert (Hbit : Z.land mode S_IXUSR = if Z.testbit mode 6 then S_IXUSR else 0).
  { apply Z.bits_inj'. intros n Hn. rewrite Z.land_spec.
    change S_IXUSR with (2 ^ 6). rewrite Z.pow2_bits_eqb by lia.
    destruct (Z.eqb_spec 6 n) as [<-|Hne].
    - rewrite andb_true_r. destruct (Z.testbit mode 6); [|reflexivity].
      rewrite Z.pow2_bits_eqb by lia. reflexivity.
    - rewrite andb_false_r. destruct (Z.testbit mode 6).
      + rewrite Z.pow2_bits_eqb by lia. symmetry. apply Z.eqb_neq, Hne.
      + rewrite Z.bits_0. reflexivity. }
  rewrite Hbit. destruct (Z.testbit mode 6); reflexivity.
Qed.

Lemma for_each_raise {S A B} (xs ys : list A) (x : A) (acc acc' : B) (body : B -> A -> M S B)
    s s1 s2 e :
  for_each xs acc body s = (s1, Ok acc') ->
  body acc' x s1 = (s2, Raise e) ->
  for_each (xs ++ x :: ys) acc body s = (s2, Raise e).
Proof.
  intros Hpre Hx. rewrite for_each_app, (bind_ok _ _ _ _ _ Hpre). simpl.
  rewrite (bind_raise _ _ _ _ _ Hx). reflexivity.
Qed.

Section CommitDirectory.
Context `{Hash} `{Codec}.

(** C7.  The walk of [_commit_directory] over a directory [path].  The
    entry names are taken in ascending lexicographic order (a sorted
    permutation of the listing) and folded, one [commit_entry] per name,
    into the Directory that is then stored.  By the kind of the entry at
    [path/name]: a subdirectory is recursed into and appended to
    [directories] with the digest of the recursive call; a regular file
    is handed to [add_object] by its path and appended to [files] with
    the digest returned and the executable bit [(mode & S_IXUSR) != 0]
    of its [lstat] mode; a symlink is appended to [symlinks] with its
    target as read; a socket leaves the Directory and the file system
    as they were; a FIFO, a character device or a block device raises
    [CASCacheError].  An exception of any entry, the one of an
    unsupported type or one raised below a subdirectory, is raised by
    [_commit_directory] and by [commit], which then sets no ref. *)
Theorem commit_entry_classification fuel self path dir_digest f :
  nodes f !! path = Some FDir ->
  let names := sorted (children f path) in
  let rec := _commit_directory fuel self in
  let body := commit_entry self rec path in
  (Sorted String.le names /\ names ≡ₚ children f path)
  /\ _commit_directory (S fuel) self path dir_digest f
     = (let* directory := for_each names Directory.empty body in
        add_object self dir_digest (Buffer (serialize_directory directory)) false) f
  /\ (forall directory name g,
        let full_path := path_join path name in
        match nodes g !! full_path with
        | Some FDir =>
            body directory name g
            = match rec full_path (Some Digest.empty) g with
              | (g', Ok d) =>
                  (g', Ok (Directory.add_directory directory (DirectoryNode.Build name d)))
              | (g', Raise e) => (g', Raise e)
              end
        | Some (FFile i) =>
            forall n, inodes g !! i = Some n ->
            exists mode,
              lstat_mode full_path g = (g, Ok mode)
              /\ body directory name g
                 = match add_object self (Some Digest.empty) (Path full_path) false g with
                   | (g', Ok d) =>
                       (g', Ok (Directory.add_file directory
                                  (FileNode.Build name d (negb (Z.land mode S_IXUSR =? 0)))))
                   | (g', Raise e) => (g', Raise e)
                   end
        | Some (FSymlink target) =>
            body directory name g
            = (g, Ok (Directory.add_symlink directory (SymlinkNode.Build name target)))
        | Some FSocket => body directory name g = (g, Ok directory)
        | Some FFifo | Some FCharDev | Some FBlockDev =>
            body directory name g = (g, Raise (CASCacheError "Unsupported file type" false))
        | None => body directory name g = (g, Raise FileNotFoundError)
        end)
  /\ (forall xs name ys directory g g' e,
        names = (xs ++ name :: ys)%list ->
        for_each xs Directory.empty body f = (g, Ok directory) ->
        body directory name g = (g', Raise e) ->
        _commit_directory (S fuel) self path dir_digest f = (g', Raise e)
        /\ forall refs, commit (S fuel) self refs path f = (g', Raise e)).
Proof.
  intros Hdir names rec body.
  assert (Hlist : listdir path f = (f, Ok (children f path)))
    by (unfold listdir; rewrite Hdir; reflexivity).
  assert (Hunfold : forall dd, _commit_directory (S fuel) self path dd f
     = (let* directory := for_each names Directory.empty body in
        add_object self dd (Buffer (serialize_directory directory)) false) f).
  { intros dd. change (_commit_directory (S fuel) self path dd)
      with (let* names := listdir path in
            let* directory := for_each (sorted names) Directory.empty
                                (commit_entry self (_commit_directory fuel self) path) in
            add_object self dd (Buffer (serialize_directory directory)) false).
    rewrite (bind_ok _ _ _ _ _ Hlist). reflexivity. }
  split; [|split; [apply Hunfold|split]].
  - split; [apply Sorted_merge_sort, _ | apply merge_sort_Permutation].
  - intros directory name g full_path. unfold body, commit_entry. fold full_path.
    destruct (nodes g !! full_path) as [[| i | target | | | |]|] eqn:Hnode.
    + assert (Hl : lstat_mode full_path g = (g, Ok (Z.lor S_IFDIR 493)))
        by (unfold lstat_mode; rewrite Hnode; reflexivity).
      rewrite (bind_ok _ _ _ _ _ Hl). reflexivity.
    + intros n Hn.
      assert (Hl : lstat_mode full_path g = (g, Ok (Z.lor S_IFREG (perm_bits (i_mode n)))))
        by (unfold lstat_mode; rewrite Hnode, Hn; reflexivity).
      exists (Z.lor S_IFREG (perm_bits (i_mode n))). split; [exact Hl|].
      rewrite (bind_ok _ _ _ _ _ Hl).
      unfold S_ISDIR, S_ISREG. rewrite regular_mode_type.
      change (S_IFREG =? S_IFDIR) with false. change (S_IFREG =? S_IFREG) with true.
      cbv iota. rewrite ixusr_bit. reflexivity.
    + assert (Hl : lstat_mode full_path g = (g, Ok (Z.lor S_IFLNK 511)))
        by (unfold lstat_mode; rewrite Hnode; reflexivity).
      rewrite (bind_ok _ _ _ _ _ Hl).
      change (S_ISDIR (Z.lor S_IFLNK 511)) with false.
      change (S_ISREG (Z.lor S_IFLNK 511)) with false.
      change (S_ISLNK (Z.lor S_IFLNK 511)) with true. cbv iota.
      unfold bind, readlink. rewrite Hnode. reflexivity.
    + assert (Hl : lstat_mode full_path g = (g, Ok (Z.lor S_IFSOCK 493)))
        by (unfold lstat_mode; rewrite Hnode; reflexivity).
      rewrite (bind_ok _ _ _ _ _ Hl). reflexivity.
    + assert (Hl : lstat_mode full_path g = (g, Ok (Z.lor S_IFIFO 420)))
        by (unfold lstat_mode; rewrite Hnode; reflexivity).
      rewrite (bind_ok _ _ _ _ _ Hl). reflexivity.
    + assert (Hl : lstat_mode full_path g = (g, Ok (Z.lor S_IFCHR 420)))
        by (unfold lstat_mode; rewrite Hnode; reflexivity).
      rewrite (bind_ok _ _ _ _ _ Hl). reflexivity.
    + assert (Hl : lstat_mode full_path g = (g, Ok (Z.lor S_IFBLK 420)))
        by (unfold lstat_mode; rewrite Hnode; reflexivity).
      rewrite (bind_ok _ _ _ _ _ Hl). reflexivity.
    + assert (Hl : lstat_mode full_path g = (g, Raise FileNotFoundError))
        by (unfold lstat_mode; rewrite Hnode; reflexivity).
      rewrite (bind_raise _ _ _ _ _ Hl). reflexivity.
  - intros xs name ys directory g g' e Hnames Hpre Hentry.
    assert (Hloop : for_each names Directory.empty body f = (g', Raise e))
      by (rewrite Hnames; apply (for_each_raise _ _ _ _ _ _ _ _ _ _ Hpre Hentry)).
    assert (Hraise : forall dd, _commit_directory (S fuel) self path dd f = (g', Raise e))
      by (intros dd; rewrite Hunfold; apply (bind_raise _ _ _ _ _ Hloop)).
    split; [apply Hraise|].
    intros refs. unfold commit. apply (bind_raise _ _ _ _ _ (Hraise None)).
Qed.
End CommitDirectory.

(** C7 on S1 with a socket and a FIFO: the listing of [src] starts with
    the socket, and the walk takes the names in order; the socket is
    skipped, the link is recorded with its target, and the FIFO below
    [bin] makes the commit raise. *)
Lemma commit_entry_classification_witness :
  children s7_fs "src" = ["sock"; "a.txt"; "bin"; "link"]
  /\ sorted (children s7_fs "src") = ["a.txt"; "bin"; "link"; "sock"]
  /\ commit_entry cache (_commit_directory 4 cache) "src" Directory.empty "sock" s7_fs
     = (s7_fs, Ok Directory.empty)
  /\ commit_entry cache (_commit_directory 4 cache) "src" Directory.empty "link" s7_fs
     = (s7_fs, Ok (Directory.add_symlink Directory.empty (SymlinkNode.Build "link" "a.txt")))
  /\ snd (commit 5 cache ["r7"] "src" s7_fs) = Raise (CASCacheError "Unsupported file type" false).
Proof.
  assert (Hdir : nodes s7_fs !! "src" = Some FDir) by (vm_compute; reflexivity).
  destruct (commit_entry_classification 4 cache "src" None s7_fs Hdir)
    as (_ & _ & Hentry & Hfail).
  split; [vm_compute; reflexivity|].
  split; [vm_compute; reflexivity|]. split; [|split].
  - pose proof (Hentry Directory.empty "sock" s7_fs) as Hsock. cbv zeta in Hsock.
    assert (Hn : nodes s7_fs !! path_join "src" "sock" = Some FSocket)
      by (vm_compute; reflexivity).
    rewrite Hn in Hsock. exact Hsock.
  - pose proof (Hentry Directory.empty "link" s7_fs) as Hlink. cbv zeta in Hlink.
    assert (Hn : nodes s7_fs !! path_join "src" "link" = Some (FSymlink "a.txt"))
      by (vm_compute; reflexivity).
    rewrite Hn in Hlink. exact Hlink.
  - set (body := commit_entry cache (_commit_directory 4 cache) "src") in *.
    set (directory := Directory.add_file Directory.empty
                        (FileNode.Build "a.txt" (digest_of "hello") false)).
    set (g := fst (for_each ["a.txt"] Directory.empty body s7_fs)).
    assert (Hnames : sorted (children s7_fs "src") = (["a.txt"] ++ "bin" :: ["link"; "sock"])%list)
      by (vm_compute; reflexivity).
    assert (Hpre : snd (for_each ["a.txt"] Directory.empty body s7_fs) = Ok directory)
      by (vm_compute; reflexivity).
    assert (Hbin : snd (body directory "bin" g)
                   = Raise (CASCacheError "Unsupported file type" false))
      by (vm_compute; reflexivity).
    rewrite (proj2 (Hfail ["a.txt"] "bin" ["link"; "sock"] directory g _ _ Hnames
                      (run_eq _ _ _ Hpre) (run_eq _ _ _ Hbin)) ["r7"]).
    reflexivity.
Defined.

(** ** The diff as a merge of sorted trees *)

Lemma str_gt_irrefl a : str_gt a a = false.
Proof.
  destruct (str_gt a a) eqn:Hgt; [|reflexivity].
  pose proof (str_gt_asym _ _ Hgt) as Hlt. congruence.
Qed.

Lemma str_gt_neq a b : str_gt b a = true -> String.eqb a b = false.
Proof.
  intros Hgt. apply String.eqb_neq. intros ->. rewrite str_gt_irrefl in Hgt. discriminate.
Qed.

Lemma str_gt_trans a b c : str_gt c b = true -> str_gt b a = true -> str_gt c a = true.
Proof.
  unfold str_gt, String.ltb. intros Hcb Hba.
  destruct (String.compare b c) eqn:Hbc; try discriminate.
  destruct (String.compare a b) eqn:Hab; try discriminate.
  assert (Hle : String.le a c).
  { transitivity b; unfold String.le, String.leb.
    - rewrite Hab. reflexivity.
    - rewrite Hbc. reflexivity. }
  unfold String.le, String.leb in Hle.
  destruct (String.compare a c) eqn:Hac; [|reflexivity|contradiction].
  apply String.compare_eq_iff in Hac. subst c.
  rewrite String.compare_antisym, Hab in Hbc. discriminate.
Qed.

Lemma ascending_cons a names :
  ascending (a :: names) = true ->
  ascending names = true /\ Forall (fun b => str_gt b a = true) names.
Proof.
  revert a. induction names as [|b names IH]; intros a Hasc.
  - split; [reflexivity | constructor].
  - change (str_gt b a && ascending (b :: names) = true)%bool in Hasc.
    apply andb_prop in Hasc as [Hba Hrest]. split; [exact Hrest|].
    constructor; [exact Hba|].
    destruct (IH b Hrest) as [_ Hall].
    eapply Forall_impl; [exact Hall|]. intros c Hcb. simpl in Hcb.
    exact (str_gt_trans _ _ _ Hcb Hba).
Qed.

Lemma flat_map_Forall_ext {A B} (g h : A -> list B) (l : list A) :
  Forall (fun x => g x = h x) l -> flat_map g l = flat_map h l.
Proof. induction 1 as [|x l Hx _ IH]; simpl; [reflexivity | rewrite Hx, IH; reflexivity]. Qed.

(** *** The files of one level *)

Lemma files_only_in_cons path x files others :
  files_only_in path (x :: files) others
  = (match file_named (FileNode.name x) others with
     | None => [path_join path (FileNode.name x)]
     | Some _ => []
     end ++ files_only_in path files others)%list.
Proof. reflexivity. Qed.

Lemma files_changed_cons path x files others :
  files_changed path (x :: files) others
  = (match file_named (FileNode.name x) others with
     | Some y => if String.eqb (Digest.hash (FileNode.digest x)) (Digest.hash (FileNode.digest y))
                 then [] else [path_join path (FileNode.name x)]
     | None => []
     end ++ files_changed path files others)%list.
Proof. reflexivity. Qed.

Lemma file_named_skip name y others :
  str_gt name (FileNode.name y) = true -> file_named name (y :: others) = file_named name others.
Proof. intros Hgt. unfold file_named. simpl. rewrite (str_gt_neq _ _ Hgt). reflexivity. Qed.

Lemma file_named_head x y others :
  FileNode.name x = FileNode.name y -> file_named (FileNode.name x) (y :: others) = Some y.
Proof. intros ->. unfold file_named. simpl. rewrite String.eqb_refl. reflexivity. Qed.

Lemma file_named_above name others :
  Forall (fun y => str_gt (FileNode.name y) name = true) others -> file_named name others = None.
Proof.
  induction 1 as [|y others Hy _ IH]; [reflexivity|].
  unfold file_named. simpl. rewrite String.eqb_sym, (str_gt_neq _ _ Hy). exact IH.
Qed.

Lemma files_only_in_skip path files y others :
  Forall (fun x => str_gt (FileNode.name x) (FileNode.name y) = true) files ->
  files_only_in path files (y :: others) = files_only_in path files others.
Proof.
  intros Hall. apply flat_map_Forall_ext. eapply Forall_impl; [exact Hall|].
  intros x Hx. simpl in Hx. rewrite (file_named_skip _ _ _ Hx). reflexivity.
Qed.

Lemma files_changed_skip path files y others :
  Forall (fun x => str_gt (FileNode.name x) (FileNode.name y) = true) files ->
  files_changed path files (y :: others) = files_changed path files others.
Proof.
  intros Hall. apply flat_map_Forall_ext. eapply Forall_impl; [exact Hall|].
  intros x Hx. simpl in Hx. rewrite (file_named_skip _ _ _ Hx). reflexivity.
Qed.

Lemma ascending_files x files :
  ascending (map FileNode.name (x :: files)) = true ->
  ascending (map FileNode.name files) = true
  /\ Forall (fun x' => str_gt (FileNode.name x') (FileNode.name x) = true) files.
Proof.
  intros Hasc. apply ascending_cons in Hasc as [Hrest Hall]. split; [exact Hrest|].
  apply Forall_map in Hall. exact Hall.
Qed.

Lemma Forall_above {A} (key : A -> string) (l : list A) a b :
  str_gt a b = true ->
  Forall (fun x => str_gt (key x) a = true) l -> Forall (fun x => str_gt (key x) b = true) l.
Proof.
  intros Hab Hall. eapply Forall_impl; [exact Hall|]. intros x Hx. simpl in Hx.
  exact (str_gt_trans _ _ _ Hx Hab).
Qed.

Lemma diff_app_nil (l : difflists) :
  Diff (added l ++ []) (removed l ++ []) (modified l ++ []) = l.
Proof. destruct l. simpl. rewrite !app_nil_r. reflexivity. Qed.

(** The first loop: the merge of the two sorted lists of files. *)
Lemma diff_files_merge path : forall fa fb l,
  ascending (map FileNode.name fa) = true -> ascending (map FileNode.name fb) = true ->
  diff_files path fa fb l
  = Diff (added l ++ files_only_in path fb fa)
         (removed l ++ files_only_in path fa fb)
         (modified l ++ files_changed path fa fb).
Proof.
  induction fa as [|x fa IHa]; induction fb as [|y fb IHb]; intros l Ha Hb.
  - symmetry. apply diff_app_nil.
  - rewrite diff_files_nil_cons, IHb by (exact Ha || apply (ascending_files _ _ Hb)).
    rewrite files_only_in_cons. simpl. rewrite <- app_assoc. reflexivity.
  - rewrite diff_files_cons_nil, IHa by (exact Hb || apply (ascending_files _ _ Ha)).
    rewrite files_only_in_cons. simpl. rewrite <- app_assoc. reflexivity.
  - destruct (ascending_files _ _ Ha) as [Ha' Hxa].
    destruct (ascending_files _ _ Hb) as [Hb' Hyb].
    rewrite diff_files_cons_cons.
    destruct (str_gt (FileNode.name x) (FileNode.name y)) eqn:Hxy;
      [|destruct (str_gt (FileNode.name y) (FileNode.name x)) eqn:Hyx].
    + assert (Hall : Forall (fun x' => str_gt (FileNode.name x') (FileNode.name y) = true)
                       (x :: fa))
        by (constructor; [exact Hxy | exact (Forall_above _ _ _ _ Hxy Hxa)]).
      rewrite IHb by assumption.
      rewrite (files_only_in_cons path y), (file_named_above _ _ Hall).
      rewrite (files_only_in_skip _ _ _ _ Hall), (files_changed_skip _ _ _ _ Hall).
      simpl. rewrite <- app_assoc. reflexivity.
    + assert (Hall : Forall (fun y' => str_gt (FileNode.name y') (FileNode.name x) = true)
                       (y :: fb))
        by (constructor; [exact Hyx | exact (Forall_above _ _ _ _ Hyx Hyb)]).
      rewrite IHa by assumption.
      rewrite (files_only_in_cons path x), (files_changed_cons path x),
        (file_named_above _ _ Hall).
      rewrite (files_only_in_skip _ _ _ _ Hall).
      simpl. rewrite <- app_assoc. reflexivity.
    + assert (Hname : FileNode.name x = FileNode.name y) by (apply str_gt_total; assumption).
      rewrite IHa by assumption.
      rewrite (files_only_in_cons path y), (files_only_in_cons path x),
        (files_changed_cons path x).
      rewrite (file_named_head x y fb Hname), (file_named_head y x fa (eq_sym Hname)).
      rewrite (files_only_in_skip path fb x fa) by (rewrite Hname; exact Hyb).
      rewrite (files_only_in_skip path fa y fb) by (rewrite <- Hname; exact Hxa).
      rewrite (files_changed_skip path fa y fb) by (rewrite <- Hname; exact Hxa).
      destruct (String.eqb (Digest.hash (FileNode.digest x)) (Digest.hash (FileNode.digest y)));
        simpl; [reflexivity|]. rewrite <- app_assoc. reflexivity.
Qed.

(** *** The subdirectories of one level *)

Lemma extend_extend l a r m a' r' m' :
  extend (extend l a r m) a' r' m' = extend l (a ++ a') (r ++ r') (m ++ m').
Proof. unfold extend. simpl. rewrite <- !app_assoc. reflexivity. Qed.

Lemma extend_nil l : extend l [] [] [] = l.
Proof. apply diff_app_nil. Qed.

Lemma only_in_unfold path files dirs other :
  only_in path (Tree files dirs) other
  = (files_only_in path files (tree_files other) ++ dirs_only_in path dirs (tree_dirs other))%list.
Proof. reflexivity. Qed.

Lemma changed_unfold path files dirs other :
  changed path (Tree files dirs) other
  = (files_changed path files (tree_files other) ++ dirs_changed path dirs (tree_dirs other))%list.
Proof. reflexivity. Qed.

Lemma files_only_in_nil path files :
  files_only_in path files [] = map (fun x => path_join path (FileNode.name x)) files.
Proof. induction files as [|x files IH]; [reflexivity|]. rewrite files_only_in_cons, IH. reflexivity. Qed.

Lemma files_changed_nil path files : files_changed path files [] = [].
Proof. induction files as [|x files IH]; [reflexivity|]. rewrite files_changed_cons, IH. reflexivity. Qed.

Lemma dirs_changed_nil path dirs : dirs_changed path dirs [] = [].
Proof.
  induction dirs as [|[x sub] dirs IH]; [reflexivity|].
  unfold dirs_changed in *. simpl. exact IH.
Qed.

(** What only a tree has when the other one is empty: all its files. *)
Lemma only_in_empty path t : only_in path t empty_tree = all_files path t.
Proof.
  destruct t as [files dirs]. rewrite only_in_unfold. simpl tree_files. simpl tree_dirs. rewrite files_only_in_nil.
  change (all_files path (Tree files dirs))
    with (map (fun x => path_join path (FileNode.name x)) files
          ++ flat_map (fun d => match d with
                                | (x, sub) => all_files (path_join path (DirectoryNode.name x)) sub
                                end) dirs)%list.
  apply (f_equal (app _)). unfold dirs_only_in. apply flat_map_Forall_ext.
  apply List.Forall_forall. intros [x sub] _. reflexivity.
Qed.

Lemma changed_empty path t : changed path t empty_tree = [].
Proof.
  destruct t as [files dirs]. rewrite changed_unfold. simpl.
  rewrite files_changed_nil, dirs_changed_nil. reflexivity.
Qed.

Lemma dirs_only_in_cons path x sub dirs others :
  dirs_only_in path ((x, sub) :: dirs) others
  = (match dir_named (DirectoryNode.name x) others with
     | None => all_files (path_join path (DirectoryNode.name x)) sub
     | Some (y, sub') =>
         if String.eqb (Digest.hash (DirectoryNode.digest x)) (Digest.hash (DirectoryNode.digest y))
         then [] else only_in (path_join path (DirectoryNode.name x)) sub sub'
     end ++ dirs_only_in path dirs others)%list.
Proof. reflexivity. Qed.

Lemma dirs_changed_cons path x sub dirs others :
  dirs_changed path ((x, sub) :: dirs) others
  = (match dir_named (DirectoryNode.name x) others with
     | None => []
     | Some (y, sub') =>
         if String.eqb (Digest.hash (DirectoryNode.digest x)) (Digest.hash (DirectoryNode.digest y))
         then [] else changed (path_join path (DirectoryNode.name x)) sub sub'
     end ++ dirs_changed path dirs others)%list.
Proof. reflexivity. Qed.

Lemma dir_named_skip name d others :
  str_gt name (DirectoryNode.name (fst d)) = true ->
  dir_named name (d :: others) = dir_named name others.
Proof. intros Hgt. unfold dir_named. simpl. rewrite (str_gt_neq _ _ Hgt). reflexivity. Qed.

Lemma dir_named_head x d others :
  DirectoryNode.name x = DirectoryNode.name (fst d) ->
  dir_named (DirectoryNode.name x) (d :: others) = Some d.
Proof. intros ->. unfold dir_named. simpl. rewrite String.eqb_refl. reflexivity. Qed.

Lemma dir_named_above name others :
  Forall (fun d => str_gt (DirectoryNode.name (fst d)) name = true) others ->
  dir_named name others = None.
Proof.
  induction 1 as [|d others Hd _ IH]; [reflexivity|].
  unfold dir_named. simpl. rewrite String.eqb_sym, (str_gt_neq _ _ Hd). exact IH.
Qed.

Lemma dirs_only_in_skip path dirs d others :
  Forall (fun x => str_gt (DirectoryNode.name (fst x)) (DirectoryNode.name (fst d)) = true) dirs ->
  dirs_only_in path dirs (d :: others) = dirs_only_in path dirs others.
Proof.
  intros Hall. apply flat_map_Forall_ext. eapply Forall_impl; [exact Hall|].
  intros [x sub] Hx. simpl in Hx. rewrite (dir_named_skip _ _ _ Hx). reflexivity.
Qed.

Lemma dirs_changed_skip path dirs d others :
  Forall (fun x => str_gt (DirectoryNode.name (fst x)) (DirectoryNode.name (fst d)) = true) dirs ->
  dirs_changed path dirs (d :: others) = dirs_changed path dirs others.
Proof.
  intros Hall. apply flat_map_Forall_ext. eapply Forall_impl; [exact Hall|].
  intros [x sub] Hx. simpl in Hx. rewrite (dir_named_skip _ _ _ Hx). reflexivity.
Qed.

Lemma ascending_dirs (d : DirectoryNode.t * tree) dirs :
  ascending (map (fun d => DirectoryNode.name (fst d)) (d :: dirs)) = true ->
  ascending (map (fun d => DirectoryNode.name (fst d)) dirs) = true
  /\ Forall (fun d' => str_gt (DirectoryNode.name (fst d')) (DirectoryNode.name (fst d)) = true)
       dirs.
Proof.
  intros Hasc. apply ascending_cons in Hasc as [Hrest Hall]. split; [exact Hrest|].
  apply Forall_map in Hall. exact Hall.
Qed.

Section DiffDirsMerge.
Context `{Codec}.
Variables (fuel : nat) (self : CASCache) (f : fs).
Variable rec : option Digest.t -> option Digest.t -> string -> difflists -> M fs difflists.

(** The recursive call does on loaded, sorted trees what the
    specification says. *)
Hypothesis Hrec : forall oa ob ta tb p l,
  load_optional_tree fuel self f oa = Some ta ->
  load_optional_tree fuel self f ob = Some tb ->
  sorted_tree ta = true -> sorted_tree tb = true ->
  rec oa ob p l f = (f, Ok (extend l (only_in p tb ta) (only_in p ta tb) (changed p ta tb))).

Local Abbreviation loaded := (loaded_dir fuel self f).

Lemma rec_only_b y sub p l :
  loaded (y, sub) ->
  rec None (Some (DirectoryNode.digest y)) p l f = (f, Ok (extend l (all_files p sub) [] [])).
Proof.
  intros [Hload Hsorted].
  rewrite (Hrec None (Some (DirectoryNode.digest y)) empty_tree sub p l eq_refl Hload
             eq_refl Hsorted).
  rewrite only_in_empty. reflexivity.
Qed.

Lemma rec_only_a x sub p l :
  loaded (x, sub) ->
  rec (Some (DirectoryNode.digest x)) None p l f = (f, Ok (extend l [] (all_files p sub) [])).
Proof.
  intros [Hload Hsorted].
  rewrite (Hrec (Some (DirectoryNode.digest x)) None sub empty_tree p l Hload eq_refl
             Hsorted eq_refl).
  rewrite only_in_empty, changed_empty. reflexivity.
Qed.

(** The second loop: the merge of the two sorted lists of
    subdirectories. *)
Lemma diff_dirs_merge path : forall da db l,
  ascending (map (fun d => DirectoryNode.name (fst d)) da) = true ->
  ascending (map (fun d => DirectoryNode.name (fst d)) db) = true ->
  Forall loaded da -> Forall loaded db ->
  diff_dirs rec path (map fst da) (map fst db) l f
  = (f, Ok (extend l (dirs_only_in path db da) (dirs_only_in path da db)
              (dirs_changed path da db))).
Proof.
  induction da as [|[x suba] da IHa]; induction db as [|[y subb] db IHb];
    intros l Ha Hb Hla Hlb.
  - simpl. rewrite extend_nil. reflexivity.
  - simpl map. rewrite diff_dirs_nil_cons.
    rewrite (bind_ok _ _ _ _ _ (rec_only_b y subb _ l (Forall_inv Hlb))).
    rewrite IHb by (assumption || apply (ascending_dirs _ _ Hb) || exact (Forall_inv_tail Hlb)).
    rewrite extend_extend, dirs_only_in_cons. reflexivity.
  - simpl map. rewrite diff_dirs_cons_nil.
    rewrite (bind_ok _ _ _ _ _ (rec_only_a x suba _ l (Forall_inv Hla))).
    specialize (IHa [] (extend l [] (all_files (path_join path (DirectoryNode.name x)) suba) [])).
    simpl map in IHa.
    rewrite IHa by (assumption || apply (ascending_dirs _ _ Ha) || exact (Forall_inv_tail Hla)).
    rewrite extend_extend, dirs_only_in_cons, dirs_changed_cons. reflexivity.
  - destruct (ascending_dirs _ _ Ha) as [Ha' Hxa].
    destruct (ascending_dirs _ _ Hb) as [Hb' Hyb]. simpl fst in Hxa, Hyb.
    pose proof (Forall_inv Hla) as Hx. pose proof (Forall_inv_tail Hla) as Hla'.
    pose proof (Forall_inv Hlb) as Hy. pose proof (Forall_inv_tail Hlb) as Hlb'.
    simpl map. rewrite diff_dirs_cons_cons.
    destruct (str_gt (DirectoryNode.name x) (DirectoryNode.name y)) eqn:Hxy;
      [|destruct (str_gt (DirectoryNode.name y) (DirectoryNode.name x)) eqn:Hyx].
    + assert (Hall : Forall (fun d => str_gt (DirectoryNode.name (fst d))
                                        (DirectoryNode.name y) = true)
                       ((x, suba) :: da))
        by (constructor; [exact Hxy | exact (Forall_above _ _ _ _ Hxy Hxa)]).
      rewrite (bind_ok _ _ _ _ _ (rec_only_b y subb _ l Hy)).
      specialize (IHb (extend l (all_files (path_join path (DirectoryNode.name y)) subb) [] [])
                    Ha Hb' Hla Hlb').
      simpl map in IHb. rewrite IHb.
      rewrite extend_extend, (dirs_only_in_cons path y), (dir_named_above _ _ Hall).
      rewrite (dirs_only_in_skip path _ (y, subb) _ Hall),
        (dirs_changed_skip path _ (y, subb) _ Hall).
      reflexivity.
    + assert (Hall : Forall (fun d => str_gt (DirectoryNode.name (fst d))
                                        (DirectoryNode.name x) = true)
                       ((y, subb) :: db))
        by (constructor; [exact Hyx | exact (Forall_above _ _ _ _ Hyx Hyb)]).
      rewrite (bind_ok _ _ _ _ _ (rec_only_a x suba _ l Hx)).
      specialize (IHa ((y, subb) :: db)
                    (extend l [] (all_files (path_join path (DirectoryNode.name x)) suba) [])
                    Ha' Hb Hla' Hlb).
      simpl map in IHa. rewrite IHa.
      rewrite extend_extend, (dirs_only_in_cons path x), (dirs_changed_cons path x),
        (dir_named_above _ _ Hall).
      rewrite (dirs_only_in_skip path _ (x, suba) _ Hall).
      reflexivity.
    + assert (Hname : DirectoryNode.name x = DirectoryNode.name y)
        by (apply str_gt_total; assumption).
      rewrite (dirs_only_in_cons path y), (dirs_only_in_cons path x),
        (dirs_changed_cons path x).
      rewrite (dir_named_head x (y, subb) db Hname),
        (dir_named_head y (x, suba) da (eq_sym Hname)).
      rewrite (dirs_only_in_skip path db (x, suba) da) by (simpl; rewrite Hname; exact Hyb).
      rewrite (dirs_only_in_skip path da (y, subb) db) by (simpl; rewrite <- Hname; exact Hxa).
      rewrite (dirs_changed_skip path da (y, subb) db) by (simpl; rewrite <- Hname; exact Hxa).
      rewrite (String.eqb_sym (Digest.hash (DirectoryNode.digest y))).
      rewrite <- Hname.
      destruct (String.eqb (Digest.hash (DirectoryNode.digest x))
                  (Digest.hash (DirectoryNode.digest y))); cbn [negb].
      * rewrite bind_ret. rewrite (IHa db l Ha' Hb' Hla' Hlb'). reflexivity.
      * destruct Hx as [Hloadx Hsx], Hy as [Hloady Hsy]. simpl in Hloadx, Hloady, Hsx, Hsy.
        rewrite (bind_ok _ _ _ _ _
                   (Hrec (Some (DirectoryNode.digest x)) (Some (DirectoryNode.digest y))
                      suba subb _ l Hloadx Hloady Hsx Hsy)).
        rewrite (IHa db _ Ha' Hb' Hla' Hlb'), extend_extend. reflexivity.
Qed.
End DiffDirsMerge.

Section DiffMerge.
Context `{Codec}.

Lemma load_dirs_inv fuel self f (nodes : list DirectoryNode.t) dirs :
  mapM (fun d => match load_tree fuel self f (DirectoryNode.digest d) with
                 | Some sub => Some (d, sub)
                 | None => None
                 end) nodes = Some dirs ->
  nodes = map fst dirs
  /\ Forall (fun d => load_tree fuel self f (DirectoryNode.digest (fst d)) = Some (snd d)) dirs.
Proof.
  intros Hload. apply mapM_Some in Hload.
  induction Hload as [|d [d' sub] nodes dirs Hd _ [IHnodes IHdirs]].
  - split; [reflexivity | constructor].
  - destruct (load_tree fuel self f (DirectoryNode.digest d)) as [sub'|] eqn:Hsub;
      [|discriminate].
    injection Hd as <- <-. split.
    + simpl. rewrite <- IHnodes. reflexivity.
    + constructor; [exact Hsub | exact IHdirs].
Qed.

(** A loaded tree is the decoded Directory of its digest, with the
    trees of its subdirectories loaded one level below. *)
Lemma load_optional_tree_inv fuel self f o t :
  load_optional_tree fuel self f o = Some t ->
  exists directory,
    read_optional_directory self o f = (f, Ok directory)
    /\ Directory.files directory = tree_files t
    /\ Directory.directories directory = map fst (tree_dirs t)
    /\ Forall (fun d => load_tree (pred fuel) self f (DirectoryNode.digest (fst d))
                        = Some (snd d)) (tree_dirs t).
Proof.
  destruct o as [digest|]; simpl.
  - destruct fuel as [|fuel]; [discriminate|]. simpl.
    destruct (read_directory self digest f) as [f' [directory|e]] eqn:Hread; [|discriminate].
    pose proof (read_directory_state _ _ _ _ _ Hread) as ->.
    destruct (mapM _ (Directory.directories directory)) as [dirs|] eqn:Hdirs; [|discriminate].
    intros Ht. injection Ht as <-. exists directory.
    destruct (load_dirs_inv _ _ _ _ _ Hdirs) as [Hnodes Hall].
    split; [reflexivity|]. split; [reflexivity|]. split; [exact Hnodes | exact Hall].
  - intros Ht. injection Ht as <-. exists Directory.empty.
    split; [reflexivity|]. split; [reflexivity|]. split; [reflexivity | constructor].
Qed.

Lemma sorted_tree_inv t :
  sorted_tree t = true ->
  ascending (map FileNode.name (tree_files t)) = true
  /\ ascending (map (fun d => DirectoryNode.name (fst d)) (tree_dirs t)) = true
  /\ Forall (fun d => sorted_tree (snd d) = true) (tree_dirs t).
Proof.
  destruct t as [files dirs]. simpl. intros Hsorted.
  apply andb_prop in Hsorted as [Hsorted Hsub].
  apply andb_prop in Hsorted as [Hfiles Hdirs].
  split; [exact Hfiles|]. split; [exact Hdirs|].
  apply List.Forall_forall. intros [x sub] Hin.
  rewrite forallb_forall in Hsub. exact (Hsub _ Hin).
Qed.

Lemma loaded_dirs fuel self f t :
  Forall (fun d => load_tree fuel self f (DirectoryNode.digest (fst d)) = Some (snd d))
    (tree_dirs t) ->
  sorted_tree t = true ->
  Forall (loaded_dir fuel self f) (tree_dirs t).
Proof.
  intros Hload Hsorted. destruct (sorted_tree_inv _ Hsorted) as (_ & _ & Hsub).
  apply List.Forall_forall. intros d Hin. rewrite List.Forall_forall in Hload, Hsub.
  split; [exact (Hload _ Hin) | exact (Hsub _ Hin)].
Qed.

(** [_diff_trees] on two loaded, sorted trees: one more unit of fuel
    than their depth makes it return, with the lists of the
    specification appended. *)
Lemma _diff_trees_merge self f : forall fuel oa ob ta tb path l,
  load_optional_tree fuel self f oa = Some ta ->
  load_optional_tree fuel self f ob = Some tb ->
  sorted_tree ta = true -> sorted_tree tb = true ->
  _diff_trees (S fuel) self oa ob path l f
  = (f, Ok (extend l (only_in path tb ta) (only_in path ta tb) (changed path ta tb))).
Proof.
  induction fuel as [|fuel IH]; intros oa ob ta tb path l Hta Htb Hsa Hsb.
  - destruct oa as [da|]; [discriminate Hta|]. destruct ob as [db|]; [discriminate Htb|].
    simpl in Hta, Htb. injection Hta as <-. injection Htb as <-.
    simpl. rewrite extend_nil. reflexivity.
  - destruct (load_optional_tree_inv _ _ _ _ _ Hta) as (dir_a & Hra & Hfa & Hda & Hla).
    destruct (load_optional_tree_inv _ _ _ _ _ Htb) as (dir_b & Hrb & Hfb & Hdb & Hlb).
    destruct (sorted_tree_inv _ Hsa) as (Hafiles & Hadirs & _).
    destruct (sorted_tree_inv _ Hsb) as (Hbfiles & Hbdirs & _).
    change (_diff_trees (S (S fuel)) self oa ob path l)
      with (let* dir_a := read_optional_directory self oa in
            let* dir_b := read_optional_directory self ob in
            let l := diff_files path (Directory.files dir_a) (Directory.files dir_b) l in
            diff_dirs (_diff_trees (S fuel) self) path
              (Directory.directories dir_a) (Directory.directories dir_b) l).
    rewrite (bind_ok _ _ _ _ _ Hra), (bind_ok _ _ _ _ _ Hrb). cbv zeta.
    rewrite Hfa, Hfb, Hda, Hdb.
    rewrite (diff_files_merge path _ _ l Hafiles Hbfiles).
    rewrite (diff_dirs_merge fuel self f (_diff_trees (S fuel) self) IH path _ _ _
               Hadirs Hbdirs (loaded_dirs _ _ _ _ Hla Hsa) (loaded_dirs _ _ _ _ Hlb Hsb)).
    destruct ta as [fa da'], tb as [fb db']. rewrite !only_in_unfold, changed_unfold.
    cbn [tree_files tree_dirs].
    fold (extend l (files_only_in path fb fa) (files_only_in path fa fb)
            (files_changed path fa fb)).
    rewrite extend_extend. reflexivity.
Qed.

(** C2.  [diff(ref_a, ref_b)] on two trees as commits store them, each
    level sorted by name: with one more unit of fuel than the trees are
    deep, [diff] returns [(modified, removed, added)] where [added] has
    the files that only B has, [removed] the files that only A has, and
    [modified] the files of one name in both whose hashes differ; a
    subdirectory of only one tree counts with all its files, one of
    both trees is compared in the same way unless its two digests have
    one hash, and is then skipped.  The file system is left as it
    was. *)
Theorem diff_merge fuel self ref_a ref_b subdir f root_a root_b tree_a tree_b ta tb :
  resolve_ref self ref_a f = (f, Ok root_a) ->
  resolve_ref self ref_b f = (f, Ok root_b) ->
  diff_root self root_a subdir f = (f, Ok tree_a) ->
  diff_root self root_b subdir f = (f, Ok tree_b) ->
  load_tree fuel self f tree_a = Some ta ->
  load_tree fuel self f tree_b = Some tb ->
  sorted_tree ta = true -> sorted_tree tb = true ->
  diff (S fuel) self ref_a ref_b subdir f = (f, Ok (diff_spec ta tb)).
Proof.
  intros Hra Hrb Hsa Hsb Hta Htb Hsorted_a Hsorted_b. unfold diff.
  rewrite (bind_ok _ _ _ _ _ Hra), (bind_ok _ _ _ _ _ Hrb).
  fold (diff_root self root_a subdir). rewrite (bind_ok _ _ _ _ _ Hsa).
  fold (diff_root self root_b subdir). rewrite (bind_ok _ _ _ _ _ Hsb).
  rewrite (bind_ok _ _ _ _ _
             (_diff_trees_merge self f fuel (Some tree_a) (Some tree_b) ta tb ""
                (Diff [] [] []) Hta Htb Hsorted_a Hsorted_b)).
  reflexivity.
Qed.
End DiffMerge.

(** C2 on S3: Tree A = {a.txt: 1, b.txt: 2} and Tree B = {a.txt: 1,
    b.txt: modified, c.txt: 3} give modified [b.txt], removed nothing and
    added [c.txt]. *)
Lemma diff_merge_witness :
  diff 5 cache "A" "B" None s3_fs = (s3_fs, Ok (["b.txt"], [], ["c.txt"])).
Proof.
  refine (diff_merge 4 cache "A" "B" None s3_fs s3_root_a s3_root_b s3_root_a s3_root_b
            s3_tree_a s3_tree_b _ _ eq_refl eq_refl _ _ _ _).
  - apply resolve_ref_run. vm_compute. reflexivity.
  - apply resolve_ref_run. vm_compute. reflexivity.
  - vm_compute. reflexivity.
  - vm_compute. reflexivity.
  - vm_compute. reflexivity.
  - vm_compute. reflexivity.
Defined.

(** ** Round trip and pruning on two trees *)

(** C1.  The round trip on a tree of two files with the same bytes, [a]
    executable and [b] not.  The commit records the two executable bits
    as they are (modes 0100755 and 0100644); one blob holds the bytes of
    both, the checkout links both names to it and its [chmod] for [a]
    changes the mode of that one file: in the extracted tree [b] is
    executable too, which it is not in the tree committed. *)
Theorem extract_twins_executable :
  snd (lstat_mode "t/a" twins_fs) = Ok 33261
  /\ snd (lstat_mode "t/b" twins_fs) = Ok 33188
  /\ snd ((let* tree := resolve_ref cache "r" in
           let* directory := read_directory cache tree in
           ret (map (fun x => (FileNode.name x, FileNode.is_executable x))
                  (Directory.files directory))) twins_fs)
     = Ok [("a", true); ("b", false)]
  /\ snd ((let* dest := extract 5 cache "r" "out" None in
           lstat_mode (path_join dest "a")) twins_fs) = Ok 33261
  /\ snd ((let* dest := extract 5 cache "r" "out" None in
           lstat_mode (path_join dest "b")) twins_fs) = Ok 33261.
Proof.
  split; [vm_compute; reflexivity|]. split; [vm_compute; reflexivity|].
  split; [vm_compute; reflexivity|]. split; vm_compute; reflexivity.
Qed.

(** C5.  Pruning a cache whose only ref holds a subdirectory [d] with
    one file [x] and, next to [d], a file [f] with the bytes of the
    serialised Directory of [d].  The walk of the root adds the hash of
    [f] to the reachable set before it comes to [d], finds the hash of [d]
    there and returns without reading [d]: the blob of [x], five bytes that
    the tree of the ref needs, is unlinked and counted as pruned, and the
    ref, which extracted before, no longer does. *)
Theorem prune_shadowed_directory :
  exists_ shadow_fs (objpath cache (digest_of "hello")) = true
  /\ snd ((let* tree := resolve_ref cache "r" in
           let* root := read_directory cache tree in
           for_each (Directory.directories root) []
             (fun acc dirnode =>
                let* directory := read_directory cache (DirectoryNode.digest dirnode) in
                ret (acc ++ map FileNode.digest (Directory.files directory))%list)) shadow_fs)
     = Ok [digest_of "hello"]
  /\ match snd (extract 5 cache "r" "out" None shadow_fs) with Ok _ => True | Raise _ => False end
  /\ snd (prune 5 cache shadow_fs) = Ok 5
  /\ exists_ (fst (prune 5 cache shadow_fs)) (objpath cache (digest_of "hello")) = false
  /\ snd ((prune 5 cache ;;; extract 5 cache "r" "out" None) shadow_fs)
     = Raise FileNotFoundError.
Proof.
  split; [vm_compute; reflexivity|]. split; [vm_compute; reflexivity|].
  split; [vm_compute; exact I|]. split; [vm_compute; reflexivity|].
  split; vm_compute; reflexivity.
Qed.

(** ** The order of the entries that a commit stores *)

Lemma leb_neq_ltb a b : String.leb a b = true -> a <> b -> str_gt b a = true.
Proof.
  unfold str_gt, String.leb, String.ltb.
  destruct (String.compare a b) eqn:Hc; intros Hle Hne; try reflexivity; try discriminate.
  apply String.compare_eq_iff in Hc. contradiction.
Qed.

(** A sorted list without a name twice is strictly ascending. *)
Lemma sorted_nodup_ascending names :
  Sorted String.le names -> NoDup names -> ascending names = true.
Proof.
  induction 1 as [|a names Hsorted IH Hhd]; intros Hnodup; [reflexivity|].
  destruct names as [|b names]; [reflexivity|].
  change (str_gt b a && ascending (b :: names) = true)%bool.
  apply NoDup_cons in Hnodup as [Hnotin Hnodup].
  rewrite (IH Hnodup), andb_true_r.
  apply HdRel_inv in Hhd. apply leb_neq_ltb.
  - unfold String.le in Hhd. destruct (String.leb a b); [reflexivity | contradiction].
  - intros ->. apply Hnotin. left.
Qed.

Lemma omap_nodup {A B} (g : A -> option B) (l : list A) :
  (forall x y b, g x = Some b -> g y = Some b -> x = y) ->
  NoDup l -> NoDup (omap g l).
Proof.
  intros Hinj. induction 1 as [|x l Hnotin Hnodup IH]; [constructor|].
  simpl. destruct (g x) as [b|] eqn:Hgx; [|exact IH].
  constructor; [|exact IH].
  intros Hin. apply list_elem_of_omap in Hin as (y & Hy & Hgy).
  rewrite (Hinj x y b Hgx Hgy) in Hnotin. contradiction.
Qed.

(** The listing of a directory has no name twice: a name determines the
    path of its entry. *)
Lemma children_nodup f p : NoDup (children f p).
Proof.
  unfold children. apply omap_nodup.
  - intros k1 k2 b Hk1 Hk2.
    destruct (_ && _ && String.eqb (path_join p (basename k1)) k1)%bool eqn:H1; [|discriminate].
    destruct (_ && _ && String.eqb (path_join p (basename k2)) k2)%bool eqn:H2; [|discriminate].
    apply andb_prop in H1 as [_ H1]. apply andb_prop in H2 as [_ H2].
    apply String.eqb_eq in H1, H2. injection Hk1 as Hb1. injection Hk2 as Hb2.
    rewrite <- H1, <- H2, Hb1, Hb2. reflexivity.
  - change (NoDup (map_to_list (nodes f)).*1). apply NoDup_fst_map_to_list.
Qed.

(** [sorted(os.listdir(path))]: strictly ascending. *)
Lemma sorted_children_ascending f p : ascending (sorted (children f p)) = true.
Proof.
  apply sorted_nodup_ascending; [apply Sorted_merge_sort, _|].
  unfold sorted. rewrite merge_sort_Permutation. apply children_nodup.
Qed.

Lemma ascending_snoc names x :
  ascending names = true -> all_below names x -> ascending (names ++ [x]) = true.
Proof.
  induction names as [|a names IH]; intros Hasc Hbelow; [reflexivity|].
  destruct names as [|b names].
  - simpl. apply Forall_inv in Hbelow. rewrite Hbelow. reflexivity.
  - change (str_gt b a && ascending (b :: names) = true)%bool in Hasc.
    apply andb_prop in Hasc as [Hba Hrest].
    change (str_gt b a && ascending ((b :: names) ++ [x]) = true)%bool.
    rewrite Hba. apply IH; [exact Hrest | exact (Forall_inv_tail Hbelow)].
Qed.

(** One more name, taken from the head of those to come, keeps a list in
    order. *)
Lemma in_order_step names name rest names' :
  ascending (name :: rest) = true ->
  in_order names (name :: rest) ->
  names' = names \/ names' = (names ++ [name])%list ->
  in_order names' rest.
Proof.
  intros Hasc [Hnames Hall] [-> | ->].
  - split; [exact Hnames | exact (Forall_inv_tail Hall)].
  - destruct (ascending_cons _ _ Hasc) as [_ Habove]. split.
    + apply ascending_snoc; [exact Hnames | exact (Forall_inv Hall)].
    + apply Forall_forall. intros y Hy.
      apply Forall_app. split.
      * exact (proj1 (Forall_forall _ _) (Forall_inv_tail Hall) y Hy).
      * constructor; [|constructor].
        exact (proj1 (Forall_forall _ _) Habove y Hy).
Qed.

Section CommitOrder.
Context `{Hash} `{Codec}.

(** An iteration appends its name to at most one of the three lists. *)
Lemma commit_entry_names self rec path directory name g g' directory' :
  commit_entry self rec path directory name g = (g', Ok directory') ->
  (map FileNode.name (Directory.files directory')
   = map FileNode.name (Directory.files directory)
   \/ map FileNode.name (Directory.files directory')
      = (map FileNode.name (Directory.files directory) ++ [name])%list)
  /\ (map DirectoryNode.name (Directory.directories directory')
      = map DirectoryNode.name (Directory.directories directory)
      \/ map DirectoryNode.name (Directory.directories directory')
         = (map DirectoryNode.name (Directory.directories directory) ++ [name])%list)
  /\ (map SymlinkNode.name (Directory.symlinks directory')
      = map SymlinkNode.name (Directory.symlinks directory)
      \/ map SymlinkNode.name (Directory.symlinks directory')
         = (map SymlinkNode.name (Directory.symlinks directory) ++ [name])%list).
Proof.
  unfold commit_entry. intros Hentry.
  apply bind_inv_ok in Hentry as (g1 & mode & _ & Hentry).
  destruct (S_ISDIR mode).
  { apply bind_inv_ok in Hentry as (g2 & d & _ & Hentry). injection Hentry as _ <-.
    simpl. rewrite map_app. auto. }
  destruct (S_ISREG mode).
  { apply bind_inv_ok in Hentry as (g2 & d & _ & Hentry). injection Hentry as _ <-.
    simpl. rewrite map_app. auto. }
  destruct (S_ISLNK mode).
  { apply bind_inv_ok in Hentry as (g2 & target & _ & Hentry). injection Hentry as _ <-.
    simpl. rewrite map_app. auto. }
  destruct (S_ISSOCK mode); [|discriminate Hentry].
  injection Hentry as _ <-. auto.
Qed.

Lemma commit_loop_in_order self rec path : forall names acc g g' directory,
  ascending names = true ->
  directory_in_order acc names ->
  for_each names acc (commit_entry self rec path) g = (g', Ok directory) ->
  directory_in_order directory [].
Proof.
  induction names as [|name names IH]; intros acc g g' directory Hasc Hinv Hloop.
  - injection Hloop as _ <-. exact Hinv.
  - simpl in Hloop. apply bind_inv_ok in Hloop as (g1 & acc' & Hentry & Hloop).
    destruct (commit_entry_names _ _ _ _ _ _ _ _ Hentry) as (Hfiles & Hdirs & Hlinks).
    destruct Hinv as (Hf & Hd & Hl).
    apply (IH acc' g1 g' directory (proj1 (ascending_cons _ _ Hasc))); [|exact Hloop].
    split; [|split].
    + exact (in_order_step _ name names _ Hasc Hf Hfiles).
    + exact (in_order_step _ name names _ Hasc Hd Hdirs).
    + exact (in_order_step _ name names _ Hasc Hl Hlinks).
Qed.

(** The Directory that [_commit_directory] builds and stores lists its
    files, its subdirectories and its symlinks by name in strictly
    ascending order: the order that the merge of [diff] relies on. *)
Theorem commit_directory_sorted fuel self path dir_digest f f' digest :
  _commit_directory (S fuel) self path dir_digest f = (f', Ok digest) ->
  exists g directory,
    for_each (sorted (children f path)) Directory.empty
      (commit_entry self (_commit_directory fuel self) path) f = (g, Ok directory)
    /\ add_object self dir_digest (Buffer (serialize_directory directory)) false g
       = (f', Ok digest)
    /\ ascending (map FileNode.name (Directory.files directory)) = true
    /\ ascending (map DirectoryNode.name (Directory.directories directory)) = true
    /\ ascending (map SymlinkNode.name (Directory.symlinks directory)) = true.
Proof.
  intros Hcommit.
  change (_commit_directory (S fuel) self path dir_digest)
    with (let* names := listdir path in
          let* directory := for_each (sorted names) Directory.empty
                              (commit_entry self (_commit_directory fuel self) path) in
          add_object self dir_digest (Buffer (serialize_directory directory)) false)
    in Hcommit.
  apply bind_inv_ok in Hcommit as (f1 & names & Hlist & Hcommit).
  assert (Hnames : f1 = f /\ names = children f path).
  { unfold listdir in Hlist. destruct (nodes f !! path) as [[| | | | | |]|]; try discriminate.
    injection Hlist as <- <-. split; reflexivity. }
  destruct Hnames as [-> ->].
  apply bind_inv_ok in Hcommit as (g & directory & Hloop & Hadd).
  exists g, directory. split; [exact Hloop|]. split; [exact Hadd|].
  assert (Hempty : directory_in_order Directory.empty (sorted (children f path))).
  { assert (Hnil : in_order [] (sorted (children f path))).
    { split; [reflexivity|]. apply Forall_forall. intros y _. constructor. }
    split; [|split]; exact Hnil. }
  destruct (commit_loop_in_order _ _ _ _ _ _ _ _ (sorted_children_ascending f path)
              Hempty Hloop) as ((Hf & _) & (Hd & _) & (Hl & _)).
  split; [exact Hf|]. split; [exact Hd | exact Hl].
Qed.
End CommitOrder.

(** The order on the tree [B] of S3, whose listing starts with [c.txt]:
    the Directory built from it has the three files by name. *)
Lemma commit_directory_sorted_witness :
  children s3_fs "B" = ["c.txt"; "a.txt"; "b.txt"]
  /\ exists g directory,
       for_each (sorted (children s3_fs "B")) Directory.empty
         (commit_entry cache (_commit_directory 4 cache) "B") s3_fs = (g, Ok directory)
       /\ map FileNode.name (Directory.files directory) = ["a.txt"; "b.txt"; "c.txt"]
       /\ ascending (map FileNode.name (Directory.files directory)) = true
       /\ ascending (map DirectoryNode.name (Directory.directories directory)) = true
       /\ ascending (map SymlinkNode.name (Directory.symlinks directory)) = true.
Proof.
  split; [vm_compute; reflexivity|].
  assert (Hcommit : match snd (_commit_directory 5 cache "B" None s3_fs) with
                    | Ok _ => True
                    | Raise _ => False
                    end) by (vm_compute; exact I).
  destruct (_commit_directory 5 cache "B" None s3_fs) as [f' [digest|e]] eqn:Hrun;
    [|destruct Hcommit].
  destruct (commit_directory_sorted 4 cache "B" None s3_fs _ _ Hrun)
    as (g & directory & Hloop & _ & Hfiles & Hdirs & Hlinks).
  exists g, directory. split; [exact Hloop|].
  split; [|split; [exact Hfiles|split; [exact Hdirs | exact Hlinks]]].
  assert (Hnames : match snd (for_each (sorted (children s3_fs "B")) Directory.empty
                                (commit_entry cache (_commit_directory 4 cache) "B") s3_fs) with
                   | Ok d => map FileNode.name (Directory.files d)
                   | Raise _ => []
                   end = ["a.txt"; "b.txt"; "c.txt"])
    by (vm_compute; reflexivity).
  rewrite Hloop in Hnames. exact Hnames.
Defined.

(** ** What pruning removes *)

Lemma unlink_keeps q f f' r p x :
  unlink q f = (f', r) -> nodes f !! p = Some x -> nodes f' !! p = Some x \/ p = q.
Proof.
  unfold unlink. intros Hr Hp. destruct (decide (p = q)) as [->|Hne]; [right; reflexivity|].
  left. destruct (nodes f !! q) as [[| i | | | | |]|];
    injection Hr as <- _; simpl; try exact Hp;
    rewrite lookup_delete_ne by congruence; exact Hp.
Qed.

Lemma file_size_state p f f' r : file_size p f = (f', r) -> f' = f.
Proof.
  unfold file_size, bind. destruct (read_file p f) as [f1 [data|e]] eqn:Hread;
    apply read_file_state in Hread as ->; intros Hr; inversion Hr; reflexivity.
Qed.

Section PruneKeeps.
Context `{Codec}.

Lemma _reachable_refs_dir_state self : forall fuel reachable tree f f' r,
  _reachable_refs_dir fuel self reachable tree false f = (f', r) -> f' = f.
Proof.
  induction fuel as [|fuel IH]; intros reachable tree f f' r; simpl.
  - intros Hr; inversion Hr; reflexivity.
  - destruct (bool_decide _); [intros Hr; inversion Hr; reflexivity|].
    rewrite bind_ret. unfold bind at 1.
    destruct (read_directory self tree f) as [f1 [directory|e]] eqn:Hread;
      apply read_directory_state in Hread as ->; [|intros Hr; inversion Hr; reflexivity].
    unfold bind at 1.
    assert (Hfiles : forall files (acc : gset string) f1 r1,
               for_each files acc
                 (fun (reachable : gset string) filenode =>
                    ret tt ;;; ret (reachable ∪ {[ Digest.hash (FileNode.digest filenode) ]}))
                 f = (f1, r1) -> f1 = f).
    { induction files as [|x files IHf]; intros acc f1 r1; simpl.
      - intros Hr; inversion Hr; reflexivity.
      - exact (IHf (acc ∪ {[ Digest.hash (FileNode.digest x) ]}) f1 r1). }
    destruct (for_each (Directory.files directory) _ _ f) as [f1 [reachable'|e]] eqn:Hloop;
      apply Hfiles in Hloop as ->; [|intros Hr; inversion Hr; reflexivity].
    generalize reachable'. clear Hfiles.
    induction (Directory.directories directory) as [|d dirs IHd]; intros acc; simpl.
    + intros Hr; inversion Hr; reflexivity.
    + unfold bind at 1.
      destruct (_reachable_refs_dir fuel self acc (DirectoryNode.digest d) false f)
        as [f1 [acc'|e]] eqn:Hrec;
        apply IH in Hrec as ->; [apply IHd | intros Hr; inversion Hr; reflexivity].
Qed.

Lemma prune_mark_loop_state fuel self ref_heads : forall refs (acc : gset string) f f' r,
  for_each refs acc
    (fun reachable (rf : string * string) =>
       let ref_path := path_join (fst rf) (snd rf) in
       let ref := relpath ref_path ref_heads in
       let* tree := resolve_ref self ref in
       _reachable_refs_dir fuel self reachable tree false) f = (f', r) ->
  f' = f.
Proof.
  induction refs as [|rf refs IH]; intros acc f f' r; simpl.
  - intros Hr; inversion Hr; reflexivity.
  - unfold bind at 1.
    set (ref := relpath (path_join (fst rf) (snd rf)) ref_heads).
    destruct ((let* tree := resolve_ref self ref in
               _reachable_refs_dir fuel self acc tree false) f) as [f1 [acc'|e]] eqn:Hstep.
    + assert (Hf1 : f1 = f).
      { apply bind_inv_ok in Hstep as (f0 & tree & Href & Hrec).
        apply resolve_ref_state in Href as ->.
        exact (_reachable_refs_dir_state _ _ _ _ _ _ _ Hrec). }
      subst f1. apply IH.
    + intros Hr. injection Hr as <- _. unfold bind in Hstep.
      destruct (resolve_ref self ref f) as [f0 [tree|e0]] eqn:Href;
        apply resolve_ref_state in Href as ->.
      * exact (_reachable_refs_dir_state _ _ _ _ _ _ _ Hstep).
      * injection Hstep as <- _. reflexivity.
Qed.

(** Marking reads the repository and leaves it as it is. *)
Lemma prune_mark_state fuel self f f' r : prune_mark fuel self f = (f', r) -> f' = f.
Proof. unfold prune_mark. rewrite bind_get. apply prune_mark_loop_state. Qed.

(** The sweep removes nothing but object files that it walks and whose
    hash is outside the set. *)
Lemma prune_sweep_loop (reachable : gset string) : forall objs pruned f f' r,
  for_each objs pruned
    (fun pruned (rf : string * string) =>
       let objhash := basename (fst rf) ++ snd rf in
       if bool_decide (objhash ∈ reachable) then ret pruned
       else
         let obj_path := path_join (fst rf) (snd rf) in
         let* size := file_size obj_path in
         unlink obj_path ;;;
         ret (pruned + size)) f = (f', r) ->
  forall p x, nodes f !! p = Some x ->
    nodes f' !! p = Some x
    \/ exists root filename,
         In (root, filename) objs
         /\ p = path_join root filename
         /\ basename root ++ filename ∉ reachable.
Proof.
  induction objs as [|[root filename] objs IH]; intros pruned f f' r; simpl.
  - intros Hr p x Hp. inversion Hr; subst. left. exact Hp.
  - destruct (bool_decide (basename root ++ filename ∈ reachable)) eqn:Hin.
    + rewrite bind_ret. intros Hloop p x Hp.
      destruct (IH _ _ _ _ Hloop p x Hp) as [Hkept | (root' & filename' & Hin' & Hrest)];
        [left; exact Hkept | right; exists root', filename'; split; [right; exact Hin' | exact Hrest]].
    + apply bool_decide_eq_false in Hin. unfold bind at 1.
      destruct ((let* size := file_size (path_join root filename) in
                 unlink (path_join root filename) ;;; ret (pruned + size)) f)
        as [f1 [pruned'|e]] eqn:Hstep.
      * intros Hloop p x Hp.
        apply bind_inv_ok in Hstep as (f0 & size & Hsize & Hstep).
        apply file_size_state in Hsize as ->.
        apply bind_inv_ok in Hstep as (f2 & [] & Hunlink & Hret). injection Hret as <- _.
        destruct (unlink_keeps _ _ _ _ p x Hunlink Hp) as [Hkept | ->].
        -- destruct (IH _ _ _ _ Hloop p x Hkept) as [Hk | (root' & filename' & Hin' & Hrest)];
             [left; exact Hk
             | right; exists root', filename'; split; [right; exact Hin' | exact Hrest]].
        -- right. exists root, filename. split; [left; reflexivity|]. split; [reflexivity | exact Hin].
      * intros Hr p x Hp. injection Hr as <- _.
        unfold bind in Hstep.
        destruct (file_size (path_join root filename) f) as [f0 [size|e0]] eqn:Hsize;
          apply file_size_state in Hsize as ->.
        -- destruct (unlink (path_join root filename) f) as [f2 [[]|e2]] eqn:Hunlink;
             [discriminate Hstep|]. injection Hstep as <- _.
           destruct (unlink_keeps _ _ _ _ p x Hunlink Hp) as [Hkept | ->];
             [left; exact Hkept|].
           right. exists root, filename. split; [left; reflexivity|].
           split; [reflexivity | exact Hin].
        -- injection Hstep as <- _. left. exact Hp.
Qed.

(** What [prune()] removes: every entry of the file system is still
    there afterwards, whether the call returns or raises, unless it is a
    file that the walk of [objects/] finds and whose hash, the name of
    its directory followed by its own, is outside the set that the walk
    of the refs computed. *)
Theorem prune_removes_unmarked fuel self f f' r :
  prune fuel self f = (f', r) ->
  (exists e, prune_mark fuel self f = (f, Raise e) /\ f' = f /\ r = Raise e)
  \/ exists reachable,
       prune_mark fuel self f = (f, Ok reachable)
       /\ forall p x, nodes f !! p = Some x ->
            nodes f' !! p = Some x
            \/ exists root filename,
                 In (root, filename)
                   (walk_files fuel f (path_join_all (casdir self) ["objects"]))
                 /\ p = path_join root filename
                 /\ basename root ++ filename ∉ reachable.
Proof.
  unfold prune, bind.
  destruct (prune_mark fuel self f) as [f1 [reachable|e]] eqn:Hmark;
    apply prune_mark_state in Hmark as Hstate; subst f1.
  - intros Hsweep. right. exists reachable. split; [reflexivity|].
    unfold prune_sweep in Hsweep. rewrite bind_get in Hsweep.
    exact (prune_sweep_loop reachable _ _ _ _ _ Hsweep).
  - intros Hr. injection Hr as <- <-. left. exists e. auto.
Qed.
End PruneKeeps.

(** Pruning S1 after its ref was removed: the blob of [a.txt] goes, the
    sources stay. *)
Lemma prune_removes_unmarked_witness :
  nodes (fst (prune 5 cache unreferenced_fs)) !! "src/a.txt" = nodes unreferenced_fs !! "src/a.txt"
  /\ exists_ unreferenced_fs (objpath cache (digest_of "hello")) = true
  /\ exists_ (fst (prune 5 cache unreferenced_fs)) (objpath cache (digest_of "hello")) = false.
Proof.
  split; [|split; vm_compute; reflexivity].
  destruct (nodes unreferenced_fs !! "src/a.txt") as [x|] eqn:Hx;
    [|vm_compute in Hx; discriminate Hx].
  destruct (prune_removes_unmarked 5 cache unreferenced_fs _ _
              (surjective_pairing (prune 5 cache unreferenced_fs)))
    as [(e & Hmark & _) | (reachable & Hmark & Hkeeps)].
  - apply (f_equal snd) in Hmark. vm_compute in Hmark. discriminate Hmark.
  - destruct (Hkeeps _ _ Hx) as [Hkept | (root & filename & Hin & Hp & _)]; [exact Hkept|].
    exfalso. revert Hin Hp. 
    assert (Hall : forallb (fun rf => negb (String.eqb (path_join (fst rf) (snd rf)) "src/a.txt"))
                     (walk_files 5 unreferenced_fs (path_join_all (casdir cache) ["objects"]))
                   = true) by (vm_compute; reflexivity).
    rewrite forallb_forall in Hall. intros Hin Hp. specialize (Hall _ Hin). simpl in Hall.
    rewrite <- Hp, String.eqb_refl in Hall. discriminate Hall.
Defined.

(** * More properties

    Properties of the remaining operations of the cache, read off the
    code. *)


(** ** Groups of a bounded size *)

Lemma grouper_fuel_concat {A} (n : nat) : forall fuel (l : list A),
  (0 < n)%nat -> (length l <= fuel)%nat -> concat (grouper_fuel fuel n l) = l.
Proof.
  induction fuel as [|fuel IH]; intros l Hn Hlen.
  - destruct l; [reflexivity | simpl in Hlen; lia].
  - destruct l as [|x l]; [reflexivity|].
    change (grouper_fuel (S fuel) n (x :: l))
      with (firstn n (x :: l) :: grouper_fuel fuel n (skipn n (x :: l))).
    simpl concat. rewrite IH; [apply firstn_skipn | exact Hn |].
    rewrite length_skipn. simpl in *. lia.
Qed.

Lemma grouper_fuel_sizes {A} (n : nat) : forall fuel (l : list A),
  (0 < n)%nat -> (length l <= fuel)%nat ->
  Forall (fun g => (0 < length g <= n)%nat) (grouper_fuel fuel n l)
  /\ forall pre g post,
       grouper_fuel fuel n l = (pre ++ g :: post)%list -> post <> [] -> length g = n.
Proof.
  induction fuel as [|fuel IH]; intros l Hn Hlen.
  - destruct l; [|simpl in Hlen; lia]. split; [constructor|].
    intros [|? ?] g post Hg; discriminate Hg.
  - destruct l as [|x l].
    { split; [constructor|]. intros [|? ?] g post Hg; discriminate Hg. }
    change (grouper_fuel (S fuel) n (x :: l))
      with (firstn n (x :: l) :: grouper_fuel fuel n (skipn n (x :: l))).
    assert (Hrest : (length (skipn n (x :: l)) <= fuel)%nat)
      by (rewrite length_skipn; simpl in *; lia).
    destruct (IH (skipn n (x :: l)) Hn Hrest) as [Hall Hfull]. split.
    + constructor; [|exact Hall]. rewrite length_firstn. simpl. lia.
    + intros [|g0 pre] g post Hg Hpost.
      * injection Hg as <- Hg.
        destruct (Nat.le_gt_cases n (length (x :: l))) as [Hle|Hgt];
          [rewrite length_firstn; lia|].
        rewrite skipn_all2 in Hg by lia.
        destruct fuel; simpl in Hg; subst post; contradiction.
      * injection Hg as _ Hg. exact (Hfull pre g post Hg Hpost).
Qed.

(** [_grouper(iterable, n)] for [n >= 1] cuts the sequence into groups
    without losing, repeating or reordering an element: the groups in
    order make up the sequence again, no group is empty or longer than
    [n], and every group but the last has exactly [n] elements. *)
Theorem grouper_partition {A} (l : list A) (n : nat) :
  (0 < n)%nat ->
  concat (_grouper l n) = l
  /\ Forall (fun g => (0 < length g <= n)%nat) (_grouper l n)
  /\ forall pre g post,
       _grouper l n = (pre ++ g :: post)%list -> post <> [] -> length g = n.
Proof.
  intros Hn. unfold _grouper. split.
  - apply grouper_fuel_concat; [exact Hn | lia].
  - apply grouper_fuel_sizes; [exact Hn | lia].
Qed.

(** Five digests in groups of two. *)
Lemma grouper_partition_witness :
  _grouper [1; 2; 3; 4; 5]%nat 2 = [[1; 2]; [3; 4]; [5]]%nat
  /\ concat (_grouper [1; 2; 3; 4; 5]%nat 2) = [1; 2; 3; 4; 5]%nat.
Proof.
  split; [reflexivity|].
  exact (proj1 (grouper_partition [1; 2; 3; 4; 5]%nat 2 (Nat.lt_0_succ 1))).
Defined.

(** ** A tree against itself *)

Lemma diff_files_same path : forall files l, diff_files path files files l = l.
Proof.
  induction files as [|x files IH]; intros l; [reflexivity|].
  rewrite diff_files_cons_cons, str_gt_irrefl, String.eqb_refl. apply IH.
Qed.

Lemma diff_dirs_same rec path : forall dirs l f, diff_dirs rec path dirs dirs l f = (f, Ok l).
Proof.
  induction dirs as [|x dirs IH]; intros l f; [reflexivity|].
  rewrite diff_dirs_cons_cons, str_gt_irrefl, String.eqb_refl. cbn [negb].
  rewrite bind_ret. apply IH.
Qed.

Section DiffSelf.
Context `{Codec}.

Lemma read_directory_run self tree f r :
  snd (read_directory self tree f) = r -> read_directory self tree f = (f, r).
Proof.
  intros Hr. rewrite (run_eq _ _ _ Hr). f_equal.
  eapply read_directory_state, run_eq, Hr.
Qed.

(** [diff(ref, ref)] is empty: when the ref resolves and the Directory
    that is compared can be read, the three lists come back empty and the
    file system is untouched.  No subdirectory is read for it, since
    every entry meets itself with the same hash. *)
Theorem diff_self fuel self ref subdir f root tree directory :
  resolve_ref self ref f = (f, Ok root) ->
  diff_root self root subdir f = (f, Ok tree) ->
  read_directory self tree f = (f, Ok directory) ->
  diff (S fuel) self ref ref subdir f = (f, Ok ([], [], [])).
Proof.
  intros Href Hsub Hread. unfold diff.
  rewrite (bind_ok _ _ _ _ _ Href), (bind_ok _ _ _ _ _ Href).
  fold (diff_root self root subdir).
  rewrite (bind_ok _ _ _ _ _ Hsub), (bind_ok _ _ _ _ _ Hsub).
  assert (Htrees : _diff_trees (S fuel) self (Some tree) (Some tree) "" (Diff [] [] []) f
                   = (f, Ok (Diff [] [] []))).
  { change (_diff_trees (S fuel) self (Some tree) (Some tree) "" (Diff [] [] []))
      with (let* dir_a := read_directory self tree in
            let* dir_b := read_directory self tree in
            let l := diff_files "" (Directory.files dir_a) (Directory.files dir_b)
                       (Diff [] [] []) in
            diff_dirs (_diff_trees fuel self) ""
              (Directory.directories dir_a) (Directory.directories dir_b) l).
    rewrite (bind_ok _ _ _ _ _ Hread), (bind_ok _ _ _ _ _ Hread). cbv zeta.
    rewrite diff_files_same. apply diff_dirs_same. }
  rewrite (bind_ok _ _ _ _ _ Htrees). reflexivity.
Qed.
End DiffSelf.

(** S1, a tree with a subdirectory, against itself with the least fuel. *)
Lemma diff_self_witness :
  diff 1 cache "r1" "r1" None s1_fs = (s1_fs, Ok ([], [], [])).
Proof.
  refine (diff_self 0 cache "r1" None s1_fs s1_root s1_root s1_root_directory _ eq_refl _).
  - apply resolve_ref_run. vm_compute. reflexivity.
  - apply read_directory_run. vm_compute. reflexivity.
Defined.

(** ** Refs as a table *)

(** Reading a file depends on its entry and on its inode only. *)
Lemma read_file_frame p f f' :
  nodes f' !! p = nodes f !! p ->
  (forall i, nodes f !! p = Some (FFile i) -> inodes f' !! i = inodes f !! i) ->
  snd (read_file p f') = snd (read_file p f).
Proof.
  intros Hnode Hino. unfold read_file. rewrite Hnode.
  destruct (nodes f !! p) as [[| i | | | | |]|]; try reflexivity.
  rewrite (Hino i eq_refl). destruct (inodes f !! i); reflexivity.
Qed.

Lemma read_file_run p f r : snd (read_file p f) = r -> read_file p f = (f, r).
Proof.
  intros Hr. rewrite (run_eq _ _ _ Hr). f_equal. eapply read_file_state, run_eq, Hr.
Qed.

(** [os.makedirs] adds directories and nothing else: no inode changes,
    and an entry that is no directory was there before. *)
Lemma mkdir_adds q f f' r :
  mkdir q f = (f', r) ->
  inodes f' = inodes f
  /\ forall p x, nodes f' !! p = Some x -> nodes f !! p = Some x \/ x = FDir.
Proof.
  unfold mkdir. destruct (exists_ f q); [intros Hr; inversion Hr; subst; auto|].
  destruct (parent_isdir f q); intros Hr; inversion Hr; subst; simpl; [|auto].
  split; [reflexivity|]. intros p x. destruct (decide (q = p)) as [->|Hne].
  - rewrite lookup_insert_eq. intros Hx; inversion Hx; auto.
  - rewrite lookup_insert_ne by exact Hne. auto.
Qed.

Lemma makedirs_fuel_adds : forall fuel q f f' r,
  makedirs_fuel fuel q f = (f', r) ->
  inodes f' = inodes f
  /\ forall p x, nodes f' !! p = Some x -> nodes f !! p = Some x \/ x = FDir.
Proof.
  induction fuel as [|fuel IH]; intros q f f' r; simpl.
  - intros Hr; inversion Hr; subst; auto.
  - rewrite bind_get.
    assert (Hearly : forall f1 r1,
      (if makedirs_parent_missing f q
       then try_except (makedirs_fuel fuel (fst (makedirs_split q)))
              (fun e => match e with FileExistsError => ret tt | _ => raise e end) ;;;
            ret (String.eqb (snd (makedirs_split q)) ".")
       else ret false) f = (f1, r1) ->
      inodes f1 = inodes f
      /\ forall p x, nodes f1 !! p = Some x -> nodes f !! p = Some x \/ x = FDir).
    { intros f1 r1. destruct (makedirs_parent_missing f q);
        [|intros Hr; inversion Hr; subst; auto].
      unfold bind, try_except.
      destruct (makedirs_fuel fuel (fst (makedirs_split q)) f) as [f2 [[]|e]] eqn:Hrec;
        apply IH in Hrec.
      - intros Hr; inversion Hr; subst. exact Hrec.
      - destruct e; simpl; intros Hr; inversion Hr; subst; exact Hrec. }
    match goal with
    | |- bind ?c ?k f = _ -> _ =>
        destruct (c f) as [f1 [early|e]] eqn:He;
          [rewrite (bind_ok c k f f1 early He) | rewrite (bind_raise c k f f1 e He)]
    end;
      destruct (Hearly f1 _ eq_refl) as [Hino1 Hnodes1];
      [|intros Hr; inversion Hr; subst; auto].
    destruct early; [intros Hr; inversion Hr; subst; auto|].
    unfold try_except.
    destruct (mkdir q f1) as [f2 [[]|e]] eqn:Hmk; apply mkdir_adds in Hmk as [Hino2 Hnodes2].
    + intros Hr; inversion Hr; subst. split; [congruence|].
      intros p x Hp. destruct (Hnodes2 p x Hp) as [Hp1 | ->]; [eauto | auto].
    + assert (Hgoal : inodes f2 = inodes f
                /\ forall p x, nodes f2 !! p = Some x -> nodes f !! p = Some x \/ x = FDir).
      { split; [congruence|].
        intros p x Hp. destruct (Hnodes2 p x Hp) as [Hp1 | ->]; [eauto | auto]. }
      destruct (is_OSError e); [|intros Hr; inversion Hr; subst; exact Hgoal].
      rewrite bind_get. destruct (isdir f2 q); intros Hr; inversion Hr; subst; exact Hgoal.
Qed.

Lemma makedirs_adds q f f' r :
  makedirs q f = (f', r) ->
  inodes f' = inodes f
  /\ forall p x, nodes f' !! p = Some x -> nodes f !! p = Some x \/ x = FDir.
Proof. apply makedirs_fuel_adds. Qed.

(** A regular file is where it was, with the inode it had, after
    [os.makedirs]. *)
Lemma makedirs_file q f f' r p :
  makedirs q f = (f', r) ->
  (forall i, nodes f' !! p = Some (FFile i) <-> nodes f !! p = Some (FFile i))
  /\ (nodes f !! p = None -> nodes f' !! p = None \/ nodes f' !! p = Some FDir).
Proof.
  intros Hmk. pose proof (fun x => keeps_makedirs p q _ _ _ x Hmk) as Hkeep.
  simpl in Hkeep.
  destruct (makedirs_adds _ _ _ _ Hmk) as [_ Hadds]. split.
  - intros i. split; [|apply Hkeep].
    intros Hp. destruct (Hadds p _ Hp) as [Hf | Hdir]; [exact Hf | discriminate Hdir].
  - intros Hnone. destruct (nodes f' !! p) as [x|] eqn:Hp; [|auto].
    destruct (Hadds p x Hp) as [Hf | ->]; [congruence | auto].
Qed.

(** [save_file_atomic] leaves every other file as it is: its entry, and
    its inode when the file replaced is not another name of it. *)
Lemma save_file_atomic_frame filename data tempdir f f' r p x :
  save_file_atomic filename data tempdir f = (f', r) ->
  nodes f !! p = Some x ->
  p <> filename ->
  (forall i, x = FFile i -> is_Some (inodes f !! i) /\ nodes f !! filename <> Some (FFile i)) ->
  nodes f' !! p = Some x
  /\ forall i, x = FFile i -> inodes f' !! i = inodes f !! i.
Proof.
  intros Hsave Hp Hne Hfile. unfold save_file_atomic in Hsave.
  assert (Hsame : nodes f !! p = Some x /\ forall i, x = FFile i -> inodes f !! i = inodes f !! i)
    by (split; [exact Hp | reflexivity]).
  unfold bind, NamedTemporaryFile in Hsave.
  destruct (tmp_name f tempdir) as [tmp|] eqn:Hname;
    [|inversion Hsave; subst; exact Hsame].
  pose proof (tmp_name_fresh _ _ _ Hname) as Hfresh.
  assert (Hnone : nodes f !! tmp = None)
    by (unfold exists_ in Hfresh; destruct (nodes f !! tmp); [discriminate | reflexivity]).
  assert (Htmp : p <> tmp) by congruence.
  unfold create_file in Hsave. rewrite Hfresh in Hsave.
  destruct (parent_isdir f tmp); [|inversion Hsave; subst; exact Hsame].
  fold (with_file f tmp "" 384 1) in Hsave.
  unfold try_except, bind in Hsave. rewrite write_tmp in Hsave.
  change ("" ++ data) with data in Hsave.
  set (k := fresh_ino f) in *. set (f2 := with_file f tmp data 384 1) in *.
  assert (Hk : forall i, x = FFile i -> i <> k).
  { intros i Hx Hik. destruct (Hfile i Hx) as [[n Hn] _].
    rewrite Hik in Hn. unfold k in Hn. rewrite fresh_ino_None in Hn. discriminate Hn. }
  assert (Hp2 : nodes f2 !! p = Some x)
    by (unfold f2, with_file; simpl; rewrite lookup_insert_ne by congruence; exact Hp).
  assert (Hi2 : forall i, x = FFile i -> inodes f2 !! i = inodes f !! i).
  { intros i Hx. unfold f2, with_file. simpl.
    rewrite lookup_insert_ne; [reflexivity|]. intros Heq. exact (Hk i Hx (eq_sym Heq)). }
  assert (Hback : unlink tmp f2 = (f, Ok tt)) by (apply unlink_tmp, Hnone).
  unfold rename in Hsave.
  assert (Hsrc : nodes f2 !! tmp = Some (FFile k)) by apply with_file_node.
  rewrite Hsrc in Hsave.
  assert (Hmoved : forall y ino,
             (forall i, x = FFile i -> ino !! i = inodes f !! i) ->
             nodes (Fs (<[filename := y]> (delete tmp (nodes f2))) ino) !! p = Some x
             /\ forall i, x = FFile i ->
                  inodes (Fs (<[filename := y]> (delete tmp (nodes f2))) ino) !! i
                  = inodes f !! i).
  { intros y ino Hino. simpl. split; [|exact Hino].
    rewrite lookup_insert_ne, lookup_delete_ne by congruence. exact Hp2. }
  destruct (nodes f2 !! filename) as [[| j | t | | | |]|] eqn:Hdst.
  - rewrite Hback in Hsave. inversion Hsave; subst; exact Hsame.
  - destruct (bool_decide (FFile k = FFile j)) eqn:Hkj.
    + inversion Hsave; subst. split; [exact Hp2 | exact Hi2].
    + apply bool_decide_eq_false in Hkj. inversion Hsave; subst. apply Hmoved.
      intros i Hx. rewrite drop_link_other; [exact (Hi2 i Hx)|].
      intros Hij. subst j. destruct (Hfile i Hx) as [_ Hother]. apply Hother.
      destruct (decide (filename = tmp)) as [Heq|Hneq].
      * rewrite Heq, Hsrc in Hdst. congruence.
      * unfold f2, with_file in Hdst. simpl in Hdst.
        rewrite lookup_insert_ne in Hdst by congruence. exact Hdst.
  - inversion Hsave; subst. apply Hmoved, Hi2.
  - inversion Hsave; subst. apply Hmoved, Hi2.
  - inversion Hsave; subst. apply Hmoved, Hi2.
  - inversion Hsave; subst. apply Hmoved, Hi2.
  - inversion Hsave; subst. apply Hmoved, Hi2.
  - destruct (parent_isdir f2 filename).
    + inversion Hsave; subst. apply Hmoved, Hi2.
    + rewrite Hback in Hsave. inversion Hsave; subst; exact Hsame.
Qed.

Section RefTable.
Context `{Codec}.

(** [set_ref] leaves every other file as it is. *)
Lemma set_ref_frame self ref tree f f' r p x :
  set_ref self ref tree f = (f', r) ->
  nodes f !! p = Some x ->
  p <> _refpath self ref ->
  (forall i, x = FFile i ->
             is_Some (inodes f !! i) /\ nodes f !! _refpath self ref <> Some (FFile i)) ->
  nodes f' !! p = Some x
  /\ forall i, x = FFile i -> inodes f' !! i = inodes f !! i.
Proof.
  unfold set_ref. intros Hset Hp Hne Hfile. unfold bind in Hset.
  destruct (makedirs (dirname (_refpath self ref)) f) as [f1 [[]|e]] eqn:Hmk.
  - destruct (makedirs_adds _ _ _ _ Hmk) as [Hino _].
    pose proof (keeps_makedirs p _ _ _ _ x Hmk Hp) as Hp1. simpl in Hp1.
    destruct (save_file_atomic_frame _ _ _ _ _ _ p x Hset Hp1 Hne) as [Hp' Hi'].
    + intros i Hx. destruct (Hfile i Hx) as [Hsome Hother]. rewrite Hino.
      split; [exact Hsome|]. intros Hdst. apply Hother.
      exact (proj1 (proj1 (makedirs_file _ _ _ _ (_refpath self ref) Hmk) i) Hdst).
    + split; [exact Hp'|]. intros i Hx. rewrite (Hi' i Hx), Hino. reflexivity.
  - inversion Hset; subst.
    destruct (makedirs_adds _ _ _ _ Hmk) as [Hino _].
    split; [exact (keeps_makedirs p _ _ _ _ x Hmk Hp)|].
    intros i _. rewrite Hino. reflexivity.
Qed.

(** A ref resolves as before when its file is as before. *)
Lemma resolve_ref_frame self ref f f' tree :
  resolve_ref self ref f = (f, Ok tree) ->
  (forall i, nodes f !! _refpath self ref = Some (FFile i) ->
             nodes f' !! _refpath self ref = Some (FFile i)
             /\ inodes f' !! i = inodes f !! i) ->
  resolve_ref self ref f' = (f', Ok tree).
Proof.
  intros Href Hsame. apply resolve_ref_run.
  apply (f_equal snd) in Href. simpl in Href. rewrite <- Href.
  unfold resolve_ref, try_except, bind.
  assert (Hread : snd (read_file (_refpath self ref) f')
                  = snd (read_file (_refpath self ref) f)).
  { destruct (nodes f !! _refpath self ref) as [[| i | | | | |]|] eqn:Hp;
      try (exfalso; revert Href; unfold resolve_ref, try_except, bind, read_file;
           rewrite Hp; simpl; discriminate).
    destruct (Hsame i eq_refl) as [Hp' Hi'].
    apply read_file_frame; [congruence|]. intros i0 Hi0. congruence. }
  rewrite (read_file_run _ _ _ eq_refl), (read_file_run _ f _ eq_refl), Hread.
  destruct (snd (read_file (_refpath self ref) f)) as [data|e]; simpl.
  - destruct (parse_digest data); reflexivity.
  - destruct e; reflexivity.
Qed.

(** A ref that resolves is a regular file with its inode. *)
Lemma resolve_ref_file self ref f tree :
  resolve_ref self ref f = (f, Ok tree) ->
  exists i, nodes f !! _refpath self ref = Some (FFile i) /\ is_Some (inodes f !! i).
Proof.
  unfold resolve_ref, try_except, bind, read_file.
  destruct (nodes f !! _refpath self ref) as [[| i | | | | |]|]; simpl; try discriminate.
  destruct (inodes f !! i) as [n|] eqn:Hi; simpl; [|discriminate].
  intros _. exists i. split; [reflexivity | exists n; exact Hi].
Qed.

(** After [set_ref] the ref is contained. *)
Lemma set_ref_contains self ref tree f f' :
  set_ref self ref tree f = (f', Ok tt) -> contains self ref f' = (f', Ok true).
Proof.
  intros Hset. pose proof (set_ref_read _ _ _ _ _ Hset) as Hread.
  unfold contains. rewrite bind_get. unfold ret, exists_.
  unfold read_file in Hread.
  destruct (nodes f' !! _refpath self ref); [reflexivity | discriminate Hread].
Qed.

(** After [set_ref] a ref of another file resolves to what it did. *)
Lemma set_ref_others self ref tree f f' r other tree' :
  set_ref self ref tree f = (f', r) ->
  resolve_ref self other f = (f, Ok tree') ->
  nodes f !! _refpath self other <> nodes f !! _refpath self ref ->
  resolve_ref self other f' = (f', Ok tree').
Proof.
  intros Hset Hother Hdiff.
  destruct (resolve_ref_file _ _ _ _ Hother) as (i & Hnode & Hsome).
  assert (Hne : _refpath self other <> _refpath self ref)
    by (intros Heq; apply Hdiff; rewrite Heq; reflexivity).
  destruct (set_ref_frame _ _ _ _ _ _ _ _ Hset Hnode Hne) as [Hnode' Hino'].
  { intros i0 Hi0. injection Hi0 as <-. split; [exact Hsome|].
    intros Hsame. apply Hdiff. congruence. }
  apply (resolve_ref_frame _ _ f f' _ Hother).
  intros i0 Hi0. rewrite Hnode in Hi0. injection Hi0 as <-.
  split; [exact Hnode' | exact (Hino' i eq_refl)].
Qed.

(** The refs as a table.  After [set_ref(ref, tree)] the ref is contained
    and resolves to [tree], whatever it was before; and a ref of another
    file resolves to what it did. *)
Theorem set_ref_lookup self ref tree f f' :
  set_ref self ref tree f = (f', Ok tt) ->
  parse_digest (serialize_digest tree) = Some tree ->
  resolve_ref self ref f' = (f', Ok tree)
  /\ contains self ref f' = (f', Ok true)
  /\ forall other tree',
       resolve_ref self other f = (f, Ok tree') ->
       nodes f !! _refpath self other <> nodes f !! _refpath self ref ->
       resolve_ref self other f' = (f', Ok tree').
Proof.
  intros Hset Hparse. split; [exact (set_ref_resolve _ _ _ _ _ Hset Hparse)|].
  split; [exact (set_ref_contains _ _ _ _ _ Hset)|].
  intros other tree'. apply (set_ref_others _ _ _ _ _ _ _ _ Hset).
Qed.
End RefTable.

(** On S1 a second ref is set to another digest: it resolves to that
    digest, and [r1] resolves to the root of S1 as before. *)
Lemma set_ref_lookup_witness :
  resolve_ref cache "r2" (fst (set_ref cache "r2" (digest_of "x") s1_fs))
  = (fst (set_ref cache "r2" (digest_of "x") s1_fs), Ok (digest_of "x"))
  /\ resolve_ref cache "r1" (fst (set_ref cache "r2" (digest_of "x") s1_fs))
     = (fst (set_ref cache "r2" (digest_of "x") s1_fs), Ok s1_root).
Proof.
  assert (Hset : snd (set_ref cache "r2" (digest_of "x") s1_fs) = Ok tt)
    by (vm_compute; reflexivity).
  apply run_eq in Hset.
  destruct (set_ref_lookup cache "r2" (digest_of "x") s1_fs _ Hset)
    as (Hnew & _ & Hothers); [vm_compute; reflexivity|].
  split; [exact Hnew|].
  apply Hothers.
  - apply resolve_ref_run. vm_compute. reflexivity.
  - vm_compute. discriminate.
Defined.

Section RefRemoval.
Context `{Codec}.

(** [remove(ref)].  A ref that is not there raises [CASCacheError] and
    nothing changes.  A ref that is there loses its file and nothing
    else goes: it is no longer contained, it no longer resolves, and a
    ref of another file resolves to what it did.  Without [defer_prune]
    the call goes on with [prune()] and returns its count. *)
Theorem remove_ref fuel self ref f :
  (exists_ f (_refpath self ref) = false ->
   forall defer_prune,
     remove fuel self ref defer_prune f = (f, Raise (CASCacheError "Could not find ref" false)))
  /\ (forall x, nodes f !! _refpath self ref = Some x -> x <> FDir ->
      exists f1,
        remove fuel self ref true f = (f1, Ok None)
        /\ nodes f1 = delete (_refpath self ref) (nodes f)
        /\ contains self ref f1 = (f1, Ok false)
        /\ resolve_ref self ref f1
           = (f1, Raise (CASCacheError "Attempt to access unavailable ref" false))
        /\ (forall other tree,
              resolve_ref self other f = (f, Ok tree) ->
              nodes f !! _refpath self other <> nodes f !! _refpath self ref ->
              resolve_ref self other f1 = (f1, Ok tree))
        /\ remove fuel self ref false f
           = match prune fuel self f1 with
             | (f2, Ok pruned) => (f2, Ok (Some pruned))
             | (f2, Raise e) => (f2, Raise e)
             end).
Proof.
  split.
  - intros Habsent defer_prune. unfold remove. rewrite bind_get, Habsent. reflexivity.
  - intros x Hx Hnotdir.
    set (refpath := _refpath self ref) in *.
    set (f1 := Fs (delete refpath (nodes f))
                  (match x with FFile i => drop_link i (inodes f) | _ => inodes f end)).
    assert (Hunlink : unlink refpath f = (f1, Ok tt)).
    { unfold unlink, f1. rewrite Hx. destruct x; try reflexivity. contradiction. }
    assert (Hexists : exists_ f refpath = true) by (unfold exists_; rewrite Hx; reflexivity).
    assert (Hgone : nodes f1 !! refpath = None) by apply lookup_delete_eq.
    exists f1. split; [|split; [reflexivity|split; [|split; [|split]]]].
    + unfold remove. fold refpath. rewrite bind_get, Hexists. cbn [negb].
      rewrite (bind_ok _ _ _ _ _ Hunlink). reflexivity.
    + unfold contains. rewrite bind_get. fold refpath. unfold exists_, ret.
      rewrite Hgone. reflexivity.
    + unfold resolve_ref, try_except, bind, read_file. fold refpath. rewrite Hgone.
      reflexivity.
    + intros other tree Hother Hdiff.
      destruct (resolve_ref_file _ _ _ _ Hother) as (i & Hnode & Hsome).
      apply (resolve_ref_frame _ _ f f1 _ Hother).
      intros i0 Hi0. rewrite Hnode in Hi0. injection Hi0 as <-.
      assert (Hne : _refpath self other <> refpath)
        by (intros Heq; apply Hdiff; rewrite Heq; reflexivity).
      split.
      * unfold f1. simpl. rewrite lookup_delete_ne by congruence. exact Hnode.
      * unfold f1. simpl. destruct x as [| j | | | | |]; try reflexivity.
        apply drop_link_other. intros Hij. subst j. apply Hdiff. fold refpath. congruence.
    + unfold remove. fold refpath. rewrite bind_get, Hexists. cbn [negb].
      rewrite (bind_ok _ _ _ _ _ Hunlink). unfold bind.
      destruct (prune fuel self f1) as [f2 [pruned|e]]; reflexivity.
Qed.

(** [link_ref(oldref, newref)].  When [oldref] does not resolve the call
    raises what [resolve_ref] raises and changes nothing.  When it
    resolves to [tree] and the call returns, [newref] resolves to [tree]
    too, and so does [oldref] still, unless the file that [newref]
    replaced was the file of [oldref] under another name. *)
Theorem link_ref_alias self oldref newref f :
  (forall e, resolve_ref self oldref f = (f, Raise e) ->
             link_ref self oldref newref f = (f, Raise e))
  /\ (forall tree f',
        resolve_ref self oldref f = (f, Ok tree) ->
        link_ref self oldref newref f = (f', Ok tt) ->
        parse_digest (serialize_digest tree) = Some tree ->
        resolve_ref self newref f' = (f', Ok tree)
        /\ contains self newref f' = (f', Ok true)
        /\ (nodes f !! _refpath self oldref <> nodes f !! _refpath self newref ->
            resolve_ref self oldref f' = (f', Ok tree))).
Proof.
  split.
  - intros e Hold. unfold link_ref. apply (bind_raise _ _ _ _ _ Hold).
  - intros tree f' Hold Hlink Hparse. unfold link_ref in Hlink.
    rewrite (bind_ok _ _ _ _ _ Hold) in Hlink.
    split; [exact (set_ref_resolve _ _ _ _ _ Hlink Hparse)|].
    split; [exact (set_ref_contains _ _ _ _ _ Hlink)|].
    intros Hdiff. exact (set_ref_others _ _ _ _ _ _ _ _ Hlink Hold Hdiff).
Qed.
End RefRemoval.

(** On S1: the ref [r1] is removed with the prune deferred and is then
    no longer contained; removing a ref that is not there raises. *)
Lemma remove_ref_witness :
  snd (remove 5 cache "r1" true s1_fs) = Ok None
  /\ snd ((remove 5 cache "r1" true ;;; contains cache "r1") s1_fs) = Ok false
  /\ snd (remove 5 cache "nope" true s1_fs) = Raise (CASCacheError "Could not find ref" false).
Proof.
  split; [vm_compute; reflexivity|]. split; [vm_compute; reflexivity|].
  rewrite (proj1 (remove_ref 5 cache "nope" s1_fs)); [reflexivity|].
  vm_compute. reflexivity.
Defined.

(** On S1: [r1] gets the alias [latest], which then resolves to the root
    of S1; an alias of a ref that is not there raises. *)
Lemma link_ref_alias_witness :
  snd ((link_ref cache "r1" "latest" ;;; resolve_ref cache "latest") s1_fs) = Ok s1_root
  /\ link_ref cache "nope" "latest" s1_fs
     = (s1_fs, Raise (CASCacheError "Attempt to access unavailable ref" false)).
Proof.
  split; [vm_compute; reflexivity|].
  apply (proj1 (link_ref_alias cache "nope" "latest" s1_fs)).
  apply resolve_ref_run. vm_compute. reflexivity.
Defined.

(** ** What a call preserves *)

Section Preserves.
Context {S : Type} (P : S -> S -> Prop) `{!Reflexive P} `{!Transitive P}.

Lemma preserves_ret {A} (a : A) : preserves P (ret a).
Proof. intros s s' r Hr. inversion Hr; subst. reflexivity. Qed.

Lemma preserves_raise {A} e : preserves P (@raise S A e).
Proof. intros s s' r Hr. inversion Hr; subst. reflexivity. Qed.

Lemma preserves_get : preserves P get.
Proof. intros s s' r Hr. inversion Hr; subst. reflexivity. Qed.

Lemma preserves_bind {A B} (c : M S A) (k : A -> M S B) :
  preserves P c -> (forall a, preserves P (k a)) -> preserves P (bind c k).
Proof.
  intros Hc Hk s s' r. unfold bind. destruct (c s) as [s1 [a|e]] eqn:Hcs; intros Hr.
  - transitivity s1; [exact (Hc _ _ _ Hcs) | exact (Hk a _ _ _ Hr)].
  - inversion Hr; subst. exact (Hc _ _ _ Hcs).
Qed.

Lemma preserves_try_except {A} (body : M S A) handler :
  preserves P body -> (forall e, preserves P (handler e)) ->
  preserves P (try_except body handler).
Proof.
  intros Hb Hh s s' r. unfold try_except.
  destruct (body s) as [s1 [a|e]] eqn:Hbs; intros Hr.
  - inversion Hr; subst. exact (Hb _ _ _ Hbs).
  - transitivity s1; [exact (Hb _ _ _ Hbs) | exact (Hh e _ _ _ Hr)].
Qed.

Lemma preserves_try_finally {A} (body : M S A) cleanup :
  preserves P body -> preserves P cleanup -> preserves P (try_finally body cleanup).
Proof.
  intros Hb Hc s s' r. unfold try_finally.
  destruct (body s) as [s1 r1] eqn:Hbs. destruct (cleanup s1) as [s2 [[]|e]] eqn:Hcs;
    intros Hr; inversion Hr; subst;
    (transitivity s1; [exact (Hb _ _ _ Hbs) | exact (Hc _ _ _ Hcs)]).
Qed.

Lemma preserves_for_each {A B} (xs : list A) (body : B -> A -> M S B) :
  (forall acc x, preserves P (body acc x)) ->
  forall acc, preserves P (for_each xs acc body).
Proof.
  intros Hbody. induction xs as [|x xs IH]; intros acc; simpl.
  - apply preserves_ret.
  - apply preserves_bind; [apply Hbody | exact IH].
Qed.

Lemma preserves_lift_fst {X A} (c : M S A) :
  preserves P c -> preserves (on_fst (X:=X) P) (lift_fst c).
Proof.
  intros Hc [s x] s' r. unfold lift_fst, on_fst. simpl.
  destruct (c s) as [s1 r1] eqn:Hcs. intros Hr. inversion Hr; subst. simpl.
  exact (Hc _ _ _ Hcs).
Qed.

Lemma preserves_lift_snd {X A} (c : M X A) : preserves (on_fst P) (lift_snd (S:=S) c).
Proof.
  intros [s x] s' r. unfold lift_snd, on_fst. simpl.
  destruct (c x) as [x1 r1]. intros Hr. inversion Hr; subst. simpl. reflexivity.
Qed.

Lemma preserves_set_obj {X} (x : X) : preserves (on_fst P) (set_obj (S:=S) x).
Proof. intros [s x0] s' r Hr. inversion Hr; subst. unfold on_fst. simpl. reflexivity. Qed.

Lemma preserves_get_obj {X} : preserves (on_fst P) (@get_obj S X).
Proof. intros [s x0] s' r Hr. inversion Hr; subst. unfold on_fst. simpl. reflexivity. Qed.

#[local] Instance on_fst_refl {X} : Reflexive (on_fst (X:=X) P).
Proof. intros s. unfold on_fst. reflexivity. Qed.

#[local] Instance on_fst_trans {X} : Transitive (on_fst (X:=X) P).
Proof. intros s1 s2 s3. unfold on_fst. apply transitivity. Qed.
End Preserves.

#[local] Existing Instance on_fst_refl.
#[local] Existing Instance on_fst_trans.

(** *** The local repository under a push *)

Lemma read_file_unchanged p : preserves eq (read_file p).
Proof. intros f f' r Hr. symmetry. exact (read_file_state _ _ _ _ Hr). Qed.

Section PushLocal.
Context `{Hash} `{Codec} {R : Type} `{Remote R}.

Lemma resolve_ref_unchanged self ref : preserves eq (resolve_ref self ref).
Proof. intros f f' r Hr. symmetry. exact (resolve_ref_state _ _ _ _ _ Hr). Qed.

Lemma batch_update_send_local batch : preserves (on_fst (X:=R) eq) (batch_update_send batch).
Proof.
  unfold batch_update_send. destruct (bu_requests batch); [apply preserves_ret; apply _|].
  apply preserves_bind; try apply _; [apply preserves_lift_snd; apply _|].
  intros responses. apply preserves_for_each; try apply _.
  intros [] response. destruct (snd response); [apply preserves_raise | apply preserves_ret];
    apply _.
Qed.

Lemma _send_blobs_local self digests : preserves (on_fst (X:=R) eq) (_send_blobs self digests).
Proof.
  unfold _send_blobs, new_batch_update.
  apply preserves_bind; try apply _.
  { apply preserves_bind; try apply _; [apply preserves_get; apply _|].
    intros s. apply preserves_ret; apply _. }
  intros batch. apply preserves_bind; try apply _; [|intros b; apply batch_update_send_local].
  apply preserves_for_each; try apply _. intros b digest.
  apply preserves_bind; try apply _.
  { apply preserves_lift_fst, read_file_unchanged. }
  intros data. destruct (negb _); [apply preserves_raise; apply _|].
  apply preserves_bind; try apply _; [apply preserves_get; apply _|]. intros s.
  destruct (_ || _)%bool.
  - apply preserves_bind; try apply _; [apply preserves_lift_snd; apply _|].
    intros []. apply preserves_ret; apply _.
  - destruct (batch_update_add b digest data) as [b' [|]]; [apply preserves_ret; apply _|].
    apply preserves_bind; try apply _; [apply batch_update_send_local|]. intros [].
    apply preserves_bind; try apply _.
    { apply preserves_bind; try apply _; [apply preserves_get; apply _|].
      intros s'. apply preserves_ret; apply _. }
    intros b2. apply preserves_ret; apply _.
Qed.

Lemma _send_directory_local fuel self digest :
  preserves (on_fst (X:=R) eq) (_send_directory fuel self digest).
Proof.
  unfold _send_directory.
  apply preserves_bind; try apply _; [apply preserves_get; apply _|]. intros s.
  destruct (_required_blobs fuel self (fst s) digest) as [required_blobs failure].
  apply preserves_bind; try apply _.
  - apply preserves_for_each; try apply _. intros missing group.
    apply preserves_bind; try apply _.
    + destruct failure as [e|]; [|apply preserves_ret; apply _].
      destruct (_ <? _)%nat; [apply preserves_raise | apply preserves_ret]; apply _.
    + intros []. apply preserves_bind; try apply _; [apply preserves_lift_snd; apply _|].
      intros response. apply preserves_ret; apply _.
  - intros missing. apply preserves_bind; try apply _.
    + destruct failure; [apply preserves_raise | apply preserves_ret]; apply _.
    + intros []. apply _send_blobs_local.
Qed.

Lemma push_ref_local fuel self ref :
  preserves (on_fst (X:=bool) (on_fst (X:=R) eq)) (push_ref fuel self ref).
Proof.
  unfold push_ref.
  apply preserves_bind; try apply _.
  { apply preserves_lift_fst, preserves_lift_fst, resolve_ref_unchanged. }
  intros tree. apply preserves_bind; try apply _.
  - apply preserves_try_except; try apply _.
    + apply preserves_bind; try apply _.
      * apply preserves_lift_fst, preserves_lift_snd; apply _.
      * intros response. apply preserves_ret; apply _.
    + intros e. destruct e; try (apply preserves_raise; apply _).
      destruct (negb _); [apply preserves_raise | apply preserves_ret]; apply _.
  - intros [|]; [apply preserves_ret; apply _|].
    apply preserves_bind; try apply _.
    { apply preserves_lift_fst, _send_directory_local. }
    intros []. apply preserves_bind; try apply _.
    { apply preserves_lift_fst, preserves_lift_snd; apply _. }
    intros []. apply preserves_set_obj; apply _.
Qed.

(** [push] and [push_directory] read the local repository and never
    write to it: whatever the server answers and however the call ends,
    the local file system is afterwards what it was. *)
Theorem push_leaves_local fuel self :
  (forall refs f r f' r' outcome,
      push fuel self refs (f, r) = ((f', r'), outcome) -> f' = f)
  /\ (forall digest f r f' r' outcome,
        push_directory fuel self digest (f, r) = ((f', r'), outcome) -> f' = f).
Proof.
  split.
  - intros refs f r f' r' outcome. unfold push, with_obj.
    destruct (try_except _ push_except (f, r, true)) as [[[f1 r1] b] res] eqn:Hloop.
    assert (Hlocal : preserves (on_fst (X:=bool) (on_fst (X:=R) eq))
                       (try_except (for_each refs tt (fun _ ref => push_ref fuel self ref))
                          push_except)).
    { apply preserves_try_except; try apply _.
      - apply preserves_for_each; try apply _. intros [] ref. apply push_ref_local.
      - intros e. unfold push_except. destruct e; try (apply preserves_raise; apply _).
        destruct (negb _); [apply preserves_raise | apply preserves_ret]; apply _. }
    apply Hlocal in Hloop. unfold on_fst in Hloop. simpl in Hloop.
    destruct res; intros Hr; inversion Hr; subst; reflexivity.
  - intros digest f r f' r' outcome Hpush.
    assert (Hlocal : preserves (on_fst (X:=R) eq) (push_directory fuel self digest)).
    { unfold push_directory. apply preserves_bind; try apply _.
      - apply preserves_lift_snd; apply _.
      - intros []. apply _send_directory_local. }
    apply Hlocal in Hpush. unfold on_fst in Hpush. simpl in Hpush. congruence.
Qed.
End PushLocal.

(** Pushing both refs of the scenario to an empty server: the local
    repository is what it was. *)
Lemma push_leaves_local_witness :
  fst (fst (push 9 cache ["r1"; "r2"] (two_refs_fs, server_with_budget 100))) = two_refs_fs.
Proof.
  destruct (push 9 cache ["r1"; "r2"] (two_refs_fs, server_with_budget 100))
    as [[f' r'] outcome] eqn:Hrun.
  exact (proj1 (push_leaves_local 9 cache) _ _ _ _ _ _ Hrun).
Defined.

(** ** Listings by modification time *)

Lemma children_exist f p name : In name (children f p) -> exists_ f (path_join p name) = true.
Proof.
  unfold children. intros Hin. apply list_elem_of_In in Hin.
  apply list_elem_of_omap in Hin as (k & Hk & Hname).
  destruct (_ && _ && String.eqb (path_join p (basename k)) k)%bool eqn:Hcond; [|discriminate].
  apply andb_prop in Hcond as [_ Hjoin]. apply String.eqb_eq in Hjoin.
  injection Hname as <-. rewrite Hjoin.
  apply list_elem_of_fmap in Hk as ([k' x] & -> & Hkx).
  apply elem_of_map_to_list in Hkx. unfold exists_. simpl. rewrite Hkx. reflexivity.
Qed.

Lemma walk_exist : forall fuel f top root files,
  In (root, files) (walk fuel f top) ->
  forall name, In name files -> exists_ f (path_join root name) = true.
Proof.
  induction fuel as [|fuel IH]; intros f top root files; simpl; [contradiction|].
  destruct (isdir f top); [|contradiction].
  intros [Hhead | Hrest] name Hname.
  - injection Hhead as <- <-. apply list_elem_of_In, list_elem_of_filter in Hname as [_ Hname].
    apply children_exist, list_elem_of_In, Hname.
  - apply in_flat_map in Hrest as (d & _ & Hrest). exact (IH _ _ _ _ Hrest name Hname).
Qed.

Lemma walk_files_exist fuel f top rf :
  In rf (walk_files fuel f top) -> exists_ f (path_join (fst rf) (snd rf)) = true.
Proof.
  unfold walk_files. intros Hin. apply in_flat_map in Hin as ([root files] & Hwalk & Hin).
  apply in_map_iff in Hin as (name & <- & Hname). simpl.
  exact (walk_exist _ _ _ _ _ Hwalk name Hname).
Qed.

Lemma getmtime_exists mtime p f : exists_ f p = true -> getmtime mtime p f = (f, Ok (mtime p)).
Proof. unfold getmtime. intros ->. reflexivity. Qed.

#[local] Instance stamped_le_trans : Transitive stamped_le.
Proof.
  intros a b c [Hab | [Hab Hs1]] [Hbc | [Hbc Hs2]]; unfold stamped_le.
  - left. lia.
  - left. lia.
  - left. lia.
  - right. split; [lia|]. etransitivity; eassumption.
Qed.

#[local] Instance stamped_le_total : Total stamped_le.
Proof.
  intros a b. unfold stamped_le.
  destruct (Z.lt_trichotomy (fst a) (fst b)) as [Hlt | [Heq | Hgt]]; [auto | | auto].
  destruct (total String.le (snd a) (snd b)); [left | right]; right; split; auto.
Qed.

Lemma StronglySorted_lookup {A} (R : A -> A -> Prop) (l : list A) :
  StronglySorted R l ->
  forall i j a b, (i < j)%nat -> l !! i = Some a -> l !! j = Some b -> R a b.
Proof.
  induction 1 as [|x l Hsorted IH Hall]; intros i j a b Hij Hi Hj; [discriminate Hi|].
  destruct j as [|j]; [lia|]. simpl in Hj.
  destruct i as [|i].
  - injection Hi as <-. rewrite List.Forall_forall in Hall.
    apply Hall, list_elem_of_In, (list_elem_of_lookup_2 _ j), Hj.
  - simpl in Hi. apply (IH i j); [lia | exact Hi | exact Hj].
Qed.

Lemma sorted_stamped_oldest_first mtimes names : oldest_first (sorted_stamped mtimes names).
Proof.
  intros i j a b Hij Hi Hj.
  assert (Hle : stamped_le a b).
  { apply (StronglySorted_lookup stamped_le (sorted_stamped mtimes names)) with i j;
      [|exact Hij | exact Hi | exact Hj].
    apply Sorted_StronglySorted; [apply _|]. apply Sorted_merge_sort, _. }
  destruct Hle as [Hlt | [Heq _]]; lia.
Qed.

Lemma zip_map {A B C} (g : A -> B) (h : A -> C) (l : list A) :
  zip (map g l) (map h l) = map (fun x => (g x, h x)) l.
Proof. induction l as [|x l IH]; [reflexivity|]. simpl. rewrite IH. reflexivity. Qed.

Section ListingsProps.
Context `{Codec}.

Lemma list_refs_loop mtime ref_heads f : forall xs acc,
  (forall rf, In rf xs -> exists_ f (path_join (fst rf) (snd rf)) = true) ->
  for_each xs acc
    (fun (acc : list string * list Z) (rf : string * string) =>
       let ref_path := path_join (fst rf) (snd rf) in
       let refs := (fst acc ++ [relpath ref_path ref_heads])%list in
       let* m := getmtime mtime ref_path in
       ret (refs, (snd acc ++ [m])%list)) f
  = (f, Ok ((fst acc ++ map (fun rf => relpath (path_join (fst rf) (snd rf)) ref_heads) xs)%list,
            (snd acc ++ map (fun rf => mtime (path_join (fst rf) (snd rf))) xs)%list)).
Proof.
  induction xs as [|rf xs IH]; intros acc Hex; simpl.
  - rewrite !app_nil_r. destruct acc; reflexivity.
  - unfold bind at 1. unfold bind at 1.
    rewrite (getmtime_exists mtime _ f (Hex rf (or_introl eq_refl))).
    unfold ret at 1. rewrite IH by (intros rf' Hin; apply Hex; right; exact Hin).
    simpl. rewrite <- !app_assoc. reflexivity.
Qed.

Lemma list_objects_loop mtime f : forall xs acc,
  (forall rf, In rf xs -> exists_ f (path_join (fst rf) (snd rf)) = true) ->
  for_each xs acc
    (fun (acc : list string * list Z) (rf : string * string) =>
       let obj_path := path_join (fst rf) (snd rf) in
       try_except
         (let* m := getmtime mtime obj_path in
          ret (fst acc ++ [obj_path], snd acc ++ [m])%list)
         (fun e => match e with
                   | FileNotFoundError => ret acc
                   | _ => raise e
                   end)) f
  = (f, Ok ((fst acc ++ map (fun rf => path_join (fst rf) (snd rf)) xs)%list,
            (snd acc ++ map (fun rf => mtime (path_join (fst rf) (snd rf))) xs)%list)).
Proof.
  induction xs as [|rf xs IH]; intros acc Hex; simpl.
  - rewrite !app_nil_r. destruct acc; reflexivity.
  - unfold bind at 1. unfold try_except, bind at 1.
    rewrite (getmtime_exists mtime _ f (Hex rf (or_introl eq_refl))).
    unfold ret at 1. rewrite IH by (intros rf' Hin; apply Hex; right; exact Hin).
    simpl. rewrite <- !app_assoc. reflexivity.
Qed.

(** The listings by age.  [list_refs] and [list_objects] read the file
    system and leave it as it is; neither fails.  [list_refs] returns the
    ref names of the files under [refs/heads], one for each file, and
    [list_objects] the files under [objects] with their time stamps;
    both in an order in which time stamps never decrease, so that the
    least recently modified comes first. *)
Theorem listings_oldest_first fuel mtime self f :
  (exists stamped,
      list_refs fuel mtime self f = (f, Ok (map snd stamped))
      /\ stamped ≡ₚ ref_stamps fuel mtime self f
      /\ map snd stamped ≡ₚ ref_names fuel self f
      /\ oldest_first stamped)
  /\ (exists stamped,
        list_objects fuel mtime self f = (f, Ok stamped)
        /\ stamped ≡ₚ object_stamps fuel mtime self f
        /\ oldest_first stamped).
Proof.
  split.
  - eexists. split; [|split; [|split]].
    + unfold list_refs. rewrite bind_get.
      erewrite bind_ok by (apply list_refs_loop; intros rf; apply walk_files_exist).
      simpl. reflexivity.
    + unfold sorted_stamped. rewrite merge_sort_Permutation, zip_map. reflexivity.
    + unfold sorted_stamped. rewrite merge_sort_Permutation, zip_map.
      unfold ref_names. rewrite map_map. reflexivity.
    + apply sorted_stamped_oldest_first.
  - eexists. split; [|split].
    + unfold list_objects. rewrite bind_get.
      erewrite bind_ok by (apply list_objects_loop; intros rf; apply walk_files_exist).
      simpl. reflexivity.
    + unfold sorted_stamped. rewrite merge_sort_Permutation, zip_map. reflexivity.
    + apply sorted_stamped_oldest_first.
Qed.
End ListingsProps.

(** The two refs of the scenario, [r1] stamped 1 and [r2] stamped 3: both
    are listed, [r1] first. *)
Lemma listings_oldest_first_witness :
  snd (list_refs 5 r1_older cache two_refs_fs) = Ok ["r1"; "r2"]
  /\ exists stamped,
       list_refs 5 r1_older cache two_refs_fs = (two_refs_fs, Ok (map snd stamped))
       /\ stamped ≡ₚ ref_stamps 5 r1_older cache two_refs_fs
       /\ map snd stamped ≡ₚ ref_names 5 cache two_refs_fs
       /\ oldest_first stamped.
Proof.
  split; [vm_compute; reflexivity|].
  exact (proj1 (listings_oldest_first 5 r1_older cache two_refs_fs)).
Defined.

(** ** Expiring refs *)

Lemma unlink_removes q f f' r :
  unlink q f = (f', r) ->
  (forall p x, nodes f' !! p = Some x -> nodes f !! p = Some x)
  /\ (forall p x, nodes f !! p = Some x -> p <> q -> nodes f' !! p = Some x)
  /\ (r = Ok tt -> nodes f' !! q = None).
Proof.
  unfold unlink. intros Hr.
  assert (Hdel : forall g, nodes g = delete q (nodes f) ->
            (forall p x, nodes g !! p = Some x -> nodes f !! p = Some x)
            /\ (forall p x, nodes f !! p = Some x -> p <> q -> nodes g !! p = Some x)
            /\ (nodes g !! q = None)).
  { intros g ->. split; [|split].
    - intros p x Hp. apply lookup_delete_Some in Hp as [_ Hp]. exact Hp.
    - intros p x Hp Hne. rewrite lookup_delete_ne by congruence. exact Hp.
    - apply lookup_delete_eq. }
  assert (Hsame : (forall p x, nodes f !! p = Some x -> nodes f !! p = Some x)
                  /\ (forall p x, nodes f !! p = Some x -> p <> q -> nodes f !! p = Some x))
    by auto.
  destruct (nodes f !! q) as [[| i | | | | |]|] eqn:Hq; injection Hr as <- <-;
    first [ destruct Hsame as [H1 H2]; split; [exact H1 | split; [exact H2 | intros Hx; discriminate Hx]]
          | match goal with
            | |- context [nodes ?g !! q = None] =>
                destruct (Hdel g eq_refl) as (H1 & H2 & H3);
                split; [exact H1 | split; [exact H2 | intros _; exact H3]]
            end ].
Qed.

Lemma clean_up_loop (mtime : string -> Z) (time : Z) : forall xs f f' r,
  for_each xs tt
    (fun (_ : unit) (rf : string * string) =>
       let ref_path := path_join (fst rf) (snd rf) in
       let* m := getmtime mtime ref_path in
       if m <? time then unlink ref_path else ret tt) f = (f', r) ->
  (forall p x, nodes f' !! p = Some x -> nodes f !! p = Some x)
  /\ (forall p x, nodes f !! p = Some x ->
        ~ (In p (map (fun rf => path_join (fst rf) (snd rf)) xs) /\ mtime p < time) ->
        nodes f' !! p = Some x)
  /\ (r = Ok tt ->
      forall p, In p (map (fun rf => path_join (fst rf) (snd rf)) xs) -> mtime p < time ->
                nodes f' !! p = None).
Proof.
  induction xs as [|rf xs IH]; intros f f' r; simpl.
  - intros Hr; injection Hr as <- <-. split; [auto | split; [auto | intros _ p []]].
  - set (q := path_join (fst rf) (snd rf)).
    unfold bind at 1.
    destruct ((let* m := getmtime mtime q in if m <? time then unlink q else ret tt) f)
      as [f1 [[]|e]] eqn:Hstep.
    + intros Hloop. destruct (IH _ _ _ Hloop) as (Hnew & Hkept & Hgone).
      unfold bind, getmtime in Hstep. destruct (exists_ f q); [|discriminate Hstep].
      destruct (mtime q <? time) eqn:Hold.
      * apply Z.ltb_lt in Hold.
        destruct (unlink_removes _ _ _ _ Hstep) as (Hnew1 & Hkept1 & Hgone1).
        split; [|split].
        -- intros p x Hp. apply Hnew1, Hnew, Hp.
        -- intros p x Hp Hnot. apply Hkept.
           ++ apply Hkept1; [exact Hp|]. intros ->. apply Hnot. split; [left; reflexivity | exact Hold].
           ++ intros [Hin Hlt]. apply Hnot. split; [right; exact Hin | exact Hlt].
        -- intros Hr p [<- | Hin] Hlt; [|exact (Hgone Hr p Hin Hlt)].
           destruct (nodes f' !! q) as [x|] eqn:Hq; [|reflexivity].
           apply Hnew in Hq. rewrite (Hgone1 eq_refl) in Hq. discriminate Hq.
      * apply Z.ltb_ge in Hold. injection Hstep as <-.
        split; [exact Hnew | split].
        -- intros p x Hp Hnot. apply Hkept; [exact Hp|].
           intros [Hin Hlt]. apply Hnot. split; [right; exact Hin | exact Hlt].
        -- intros Hr p [<- | Hin] Hlt; [lia | exact (Hgone Hr p Hin Hlt)].
    + intros Hr; injection Hr as <- <-.
      unfold bind, getmtime in Hstep. destruct (exists_ f q).
      * destruct (mtime q <? time) eqn:Hold; [|discriminate Hstep].
        apply Z.ltb_lt in Hold.
        destruct (unlink_removes _ _ _ _ Hstep) as (Hnew1 & Hkept1 & _).
        split; [exact Hnew1 | split; [|discriminate]].
        intros p x Hp Hnot. apply Hkept1; [exact Hp|].
        intros ->. apply Hnot. split; [left; reflexivity | exact Hold].
      * injection Hstep as <- _. split; [auto | split; [auto | discriminate]].
Qed.

Section Expiry.
Context `{Codec}.

(** What [clean_up_refs_until(time)] removes.  However the call ends, it
    adds no entry to the file system, and an entry stays as it is unless
    it is a file that the walk of [refs/heads] finds and whose time stamp
    is before [time]; when the call returns, each of those files is
    gone.  A ref stamped at [time] or later, and every object, is kept. *)
Theorem clean_up_refs_until_expires fuel mtime self time f f' r :
  clean_up_refs_until fuel mtime self time f = (f', r) ->
  (forall p x, nodes f' !! p = Some x -> nodes f !! p = Some x)
  /\ (forall p x, nodes f !! p = Some x ->
        ~ (In p (ref_paths fuel self f) /\ mtime p < time) ->
        nodes f' !! p = Some x)
  /\ (r = Ok tt ->
      forall p, In p (ref_paths fuel self f) -> mtime p < time -> nodes f' !! p = None).
Proof.
  unfold clean_up_refs_until. rewrite bind_get. exact (clean_up_loop mtime time _ f f' r).
Qed.
End Expiry.

(** Two refs, [r1] stamped 1 and [r2] stamped 3; the refs before time 2
    are removed: [r1] goes, [r2] and the blob of [a.txt] stay. *)
Lemma clean_up_refs_until_expires_witness :
  nodes (fst (clean_up_refs_until 5 r1_older cache 2 two_refs_fs)) !! _refpath cache "r1" = None
  /\ nodes (fst (clean_up_refs_until 5 r1_older cache 2 two_refs_fs)) !! _refpath cache "r2"
     = nodes two_refs_fs !! _refpath cache "r2"
  /\ nodes (fst (clean_up_refs_until 5 r1_older cache 2 two_refs_fs))
       !! objpath cache (digest_of "hello")
     = nodes two_refs_fs !! objpath cache (digest_of "hello").
Proof.
  assert (Hr : snd (clean_up_refs_until 5 r1_older cache 2 two_refs_fs) = Ok tt)
    by (vm_compute; reflexivity).
  destruct (clean_up_refs_until_expires 5 r1_older cache 2 two_refs_fs _ (Ok tt)
              (run_eq _ _ _ Hr)) as (_ & Hkept & Hgone).
  split; [|split].
  - apply (Hgone eq_refl); [vm_compute; auto | vm_compute; reflexivity].
  - destruct (nodes two_refs_fs !! _refpath cache "r2") as [x|] eqn:Hx;
      [|vm_compute in Hx; discriminate Hx].
    apply Hkept; [exact Hx|]. intros [_ Hlt]. vm_compute in Hlt. discriminate Hlt.
  - destruct (nodes two_refs_fs !! objpath cache (digest_of "hello")) as [x|] eqn:Hx;
      [|vm_compute in Hx; discriminate Hx].
    apply Hkept; [exact Hx|]. intros [Hin _]. revert Hin. vm_compute. intros Hin.
    repeat (destruct Hin as [Hin | Hin]; [discriminate Hin|]). exact Hin.
Defined.

(** ** Setting up a repository *)

Lemma list_ascii_of_string_app (a b : string) :
  list_ascii_of_string (a ++ b) = (list_ascii_of_string a ++ list_ascii_of_string b)%list.
Proof. induction a as [|c a IH]; [reflexivity|]. simpl. rewrite IH. reflexivity. Qed.

Lemma take_while_all (p : ascii -> bool) (l : list ascii) :
  forallb p l = true -> take_while p l = l.
Proof.
  induction l as [|c l IH]; [reflexivity|]. simpl. intros Hall.
  apply andb_prop in Hall as [-> Hall]. rewrite (IH Hall). reflexivity.
Qed.

Lemma take_while_stop (p : ascii -> bool) (l1 l2 : list ascii) (c : ascii) :
  forallb p l1 = true -> p c = false -> take_while p (l1 ++ c :: l2) = l1.
Proof.
  induction l1 as [|d l1 IH]; simpl; intros Hall Hc; [rewrite Hc; reflexivity|].
  apply andb_prop in Hall as [-> Hall]. rewrite (IH Hall Hc). reflexivity.
Qed.

Lemma ends_with_sep_snoc (a : string) :
  ends_with_sep a = true -> exists l, list_ascii_of_string a = (l ++ [sep])%list.
Proof.
  induction a as [|c a IH]; [discriminate|]. simpl. destruct a as [|d a].
  - intros Hc. apply Ascii.eqb_eq in Hc as ->. exists []. reflexivity.
  - intros Hend. destruct (IH Hend) as [l Hl]. exists (c :: l). simpl in Hl |- *.
    rewrite Hl. reflexivity.
Qed.

(** [os.path.basename(os.path.join(a, b))] is [b], for a plain name. *)
Lemma basename_join a b : plain_name b -> basename (path_join a b) = b.
Proof.
  intros [Hne Hplain].
  assert (Hrev : forallb (fun c => negb (is_sep c)) (rev (list_ascii_of_string b)) = true).
  { rewrite forallb_forall in Hplain |- *. intros c Hc. apply Hplain, in_rev, Hc. }
  assert (Hstart : starts_with_sep b = false).
  { destruct b as [|c b]; [reflexivity|]. simpl in Hplain |- *.
    apply andb_prop in Hplain as [Hc _]. unfold is_sep in Hc.
    destruct (Ascii.eqb c sep); [discriminate Hc | reflexivity]. }
  assert (Hcases : path_join a b = b
                   \/ exists l, list_ascii_of_string (path_join a b)
                                = (l ++ sep :: list_ascii_of_string b)%list).
  { unfold path_join. rewrite Hstart. destruct (String.eqb a "") eqn:Ha.
    - apply String.eqb_eq in Ha as ->. left. reflexivity.
    - simpl. right. destruct (ends_with_sep a) eqn:Hend.
      + destruct (ends_with_sep_snoc a Hend) as [l Hl]. exists l.
        rewrite list_ascii_of_string_app, Hl, <- app_assoc. reflexivity.
      + exists (list_ascii_of_string a).
        rewrite list_ascii_of_string_app. reflexivity. }
  unfold basename, path_split. simpl.
  destruct Hcases as [-> | [l ->]].
  - rewrite take_while_all by exact Hrev.
    rewrite rev_involutive. apply string_of_list_ascii_of_string.
  - rewrite rev_app_distr. simpl. rewrite <- app_assoc. simpl.
    rewrite take_while_stop by (exact Hrev || reflexivity).
    rewrite rev_involutive. apply string_of_list_ascii_of_string.
Qed.

(** [os.makedirs(name)] leaves [name] a directory when it returns,
    provided the last component of [name] is not [.]. *)
Lemma makedirs_isdir name f f' :
  makedirs name f = (f', Ok tt) ->
  snd (makedirs_split name) <> "." ->
  isdir f' name = true.
Proof.
  unfold makedirs. simpl. rewrite bind_get. intros Hrun Htail.
  apply bind_inv_ok in Hrun as (f1 & early & Hearly & Hrun).
  assert (Hfalse : early = false).
  { destruct (makedirs_parent_missing f name); [|injection Hearly as _ <-; reflexivity].
    apply bind_inv_ok in Hearly as (f0 & [] & _ & Hret). injection Hret as _ <-.
    apply String.eqb_neq, Htail. }
  subst early. unfold try_except in Hrun.
  destruct (mkdir name f1) as [f2 [[]|e]] eqn:Hmk.
  - injection Hrun as <-. unfold mkdir in Hmk.
    destruct (exists_ f1 name); [discriminate Hmk|].
    destruct (parent_isdir f1 name); [|discriminate Hmk].
    injection Hmk as <-. unfold isdir. simpl. rewrite lookup_insert_eq. reflexivity.
  - destruct (is_OSError e); [|discriminate Hrun]. rewrite bind_get in Hrun.
    destruct (isdir f2 name) eqn:Hdir; [|discriminate Hrun].
    injection Hrun as <-. exact Hdir.
Qed.

Lemma makedirs_join_isdir a b f f' :
  plain_name b -> b <> "." ->
  makedirs (path_join a b) f = (f', Ok tt) ->
  isdir f' (path_join a b) = true.
Proof.
  intros Hplain Hdot Hmk. apply (makedirs_isdir _ _ _ Hmk).
  unfold makedirs_split. rewrite (basename_join a b Hplain).
  destruct (String.eqb_spec b "") as [Hb | _]; [destruct Hplain as [Hne _]; contradiction|].
  change (basename (path_join a b) <> "."). rewrite (basename_join a b Hplain). exact Hdot.
Qed.

Lemma isdir_kept f f' p :
  (forall x, nodes f !! p = Some x -> nodes f' !! p = Some x) ->
  isdir f p = true -> isdir f' p = true.
Proof.
  unfold isdir. intros Hkeep. destruct (nodes f !! p) as [[]|] eqn:Hp; try discriminate.
  rewrite (Hkeep _ eq_refl). reflexivity.
Qed.

Section Setup.
Context `{Hash} `{Codec}.

(** The constructor and the pre-flight check.  When [CASCache(path)]
    returns, its [refs/heads], [objects] and [tmp] are directories, so
    that [preflight()] passes; every entry that was in the file system
    is still there, no file has changed, and each new entry is a
    directory. *)
Theorem init_passes_preflight path f f' self :
  CASCache_init path f = (f', Ok self) ->
  casdir self = path_join path "cas"
  /\ tmpdir self = path_join path "tmp"
  /\ preflight self f' = (f', Ok tt)
  /\ isdir f' (tmpdir self) = true
  /\ inodes f' = inodes f
  /\ (forall p x, nodes f !! p = Some x -> nodes f' !! p = Some x)
  /\ (forall p x, nodes f' !! p = Some x -> nodes f !! p = Some x \/ x = FDir).
Proof.
  unfold CASCache_init. cbn [casdir tmpdir]. intros Hinit.
  apply bind_inv_ok in Hinit as (f1 & [] & Hheads & Hinit).
  apply bind_inv_ok in Hinit as (f2 & [] & Hobjects & Hinit).
  apply bind_inv_ok in Hinit as (f3 & [] & Htmp & Hret).
  injection Hret as <- <-. cbn [casdir tmpdir].
  assert (Hplain : forall b, (b = "heads" \/ b = "objects" \/ b = "tmp") ->
                             plain_name b /\ b <> ".").
  { intros b [-> | [-> | ->]]; (split; [split; [discriminate | reflexivity] | discriminate]). }
  pose proof (fun p x => keeps_makedirs p _ _ _ _ x Hobjects) as Hkeep2.
  pose proof (fun p x => keeps_makedirs p _ _ _ _ x Htmp) as Hkeep3.
  pose proof (fun p x => keeps_makedirs p _ _ _ _ x Hheads) as Hkeep1.
  simpl in Hkeep1, Hkeep2, Hkeep3.
  destruct (makedirs_adds _ _ _ _ Hheads) as [Hino1 Hadds1].
  destruct (makedirs_adds _ _ _ _ Hobjects) as [Hino2 Hadds2].
  destruct (makedirs_adds _ _ _ _ Htmp) as [Hino3 Hadds3].
  assert (Hd1 : isdir f3 (path_join_all (path_join path "cas") ["refs"; "heads"]) = true).
  { apply (isdir_kept f1); [intros x Hx; apply Hkeep3, Hkeep2, Hx|].
    destruct (Hplain "heads") as [Hp Hdot]; [auto|].
    exact (makedirs_join_isdir _ _ _ _ Hp Hdot Hheads). }
  assert (Hd2 : isdir f3 (path_join_all (path_join path "cas") ["objects"]) = true).
  { apply (isdir_kept f2); [intros x Hx; apply Hkeep3, Hx|].
    destruct (Hplain "objects") as [Hp Hdot]; [auto|].
    exact (makedirs_join_isdir _ _ _ _ Hp Hdot Hobjects). }
  split; [reflexivity|]. split; [reflexivity|]. split; [|split; [|split; [|split]]].
  - unfold preflight. cbn [casdir]. rewrite bind_get, Hd1, Hd2. reflexivity.
  - destruct (Hplain "tmp") as [Hp Hdot]; [auto|].
    exact (makedirs_join_isdir _ _ _ _ Hp Hdot Htmp).
  - congruence.
  - intros p x Hx. apply Hkeep3, Hkeep2, Hkeep1, Hx.
  - intros p x Hx. destruct (Hadds3 p x Hx) as [Hx2 | ->]; [|auto].
    destruct (Hadds2 p x Hx2) as [Hx1 | ->]; [|auto]. exact (Hadds1 p x Hx1).
Qed.
End Setup.

(** A cache at [cache] in an empty file system passes the check. *)
Lemma init_passes_preflight_witness :
  preflight cache (fst (CASCache_init "cache" empty_fs))
  = (fst (CASCache_init "cache" empty_fs), Ok tt).
Proof.
  assert (Hinit : snd (CASCache_init "cache" empty_fs) = Ok cache)
    by (vm_compute; reflexivity).
  exact (proj1 (proj2 (proj2 (init_passes_preflight "cache" empty_fs _ cache
                                 (run_eq _ _ _ Hinit))))).
Defined.

(** ** Checking out a tree *)

#[local] Instance grows_refl : Reflexive grows.
Proof. intros f. split; [auto|]. intros i n Hi. exists n. auto. Qed.

#[local] Instance grows_trans : Transitive grows.
Proof.
  intros f1 f2 f3 [Hn12 Hi12] [Hn23 Hi23]. split; [auto|].
  intros i n Hi. destruct (Hi12 i n Hi) as (n2 & Hi2 & Hd2 & Hm2).
  destruct (Hi23 i n2 Hi2) as (n3 & Hi3 & Hd3 & Hm3).
  exists n3. split; [exact Hi3|]. split; [congruence|].
  destruct Hm3 as [Hm3 | Hm3]; [|auto]. destruct Hm2 as [Hm2 | Hm2]; [left | right]; congruence.
Qed.

Lemma grows_exists f f' p : grows f f' -> exists_ f p = true -> exists_ f' p = true.
Proof.
  intros [Hn _]. unfold exists_. destruct (nodes f !! p) as [x|] eqn:Hp; [|discriminate].
  rewrite (Hn p x Hp). reflexivity.
Qed.

Lemma grows_isdir f f' p : grows f f' -> isdir f p = true -> isdir f' p = true.
Proof. intros [Hn _]. apply isdir_kept. intros x. apply Hn. Qed.

Lemma grows_read_file f f' p data :
  grows f f' -> read_file p f = (f, Ok data) -> read_file p f' = (f', Ok data).
Proof.
  intros [Hn Hi]. unfold read_file.
  destruct (nodes f !! p) as [[| i | | | | |]|] eqn:Hp; try discriminate.
  destruct (inodes f !! i) as [n|] eqn:Hino; [|discriminate].
  intros Hr. injection Hr as <-. rewrite (Hn p _ Hp).
  destruct (Hi i n Hino) as (n' & -> & -> & _). reflexivity.
Qed.

Lemma makedirs_grows q : preserves grows (makedirs q).
Proof.
  intros f f' r Hmk. split.
  - intros p x Hp. exact (keeps_makedirs p q _ _ _ x Hmk Hp).
  - destruct (makedirs_adds _ _ _ _ Hmk) as [-> _]. intros i n Hi. exists n. auto.
Qed.

Lemma link_grows src dst : preserves grows (link src dst).
Proof.
  intros f f' r. unfold link.
  destruct (nodes f !! src) as [[| i | | | | |]|]; try (intros Hr; injection Hr as <- _; reflexivity).
  destruct (inodes f !! i) as [n|] eqn:Hino; [|intros Hr; injection Hr as <- _; reflexivity].
  destruct (exists_ f dst) eqn:Hdst; [intros Hr; injection Hr as <- _; reflexivity|].
  destruct (parent_isdir f dst); intros Hr; injection Hr as <- _; [|reflexivity].
  split; simpl.
  - intros p x Hp. rewrite lookup_insert_ne; [exact Hp|].
    intros <-. unfold exists_ in Hdst. rewrite Hp in Hdst. discriminate Hdst.
  - intros j m Hj. destruct (decide (i = j)) as [<-|Hne].
    + rewrite lookup_insert_eq. eexists. split; [reflexivity|]. simpl.
      rewrite Hino in Hj. injection Hj as <-. auto.
    + rewrite lookup_insert_ne by exact Hne. exists m. auto.
Qed.

Lemma chmod_grows p : preserves grows (chmod p 493).
Proof.
  intros f f' r. unfold chmod.
  destruct (nodes f !! p) as [[| i | | | | |]|]; try (intros Hr; injection Hr as <- _; reflexivity).
  destruct (inodes f !! i) as [n|] eqn:Hino; intros Hr; injection Hr as <- _; [|reflexivity].
  split; simpl; [auto|].
  intros j m Hj. destruct (decide (i = j)) as [<-|Hne].
  - rewrite lookup_insert_eq. eexists. split; [reflexivity|]. simpl.
    rewrite Hino in Hj. injection Hj as <-. auto.
  - rewrite lookup_insert_ne by exact Hne. exists m. auto.
Qed.

Lemma symlink_grows target p : preserves grows (symlink target p).
Proof.
  intros f f' r. unfold symlink.
  destruct (exists_ f p) eqn:Hp; [intros Hr; injection Hr as <- _; reflexivity|].
  destruct (parent_isdir f p); intros Hr; injection Hr as <- _; [|reflexivity].
  split; simpl.
  - intros q x Hq. rewrite lookup_insert_ne; [exact Hq|].
    intros <-. unfold exists_ in Hp. rewrite Hq in Hp. discriminate Hp.
  - intros i n Hi. exists n. auto.
Qed.

Lemma grows_linked self f f' dest filenode :
  grows f f' -> linked self f dest filenode -> linked self f' dest filenode.
Proof.
  intros [Hn Hi] (i & n & Hfull & Hobj & Hino & Hexec).
  destruct (Hi i n Hino) as (n' & Hino' & _ & Hmode).
  exists i, n'. split; [exact (Hn _ _ Hfull)|]. split; [exact (Hn _ _ Hobj)|].
  split; [exact Hino'|]. intros Hx. destruct Hmode as [Hmode | Hmode]; [|exact Hmode].
  rewrite Hmode. exact (Hexec Hx).
Qed.

Section CheckoutMirrors.
Context `{Codec}.

Lemma read_directory_unchanged self tree : preserves grows (read_directory self tree).
Proof.
  intros f f' r Hr. apply read_directory_state in Hr as ->. reflexivity.
Qed.

Lemma grows_read_directory self tree f f' directory :
  grows f f' ->
  read_directory self tree f = (f, Ok directory) ->
  read_directory self tree f' = (f', Ok directory).
Proof.
  intros Hgrows. unfold read_directory. unfold bind at 1.
  destruct (read_file (objpath self tree) f) as [f0 [data|e]] eqn:Hread; [|discriminate].
  pose proof (read_file_state _ _ _ _ Hread) as ->.
  intros Hparse. rewrite (bind_ok _ _ _ _ _ (grows_read_file _ _ _ _ Hgrows Hread)).
  destruct (parse_directory data); [|discriminate Hparse].
  injection Hparse as <-. reflexivity.
Qed.

Lemma checkout_file_grows self dest filenode : preserves grows (checkout_file self dest filenode).
Proof.
  unfold checkout_file. apply preserves_bind; try apply _; [apply link_grows|].
  intros []. destruct (FileNode.is_executable filenode);
    [apply chmod_grows | apply preserves_ret; apply _].
Qed.

Lemma _checkout_grows : forall fuel self dest tree, preserves grows (_checkout fuel self dest tree).
Proof.
  induction fuel as [|fuel IH]; intros self dest tree; simpl.
  - apply preserves_raise; apply _.
  - apply preserves_bind; try apply _; [apply makedirs_grows|]. intros [].
    apply preserves_bind; try apply _; [apply read_directory_unchanged|]. intros directory.
    unfold checkout_directory.
    apply preserves_bind; try apply _.
    { apply preserves_for_each; try apply _. intros [] filenode. apply checkout_file_grows. }
    intros []. apply preserves_bind; try apply _.
    { apply preserves_for_each; try apply _. intros [] dirnode. unfold checkout_dirnode.
      apply preserves_bind; try apply _; [apply preserves_get; apply _|]. intros g.
      destruct (exists_ g _); [apply IH | apply preserves_ret; apply _]. }
    intros []. apply preserves_for_each; try apply _. intros [] symlinknode.
    apply symlink_grows.
Qed.

(** A mirror stays one while the file system grows, and needs no more
    than the objects it was made from. *)
Lemma grows_mirrors : forall fuel self f0 f g g' dest tree,
  grows f0 f -> grows g g' ->
  mirrors fuel self f g dest tree -> mirrors fuel self f0 g' dest tree.
Proof.
  induction fuel as [|fuel IH]; intros self f0 f g g' dest tree Hf Hg; simpl; [auto|].
  intros (directory & Hread & Hdir & Hfiles & Hdirs & Hsyms).
  exists directory. split; [exact (grows_read_directory _ _ _ _ _ Hg Hread)|].
  split; [intros Hdot; exact (grows_isdir _ _ _ Hg (Hdir Hdot))|].
  split; [|split].
  - eapply Forall_impl; [exact Hfiles|]. intros filenode. apply grows_linked, Hg.
  - eapply Forall_impl; [exact Hdirs|]. intros dirnode Hsub Hex.
    apply (IH self f0 f g g'); [exact Hf | exact Hg|].
    apply Hsub. exact (grows_exists _ _ _ Hf Hex).
  - eapply Forall_impl; [exact Hsyms|]. intros symlinknode Hs.
    destruct Hg as [Hn _]. exact (Hn _ _ Hs).
Qed.

Lemma checkout_file_linked self dest filenode f f' :
  checkout_file self dest filenode f = (f', Ok tt) -> linked self f' dest filenode.
Proof.
  unfold checkout_file. intros Hrun.
  apply bind_inv_ok in Hrun as (f1 & [] & Hlink & Hchmod).
  set (src := objpath self (FileNode.digest filenode)) in *.
  set (dst := path_join dest (FileNode.name filenode)) in *.
  assert (Hlinked : exists i n, nodes f1 !! dst = Some (FFile i)
                                /\ nodes f1 !! src = Some (FFile i)
                                /\ inodes f1 !! i = Some n).
  { unfold link in Hlink.
    destruct (nodes f !! src) as [[| i | | | | |]|] eqn:Hsrc; try discriminate Hlink.
    destruct (inodes f !! i) as [n|] eqn:Hino; [|discriminate Hlink].
    destruct (exists_ f dst) eqn:Hdst; [discriminate Hlink|].
    destruct (parent_isdir f dst); [|discriminate Hlink].
    injection Hlink as <-. simpl. exists i. eexists.
    rewrite !lookup_insert_eq. split; [reflexivity|]. split; [|reflexivity].
    rewrite lookup_insert_ne; [exact Hsrc|].
    intros <-. unfold exists_ in Hdst. rewrite Hsrc in Hdst. discriminate Hdst. }
  destruct Hlinked as (i & n & Hdst & Hsrc & Hino).
  destruct (FileNode.is_executable filenode) eqn:Hexec.
  - unfold chmod in Hchmod. rewrite Hdst, Hino in Hchmod. injection Hchmod as <-.
    exists i. eexists. simpl. rewrite lookup_insert_eq.
    split; [exact Hdst|]. split; [exact Hsrc|]. split; [reflexivity|]. intros _. reflexivity.
  - injection Hchmod as <-. exists i, n.
    split; [exact Hdst|]. split; [exact Hsrc|]. split; [exact Hino|].
    intros Hx. congruence.
Qed.

Lemma files_loop_linked self dest : forall files f f',
  for_each files tt (fun _ => checkout_file self dest) f = (f', Ok tt) ->
  Forall (linked self f' dest) files.
Proof.
  induction files as [|filenode files IH]; intros f f'; simpl; [constructor|].
  intros Hrun. apply bind_inv_ok in Hrun as (f1 & [] & Hstep & Hrest).
  constructor; [|exact (IH _ _ Hrest)].
  apply (grows_linked self f1); [|exact (checkout_file_linked _ _ _ _ _ Hstep)].
  eapply preserves_for_each; [apply _ | apply _ | | exact Hrest].
  intros [] x. apply checkout_file_grows.
Qed.

Lemma symlinks_loop_placed dest : forall symlinks f f',
  for_each symlinks tt (fun _ => checkout_symlink dest) f = (f', Ok tt) ->
  Forall (fun symlinknode =>
            nodes f' !! path_join dest (SymlinkNode.name symlinknode)
            = Some (FSymlink (SymlinkNode.target symlinknode))) symlinks.
Proof.
  induction symlinks as [|symlinknode symlinks IH]; intros f f'; simpl; [constructor|].
  intros Hrun. apply bind_inv_ok in Hrun as (f1 & [] & Hstep & Hrest).
  constructor; [|exact (IH _ _ Hrest)].
  assert (Hgrows : grows f1 f').
  { eapply preserves_for_each; [apply _ | apply _ | | exact Hrest].
    intros [] x. apply symlink_grows. }
  destruct Hgrows as [Hn _]. apply Hn.
  unfold checkout_symlink, symlink in Hstep.
  destruct (exists_ f _); [discriminate Hstep|].
  destruct (parent_isdir f _); [|discriminate Hstep].
  injection Hstep as <-. simpl. apply lookup_insert_eq.
Qed.

Lemma dirs_loop_mirrors fuel self dest :
  (forall dest tree f f', _checkout fuel self dest tree f = (f', Ok tt) ->
                          mirrors fuel self f f' dest tree) ->
  forall dirs f f',
    for_each dirs tt (fun _ => checkout_dirnode self (_checkout fuel self) dest) f = (f', Ok tt) ->
    Forall (fun dirnode =>
              exists_ f (objpath self (DirectoryNode.digest dirnode)) = true ->
              mirrors fuel self f f' (path_join dest (DirectoryNode.name dirnode))
                (DirectoryNode.digest dirnode)) dirs.
Proof.
  intros Hrec. induction dirs as [|dirnode dirs IH]; intros f f'; simpl; [constructor|].
  intros Hrun. apply bind_inv_ok in Hrun as (f1 & [] & Hstep & Hrest).
  assert (Hrest_grows : grows f1 f').
  { eapply preserves_for_each; [apply _ | apply _ | | exact Hrest].
    intros [] x. unfold checkout_dirnode.
    apply preserves_bind; try apply _; [apply preserves_get; apply _|]. intros g.
    destruct (exists_ g _); [apply _checkout_grows | apply preserves_ret; apply _]. }
  assert (Hstep_grows : grows f f1).
  { unfold checkout_dirnode in Hstep. rewrite bind_get in Hstep.
    destruct (exists_ f _); [exact (_checkout_grows _ _ _ _ _ _ _ Hstep)|].
    injection Hstep as <-. reflexivity. }
  constructor.
  - intros Hex. unfold checkout_dirnode in Hstep. rewrite bind_get, Hex in Hstep.
    apply (grows_mirrors fuel self f f f1 f'); [reflexivity | exact Hrest_grows|].
    exact (Hrec _ _ _ _ Hstep).
  - eapply Forall_impl; [exact (IH _ _ Hrest)|]. intros d Hsub Hex.
    apply (grows_mirrors fuel self f f1 f' f'); [exact Hstep_grows | reflexivity|].
    apply Hsub. exact (grows_exists _ _ _ Hstep_grows Hex).
Qed.

(** What [_checkout(dest, tree)] leaves behind when it returns: [dest]
    mirrors the tree.  Each file of the Directory is a hard link to its
    blob, so it reads as the blob does, and is mode 0755 if its node is
    executable; each symbolic link is there with its target; each
    subdirectory whose Directory object was in the cache is checked out
    in the same way.  Nothing that was in the file system has gone, and
    no file has other bytes than before. *)
Theorem checkout_mirrors_tree : forall fuel self dest tree f f',
  _checkout fuel self dest tree f = (f', Ok tt) ->
  grows f f' /\ mirrors fuel self f f' dest tree.
Proof.
  intros fuel self dest tree f f' Hrun.
  split; [exact (_checkout_grows _ _ _ _ _ _ _ Hrun)|].
  revert dest tree f f' Hrun.
  induction fuel as [|fuel IH]; intros dest tree f f'; simpl; [discriminate|].
  intros Hrun.
  apply bind_inv_ok in Hrun as (f1 & [] & Hmk & Hrun).
  apply bind_inv_ok in Hrun as (f0 & directory & Hread & Hrun).
  pose proof (read_directory_state _ _ _ _ _ Hread) as ->.
  unfold checkout_directory in Hrun.
  apply bind_inv_ok in Hrun as (f2 & [] & Hfiles & Hrun).
  apply bind_inv_ok in Hrun as (f3 & [] & Hdirs & Hsyms).
  assert (G01 : grows f f1) by exact (makedirs_grows _ _ _ _ Hmk).
  assert (G12 : grows f1 f2).
  { eapply preserves_for_each; [apply _ | apply _ | | exact Hfiles].
    intros [] x. apply checkout_file_grows. }
  assert (G23 : grows f2 f3).
  { eapply preserves_for_each; [apply _ | apply _ | | exact Hdirs].
    intros [] x. unfold checkout_dirnode.
    apply preserves_bind; try apply _; [apply preserves_get; apply _|]. intros g.
    destruct (exists_ g _); [apply _checkout_grows | apply preserves_ret; apply _]. }
  assert (G34 : grows f3 f').
  { eapply preserves_for_each; [apply _ | apply _ | | exact Hsyms].
    intros [] x. apply symlink_grows. }
  exists directory. split; [|split; [|split; [|split]]].
  - apply (grows_read_directory self tree f1); [|exact Hread].
    transitivity f2; [exact G12|]. transitivity f3; [exact G23 | exact G34].
  - intros Hdot. apply (grows_isdir f1); [|exact (makedirs_isdir _ _ _ Hmk Hdot)].
    transitivity f2; [exact G12|]. transitivity f3; [exact G23 | exact G34].
  - eapply Forall_impl; [exact (files_loop_linked _ _ _ _ _ Hfiles)|].
    intros filenode. apply grows_linked. transitivity f3; [exact G23 | exact G34].
  - eapply Forall_impl; [exact (dirs_loop_mirrors fuel self dest IH _ _ _ Hdirs)|].
    intros dirnode Hsub Hex.
    apply (grows_mirrors fuel self f f2 f3 f'); [|exact G34|].
    + transitivity f1; [exact G01 | exact G12].
    + apply Hsub. apply (grows_exists f); [|exact Hex]. transitivity f1; [exact G01 | exact G12].
  - exact (symlinks_loop_placed _ _ _ _ Hsyms).
Qed.
End CheckoutMirrors.

(** Checking out S1 into [out]: [out/a.txt] is a directory entry for the
    inode of the blob of [hello]. *)
Lemma checkout_mirrors_tree_witness :
  mirrors 3 cache s1_fs (fst (_checkout 3 cache "out" s1_root s1_fs)) "out" s1_root.
Proof.
  assert (Hrun : snd (_checkout 3 cache "out" s1_root s1_fs) = Ok tt)
    by (vm_compute; reflexivity).
  exact (proj2 (checkout_mirrors_tree 3 cache "out" s1_root s1_fs _ (run_eq _ _ _ Hrun))).
Defined.

(** ** Temporary files *)

Lemma append_inv_head (a s t : string) : (a ++ s = a ++ t)%string -> s = t.
Proof. induction a as [|c a IH]; simpl; intros Heq; [exact Heq|]. injection Heq as Heq. auto. Qed.

Lemma path_join_tmp_inj dir s t :
  path_join dir ("tmp" ++ s) = path_join dir ("tmp" ++ t) -> s = t.
Proof.
  unfold path_join. simpl starts_with_sep.
  destruct (String.eqb dir "" || ends_with_sep dir)%bool; intros Heq;
    apply append_inv_head in Heq.
  - injection Heq as Heq. exact Heq.
  - simpl in Heq. injection Heq as Heq. exact Heq.
Qed.

(** There is always a free name for a temporary file: the candidates
    outnumber the entries of the file system. *)
Lemma tmp_name_total f dir : is_Some (tmp_name f dir).
Proof.
  unfold tmp_name. destruct (List.find _ _) as [p|] eqn:Hfind; [eauto|]. exfalso.
  assert (Hnodup : NoDup (tmp_candidates f dir)).
  { unfold tmp_candidates. apply NoDup_fmap_2_strong; [|apply NoDup_seq].
    intros n m _ _ Heq. apply path_join_tmp_inj in Heq.
    apply (inj pretty) in Heq. lia. }
  assert (Hsub : forall p, p ∈ tmp_candidates f dir -> p ∈ (map_to_list (nodes f)).*1).
  { intros p Hp. apply list_elem_of_In in Hp.
    pose proof (find_none _ _ Hfind p Hp) as Hex. simpl in Hex.
    apply negb_false_iff, exists_true in Hex as [x Hx].
    apply list_elem_of_fmap. exists (p, x). split; [reflexivity|].
    apply elem_of_map_to_list, Hx. }
  pose proof (submseteq_length _ _ (NoDup_submseteq _ _ Hnodup Hsub)) as Hlen.
  unfold tmp_candidates in Hlen.
  rewrite length_map, length_seq, length_fmap, length_map_to_list in Hlen. lia.
Qed.

(** ** Downloading a tree *)

#[local] Instance keeps_entries_refl : Reflexive keeps_entries.
Proof. intros f p x Hp. exact Hp. Qed.

#[local] Instance keeps_entries_trans : Transitive keeps_entries.
Proof. intros f1 f2 f3 H12 H23 p x Hp. apply H23, H12, Hp. Qed.

Lemma keeps_preserves {A} (c : M fs A) :
  (forall p, keeps_node (fun f : fs => f) p c) -> preserves keeps_entries c.
Proof. intros Hc f f' r Hr p x Hp. exact (Hc p f f' r x Hr Hp). Qed.

Lemma keeps_preserves_fst {X A} (c : M (fs * X) A) :
  (forall p, keeps_node (fun s : fs * X => fst s) p c) -> preserves (on_fst keeps_entries) c.
Proof. intros Hc s s' r Hr p x Hp. exact (Hc p s s' r x Hr Hp). Qed.

Lemma try_finally_inv_ok {S A} (body : M S A) cleanup s s' a :
  try_finally body cleanup s = (s', Ok a) ->
  exists s1, body s = (s1, Ok a) /\ cleanup s1 = (s', Ok tt).
Proof.
  unfold try_finally. destruct (body s) as [s1 r1].
  destruct (cleanup s1) as [s2 [[]|e]] eqn:Hcleanup; intros Hr; inversion Hr; subst.
  exists s1. auto.
Qed.

Lemma lift_fst_inv {S X A} (c : M S A) (s : S) (x : X) s' r :
  lift_fst c (s, x) = (s', r) -> exists s1, c s = (s1, r) /\ s' = (s1, x).
Proof.
  unfold lift_fst. simpl. destruct (c s) as [s1 r1]. intros Hr. inversion Hr; subst. eauto.
Qed.

Lemma lift_snd_inv {S X A} (c : M X A) (s : S) (x : X) s' r :
  lift_snd c (s, x) = (s', r) -> exists x1, c x = (x1, r) /\ s' = (s, x1).
Proof.
  unfold lift_snd. simpl. destruct (c x) as [x1 r1]. intros Hr. inversion Hr; subst. eauto.
Qed.

Lemma try_finally_lift_fst_obj {S X A} (c : M S A) (cleanup : M S unit) (s : S) (x : X)
    s' x' r :
  try_finally (lift_fst c) (lift_fst cleanup) (s, x) = ((s', x'), r) -> x' = x.
Proof.
  unfold try_finally. rewrite lift_fst_run. rewrite lift_fst_run.
  destruct (snd (cleanup _)) as [[]|e]; intros Hr; injection Hr as _ <- _; reflexivity.
Qed.

(** A block that runs on a temporary file of its own and removes it in
    the end keeps every entry, if its body does. *)
Lemma tmp_block_keeps {X A} dir (body : string -> M (fs * X) A) :
  (forall tmp, preserves (on_fst keeps_entries) (body tmp)) ->
  preserves (on_fst keeps_entries)
    (let* tmp := lift_fst (NamedTemporaryFile dir) in
     try_finally (body tmp) (lift_fst (unlink tmp))).
Proof.
  intros Hbody [f x] s' r. unfold bind at 1. rewrite lift_fst_run.
  unfold NamedTemporaryFile. destruct (tmp_name f dir) as [tmp|] eqn:Hname;
    [|simpl; intros Hr; injection Hr as <- _; reflexivity].
  pose proof (tmp_name_fresh _ _ _ Hname) as Hfresh.
  unfold create_file. rewrite Hfresh.
  destruct (parent_isdir f tmp); simpl; [|intros Hr; injection Hr as <- _; reflexivity].
  unfold try_finally.
  match goal with |- context [body tmp ?s1] => destruct (body tmp s1) as [[f2 x2] r2] eqn:Hb end.
  apply Hbody in Hb. unfold on_fst in Hb. simpl in Hb.
  rewrite lift_fst_run. simpl. destruct (unlink tmp f2) as [f3 r3] eqn:Hunlink. simpl.
  intros Hr. assert (Hs : s' = (f3, x2)) by (destruct r3 as [[]|]; injection Hr; auto).
  subst s'. intros p y Hp. simpl in Hp |- *.
  assert (Hne : p <> tmp).
  { intros ->. unfold exists_ in Hfresh. rewrite Hp in Hfresh. discriminate Hfresh. }
  destruct (unlink_removes _ _ _ _ Hunlink) as (_ & Hkept & _).
  apply Hkept; [|exact Hne]. apply Hb. simpl. rewrite lookup_insert_ne by congruence. exact Hp.
Qed.

Section AddObjectKeeps.
Context `{Hash}.

Lemma add_object_with_keeps self src link_directly :
  preserves (on_fst keeps_entries) (add_object_with self src link_directly).
Proof.
  assert (Hbody : forall tmp (hashing : M (fs * Digest.t) hasher),
    (forall p, keeps_node (fun s : fs * Digest.t => fst s) p hashing) ->
    preserves (on_fst keeps_entries)
      (lift_fst (chmod tmp (S_IRUSR + S_IWUSR + S_IRGRP + S_IROTH)) ;;;
       let* h := hashing in add_object_place self tmp h)).
  { intros tmp hashing Hh. apply keeps_preserves_fst. intros p.
    apply keeps_bind; [apply (keeps_lift_fst (fun f : fs => f)), keeps_chmod|]. intros _.
    apply keeps_bind; [apply Hh | intros h; apply add_object_place_keeps]. }
  unfold add_object_with. destruct src as [path|buffer]; [destruct link_directly|].
  - apply keeps_preserves_fst. intros p.
    apply keeps_bind; [apply (keeps_lift_fst (fun f : fs => f)), keeps_read_file|].
    intros data. apply add_object_place_keeps.
  - apply tmp_block_keeps. intros tmp. apply Hbody. intros p.
    destruct (String.eqb path ""); [apply keeps_raise|].
    apply keeps_bind; [apply (keeps_lift_fst (fun f : fs => f)), keeps_read_file|].
    intros data. apply keeps_for_each. intros h chunk.
    apply keeps_bind; [apply (keeps_lift_fst (fun f : fs => f)), keeps_write_file|].
    intros _. apply keeps_ret.
  - assert (Hbuffer : forall b : bool,
      preserves (on_fst keeps_entries)
        (let* tmp := lift_fst (NamedTemporaryFile (tmpdir self)) in
         try_finally
           (lift_fst (chmod tmp (S_IRUSR + S_IWUSR + S_IRGRP + S_IROTH)) ;;;
            let* h := (lift_fst (write_file tmp buffer) ;;;
                       ret (hasher_update hasher_new buffer)) in
            add_object_place self tmp h)
           (lift_fst (unlink tmp)))).
    { intros _. apply tmp_block_keeps. intros tmp. apply Hbody. intros p.
      apply keeps_bind; [apply (keeps_lift_fst (fun f : fs => f)), keeps_write_file|].
      intros _. apply keeps_ret. }
    destruct link_directly; apply (Hbuffer true).
Qed.

(** [add_object] removes and replaces nothing. *)
Lemma add_object_keeps self digest src link_directly :
  preserves keeps_entries (add_object self digest src link_directly).
Proof.
  intros f f' r. rewrite add_object_unfold.
  destruct (add_object_with self src link_directly _) as [[f1 d] r1] eqn:Hwith.
  apply add_object_with_keeps in Hwith. unfold on_fst in Hwith. simpl in Hwith.
  destruct r1 as [[]|e]; [intros Hr; injection Hr as <- _; exact Hwith|].
  destruct e; simpl; intros Hr; injection Hr as <- _; exact Hwith.
Qed.

(** The digest that [add_object(buffer=...)] returns is the digest of the
    buffer. *)
Lemma add_object_buffer_digest self buffer f f' d :
  add_object self None (Buffer buffer) false f = (f', Ok d) -> d = digest_of buffer.
Proof.
  rewrite add_object_unfold.
  destruct (tmp_name_total f (tmpdir self)) as [tmp Hname].
  destruct (parent_isdir f tmp) eqn:Hparent.
  - rewrite (add_object_with_tmp self (Buffer buffer) false f Digest.empty buffer tmp
               eq_refl eq_refl ltac:(discriminate) Hname Hparent).
    destruct (try_finally _ _ _) as [[f1 d1] r1] eqn:Hblock.
    apply try_finally_lift_fst_obj in Hblock as ->.
    destruct r1 as [[]|e]; [intros Hr; injection Hr as _ <-; reflexivity|].
    destruct e; simpl; try discriminate; intros Hr; injection Hr as _ <-; reflexivity.
  - unfold add_object_with, bind. rewrite lift_fst_run.
    unfold NamedTemporaryFile, create_file.
    rewrite Hname, (tmp_name_fresh _ _ _ Hname), Hparent. simpl. discriminate.
Qed.
End AddObjectKeeps.

Section PullTree.
Context `{Hash} `{Codec} `{TreeCodec} {R : Type} `{Remote R}.

Lemma _fetch_blob_keeps digest stream :
  preserves (on_fst (X:=R) keeps_entries) (_fetch_blob digest stream).
Proof.
  unfold _fetch_blob, on_fs, rpc.
  apply preserves_bind; try apply _; [apply preserves_lift_snd; apply _|]. intros data.
  apply preserves_bind; try apply _.
  { apply preserves_lift_fst, keeps_preserves. intros p. apply keeps_write_file. }
  intros []. apply preserves_bind; try apply _.
  { apply preserves_lift_fst, keeps_preserves. intros p. apply keeps_file_size. }
  intros size. destruct (_ =? _); [apply preserves_ret | apply preserves_raise]; apply _.
Qed.

Lemma _ensure_blob_keeps self digest :
  preserves (on_fst (X:=R) keeps_entries) (_ensure_blob self digest).
Proof.
  unfold _ensure_blob.
  apply preserves_bind; try apply _; [apply preserves_get; apply _|]. intros s.
  destruct (exists_ _ _); [apply preserves_ret; apply _|].
  apply preserves_bind; try apply _; [|intros []; apply preserves_ret; apply _].
  unfold with_temporary_file, on_fs. apply tmp_block_keeps. intros tmp.
  apply preserves_bind; try apply _; [apply _fetch_blob_keeps|]. intros [].
  apply preserves_bind; try apply _; [apply preserves_lift_fst, add_object_keeps|].
  intros added_digest.
  destruct (String.eqb _ _); [apply preserves_ret | apply preserves_raise]; apply _.
Qed.

Lemma fetch_tree_directory_keeps self directory :
  preserves (on_fst (X:=R) keeps_entries) (fetch_tree_directory self directory).
Proof.
  unfold fetch_tree_directory, on_fs.
  apply preserves_bind; try apply _.
  { apply preserves_for_each; try apply _. intros [] filenode.
    apply preserves_bind; try apply _; [apply _ensure_blob_keeps|].
    intros p. apply preserves_ret; apply _. }
  intros []. apply preserves_bind; try apply _; [apply preserves_lift_fst, add_object_keeps|].
  intros dirdigest. destruct (_ =? _); [apply preserves_ret | apply preserves_raise]; apply _.
Qed.

Lemma _fetch_tree_keeps self digest :
  preserves (on_fst (X:=R) keeps_entries) (_fetch_tree self digest).
Proof.
  unfold _fetch_tree, with_temporary_file, on_fs. apply tmp_block_keeps. intros out.
  apply preserves_bind; try apply _; [apply _fetch_blob_keeps|]. intros [].
  apply preserves_bind; try apply _.
  { apply preserves_lift_fst, keeps_preserves. intros p. apply keeps_read_file. }
  intros data. apply preserves_bind; try apply _.
  { destruct (parse_tree data); [apply preserves_ret | apply preserves_raise]; apply _. }
  intros tree. apply preserves_bind; try apply _; [|intros []; apply fetch_tree_directory_keeps].
  apply preserves_for_each; try apply _. intros [] directory.
  apply preserves_bind; try apply _; [apply fetch_tree_directory_keeps|].
  intros d. apply preserves_ret; apply _.
Qed.

Lemma fetch_tree_directory_digest self directory s s' d :
  fetch_tree_directory self directory s = (s', Ok d) ->
  d = digest_of (serialize_directory directory).
Proof.
  unfold fetch_tree_directory, on_fs. intros Hrun.
  apply bind_inv_ok in Hrun as (s1 & [] & _ & Hrun).
  apply bind_inv_ok in Hrun as (s2 & dirdigest & Hadd & Hassert).
  destruct s1 as [f1 r1]. apply lift_fst_inv in Hadd as (f2 & Hadd & ->).
  apply add_object_buffer_digest in Hadd as ->.
  destruct (_ =? _); [|discriminate Hassert]. injection Hassert as _ <-. reflexivity.
Qed.

Lemma _fetch_tree_digest self digest f r s' d :
  _fetch_tree self digest (f, r) = (s', Ok d) ->
  exists r' data tree,
    bytestream_Read digest r = (r', Ok data)
    /\ parse_tree data = Some tree
    /\ d = digest_of (serialize_directory (Tree.root tree)).
Proof.
  unfold _fetch_tree, with_temporary_file, on_fs, rpc. intros Hrun.
  apply bind_inv_ok in Hrun as (s1 & out & Hcreate & Hrun).
  apply lift_fst_inv in Hcreate as (f1 & Hcreate & ->).
  apply try_finally_inv_ok in Hrun as (s2 & Hbody & _).
  apply bind_inv_ok in Hbody as (s3 & [] & Hblob & Hbody).
  unfold _fetch_blob, on_fs, rpc in Hblob.
  apply bind_inv_ok in Hblob as (s4 & data & Hread & Hblob).
  apply lift_snd_inv in Hread as (r' & Hread & ->).
  apply bind_inv_ok in Hblob as (s5 & [] & Hwrite & Hblob).
  apply lift_fst_inv in Hwrite as (f2 & Hwrite & ->).
  apply bind_inv_ok in Hblob as (s6 & size & Hsize & Hassert).
  apply lift_fst_inv in Hsize as (f3 & Hsize & ->).
  apply file_size_state in Hsize as ->.
  destruct (_ =? _); [|discriminate Hassert]. injection Hassert as <-.
  apply bind_inv_ok in Hbody as (s7 & data' & Hreadback & Hbody).
  apply lift_fst_inv in Hreadback as (f4 & Hreadback & ->).
  assert (Hdata : data' = data).
  { destruct (tmp_written _ _ _ _ _ _ Hcreate Hwrite) as (_ & Hnodes & Hinodes & _).
    unfold read_file in Hreadback. rewrite Hnodes, lookup_insert_eq, Hinodes, lookup_insert_eq in Hreadback.
    injection Hreadback as _ <-. reflexivity. }
  subst data'.
  apply bind_inv_ok in Hbody as (s8 & tree & Hparse & Hbody).
  destruct (parse_tree data) as [t|] eqn:Htree; [|discriminate Hparse].
  injection Hparse as <- <-.
  apply bind_inv_ok in Hbody as (s9 & [] & _ & Hroot).
  apply fetch_tree_directory_digest in Hroot.
  exists r', data, t. auto.
Qed.

(** What [pull_tree(remote, digest)] comes to.  However it ends, every
    entry of the local file system is still there.  A [NOT_FOUND] from
    the server is never raised: the call returns [None] instead, and it
    returns [None] in no other case.  A digest that it returns is the
    digest of the serialised root Directory of the Tree that the server
    sent for [digest]. *)
Theorem pull_tree_outcome self digest f r f' r' outcome :
  pull_tree self digest (f, r) = ((f', r'), outcome) ->
  keeps_entries f f'
  /\ outcome <> Raise (RpcError NOT_FOUND)
  /\ (outcome = Ok None ->
      exists s, (rpc remote_init ;;; _fetch_tree self digest) (f, r)
                = (s, Raise (RpcError NOT_FOUND)))
  /\ (forall d, outcome = Ok (Some d) ->
        exists r1 r2 data tree,
          remote_init r = (r1, Ok tt)
          /\ bytestream_Read digest r1 = (r2, Ok data)
          /\ parse_tree data = Some tree
          /\ d = digest_of (serialize_directory (Tree.root tree))).
Proof.
  intros Hrun. split; [|split; [|split]].
  - assert (Hkeeps : preserves (on_fst (X:=R) keeps_entries) (pull_tree self digest)).
    { unfold pull_tree, rpc. apply preserves_try_except; try apply _.
      - apply preserves_bind; try apply _; [apply preserves_lift_snd; apply _|]. intros [].
        apply preserves_bind; try apply _; [apply _fetch_tree_keeps|].
        intros d. apply preserves_ret; apply _.
      - intros e. destruct e; try (apply preserves_raise; apply _).
        destruct (negb _); [apply preserves_raise | apply preserves_ret]; apply _. }
    exact (Hkeeps _ _ _ Hrun).
  - unfold pull_tree, try_except in Hrun.
    destruct ((rpc remote_init ;;; let* d := _fetch_tree self digest in ret (Some d)) (f, r))
      as [s1 [a|e]]; [injection Hrun as _ <-; discriminate|].
    destruct e; try (injection Hrun as _ <-; discriminate).
    destruct code; simpl in Hrun; injection Hrun as _ <-; discriminate.
  - intros ->. unfold pull_tree, try_except in Hrun. unfold bind in Hrun |- *.
    destruct (rpc remote_init (f, r)) as [s1 [[]|e]].
    + destruct (_fetch_tree self digest s1) as [s2 [d|e]]; [discriminate Hrun|].
      destruct e; try discriminate Hrun.
      destruct code; try discriminate Hrun. eauto.
    + destruct e; try discriminate Hrun.
      destruct code; try discriminate Hrun. eauto.
  - intros d ->. unfold pull_tree, try_except in Hrun.
    destruct ((rpc remote_init ;;; let* d := _fetch_tree self digest in ret (Some d)) (f, r))
      as [s1 [a|e]] eqn:Hbody.
    + injection Hrun as -> ->.
      apply bind_inv_ok in Hbody as (s2 & [] & Hinit & Hbody).
      apply lift_snd_inv in Hinit as (r1 & Hinit & ->).
      apply bind_inv_ok in Hbody as (s3 & d' & Hfetch & Hret). injection Hret as _ ->.
      destruct (_fetch_tree_digest _ _ _ _ _ _ Hfetch) as (r2 & data & tree & Hread & Htree & Hd).
      exists r1, r2, data, tree. auto.
    + destruct e; try discriminate Hrun.
      destruct (negb _); discriminate Hrun.
Qed.
End PullTree.

(** Pulling the one-file Tree into the empty second cache: the digest of
    its root comes back. *)
Lemma pull_tree_outcome_witness :
  snd (pull_tree cache2 (digest_of (put_tree one_file_tree)) (cache2_fs, tree_server))
  = Ok (Some (digest_of (put_directory (Tree.root one_file_tree))))
  /\ keeps_entries cache2_fs
       (fst (fst (pull_tree cache2 (digest_of (put_tree one_file_tree))
                    (cache2_fs, tree_server)))).
Proof.
  split; [vm_compute; reflexivity|].
  destruct (pull_tree cache2 (digest_of (put_tree one_file_tree)) (cache2_fs, tree_server))
    as [[f' r'] outcome] eqn:Hrun.
  exact (proj1 (pull_tree_outcome _ _ _ _ _ _ _ Hrun)).
Defined.

(** ** Queries on a ref *)

Section RefQueries.
Context `{Hash} `{Codec}.

Lemma contains_run self ref f :
  contains self ref f = (f, Ok (exists_ f (_refpath self ref))).
Proof. reflexivity. Qed.

Lemma resolve_ref_missing self ref f :
  exists_ f (_refpath self ref) = false ->
  resolve_ref self ref f
  = (f, Raise (CASCacheError "Attempt to access unavailable ref" false)).
Proof.
  unfold exists_, resolve_ref, try_except, bind, read_file.
  destruct (nodes f !! _refpath self ref); [discriminate | reflexivity].
Qed.

(** The queries on a ref agree.  [update_mtime(ref)] returns exactly when
    [contains(ref)] is true.  For a ref that is not contained,
    [resolve_ref], [update_mtime] and [contains_subdir_artifact] raise
    the same [CASCacheError], and the file system stays as it is.
    [contains_subdir_artifact] never changes the file system; what it
    returns is whether the Directory object that [_get_subdir] finds for
    [subdir] in the tree of the ref is in the cache, so it returns only
    for a contained ref. *)
Theorem ref_queries_agree self ref f :
  (contains self ref f = (f, Ok true) <-> update_mtime self ref f = (f, Ok tt))
  /\ (contains self ref f = (f, Ok false) ->
      update_mtime self ref f = (f, Raise unavailable_ref)
      /\ resolve_ref self ref f = (f, Raise unavailable_ref)
      /\ forall subdir,
           contains_subdir_artifact self ref subdir f = (f, Raise unavailable_ref))
  /\ (forall subdir f' outcome,
        contains_subdir_artifact self ref subdir f = (f', outcome) ->
        f' = f
        /\ forall present, outcome = Ok present ->
             contains self ref f = (f, Ok true)
             /\ exists tree subdirdigest,
                  resolve_ref self ref f = (f, Ok tree)
                  /\ _get_subdir self tree subdir f = (f, Ok subdirdigest)
                  /\ present = exists_ f (objpath self subdirdigest)).
Proof.
  rewrite contains_run. split; [|split].
  - unfold update_mtime, try_except, utime.
    destruct (exists_ f (_refpath self ref)); split; intros Hx; try reflexivity;
      discriminate Hx.
  - intros Hc. injection Hc as Hmissing. unfold unavailable_ref. split; [|split].
    + unfold update_mtime, try_except, utime. rewrite Hmissing. reflexivity.
    + exact (resolve_ref_missing _ _ _ Hmissing).
    + intros subdir. unfold contains_subdir_artifact.
      rewrite (bind_raise _ _ _ _ _ (resolve_ref_missing _ _ _ Hmissing)). reflexivity.
  - intros subdir f' outcome. unfold contains_subdir_artifact. unfold bind at 1.
    destruct (resolve_ref self ref f) as [f1 [tree|e]] eqn:Hresolve;
      pose proof (resolve_ref_state _ _ _ _ _ Hresolve) as ->;
      [|intros Hr; injection Hr as <- <-; split; [reflexivity | discriminate]].
    unfold bind at 1.
    destruct (_get_subdir self tree subdir f) as [f1 [subdirdigest|e]] eqn:Hsub;
      pose proof (_get_subdir_state _ _ _ _ _ _ Hsub) as ->;
      [|intros Hr; injection Hr as <- <-; split; [reflexivity | discriminate]].
    rewrite bind_get. intros Hr. injection Hr as <- <-. split; [reflexivity|].
    intros present Hp. injection Hp as <-. split.
    + destruct (resolve_ref_file _ _ _ _ Hresolve) as (i & Hi & _).
      unfold exists_. rewrite Hi. reflexivity.
    + exists tree, subdirdigest. auto.
Qed.
End RefQueries.

(** In S1 the ref [r1] is contained, so that its time stamp can be
    updated; [r9] is not. *)
Lemma ref_queries_agree_witness :
  update_mtime cache "r1" s1_fs = (s1_fs, Ok tt)
  /\ resolve_ref cache "r9" s1_fs = (s1_fs, Raise unavailable_ref).
Proof.
  assert (H1 : exists_ s1_fs (_refpath cache "r1") = true) by (vm_compute; reflexivity).
  assert (H9 : exists_ s1_fs (_refpath cache "r9") = false) by (vm_compute; reflexivity).
  split.
  - apply (proj1 (ref_queries_agree cache "r1" s1_fs)).
    rewrite contains_run, H1. reflexivity.
  - apply (proj1 (proj2 (ref_queries_agree cache "r9" s1_fs))).
    rewrite contains_run, H9. reflexivity.
Defined.

(** ** Pruning keeps the roots *)










Section PruneRoots.
Context `{Codec}.





End PruneRoots.


(** ** What a pull leaves in place *)


#[local] Instance keeps_but_refl q : Reflexive (keeps_but q).
Proof. intros f p x Hp. left. exact Hp. Qed.

#[local] Instance keeps_but_trans q : Transitive (keeps_but q).
Proof.
  intros f1 f2 f3 H12 H23 p x Hp.
  destruct (H12 p x Hp) as [Hp2 | [-> [y Hy]]]; [exact (H23 p x Hp2)|].
  right. split; [reflexivity|].
  destruct (H23 q y Hy) as [Hy3 | [_ Hsome]]; [eauto | exact Hsome].
Qed.



Section PullKeeps.
Context `{Hash} `{Codec} {R : Type} `{Remote R}.








End PullKeeps.


(** ** Committing under refs *)

#[local] Instance keeps_names_refl : Reflexive keeps_names.
Proof. intros f p Hp. exact Hp. Qed.

#[local] Instance keeps_names_trans : Transitive keeps_names.
Proof. intros f1 f2 f3 H12 H23 p Hp. apply H23, H12, Hp. Qed.


Section CommitRefs.
Context `{Hash} `{Codec}.


End CommitRefs.

